(** * Entable: chunked array and sparse-set registry

  A shallow embedding of [ChunkedArray.hpp] and [Entable.hpp].

  Integers.  [size_t] and [uint32_t] values are carried as [Z].  The
  32-bit entity arithmetic wraps through [wrap32].  The [size_t]
  subtractions of the source that can go below zero (the element count
  of the last chunk in [Iterator::reload_chunk], [data.size() - 1] in
  [Kill], [entities.size() - fSize] in [Size]) wrap through [wrap64].
  Element counts are never incremented past what memory can hold, so
  increments of [elemCount] are written without a wrap.

  Memory.  A chunk is one raw allocation of [CHUNK_SIZE] slots.  A slot
  is either [Raw] (no object lives there) or [Live v].  A pointer into a
  chunk is the pair of the chunk's position in [chunks] and an offset;
  [nullptr] is [None].  Undefined behaviour (a read of a raw slot, an
  access outside a chunk, a failed [assert]) is the result [None]. *)

From Stdlib Require Import ZArith Lia.
From stdpp Require Import base decidable option list list_numbers.

Local Open Scope Z_scope.

(** ** Lists indexed by [size_t] *)

Section ZList.
Context {A : Type}.

Definition zlen (l : list A) : Z := Z.of_nat (length l).

Definition zget (l : list A) (i : Z) : option A :=
  if decide (0 ≤ i) then l !! Z.to_nat i else None.

Definition zset (l : list A) (i : Z) (x : A) : list A :=
  if decide (0 ≤ i) then <[Z.to_nat i := x]> l else l.
End ZList.

Definition wrap32 (z : Z) : Z := z mod 2 ^ 32.
Definition wrap64 (z : Z) : Z := z mod 2 ^ 64.

(** A [size_t] added to a pointer: the address wraps with the machine
  word, so a count of [2^64 - k] moves the pointer [k] elements back. *)
Definition signed64 (z : Z) : Z :=
  if decide (z < 2 ^ 63) then z else z - 2 ^ 64.

(** ** ChunkHelper *)

Module ChunkHelper.
Section ChunkHelper.
(** [LOG2 = std::countr_zero(CHUNK_SIZE)]; the [static_assert] makes
  [CHUNK_SIZE] a power of two, so it is [2 ^ LOG2]. *)
Variable LOG2 : nat.

Definition CHUNK_SIZE : Z := 2 ^ Z.of_nat LOG2.
Definition MASK : Z := CHUNK_SIZE - 1.

Definition ChunkIndex (globalIndex : Z) : Z :=
  Z.shiftr globalIndex (Z.of_nat LOG2).

Definition OffsetIndex (globalIndex : Z) : Z :=
  Z.land globalIndex MASK.
End ChunkHelper.
End ChunkHelper.

Abbreviation csize := ChunkHelper.CHUNK_SIZE.
Abbreviation cidx := ChunkHelper.ChunkIndex.
Abbreviation coff := ChunkHelper.OffsetIndex.

(** ** ChunkedArray *)

Inductive Slot (T : Type) : Type :=
  | Raw
  | Live (v : T).
Arguments Raw {T}.
Arguments Live {T} v.

Definition is_live {T} (s : Slot T) : bool :=
  match s with Live _ => true | Raw => false end.

Definition ptr : Type := option (Z * Z).

(** Ghost record of the constructor and destructor calls made on slots,
  each with whether the slot held a live object at the time.  It plays
  the part of the construct/destroy counters of the tests' [NoDflt]. *)
Inductive Event : Type :=
  | EvConstruct (chunk off : Z) (was_live : bool)
  | EvDestroy (chunk off : Z) (was_live : bool).

Definition is_construct (e : Event) : bool :=
  match e with EvConstruct _ _ _ => true | EvDestroy _ _ _ => false end.

Definition is_destroy (e : Event) : bool :=
  match e with EvDestroy _ _ _ => true | EvConstruct _ _ _ => false end.

(** A destructor that ran where no object was alive. *)
Definition is_bad_destroy (e : Event) : bool :=
  match e with EvDestroy _ _ false => true | _ => false end.

Record ChunkedArray (T : Type) : Type := mkChunkedArray {
  chunks : list (list (Slot T));
  elemCount : Z;
  m_writePtr : ptr;
  m_chunkEnd : ptr;
  events : list Event
}.
Arguments mkChunkedArray {T}.
Arguments chunks {T}.
Arguments elemCount {T}.
Arguments m_writePtr {T}.
Arguments m_chunkEnd {T}.
Arguments events {T}.

Definition ptr_add (p : ptr) (n : Z) : ptr :=
  match p with
  | Some (c, o) => Some (c, o + signed64 n)
  | None => None
  end.

(** A signed element count added to a pointer ([p - 1], [--p]). *)
Definition ptr_offset (p : ptr) (d : Z) : ptr :=
  match p with
  | Some (c, o) => Some (c, o + d)
  | None => None
  end.

Module CA.
Section ChunkedArrayOps.
Context {T : Type}.
Variable LOG2 : nat.
(** [std::is_trivially_destructible_v<T>]: the destructor of such a [T]
  does nothing, and the code may leave the call out. *)
Variable trivially_destructible : bool.

Abbreviation CHUNK_SIZE := (ChunkHelper.CHUNK_SIZE LOG2).
Abbreviation ChunkIndex := (ChunkHelper.ChunkIndex LOG2).
Abbreviation OffsetIndex := (ChunkHelper.OffsetIndex LOG2).
Abbreviation Arr := (ChunkedArray T).

Definition slot_at (cs : list (list (Slot T))) (c o : Z) : option (Slot T) :=
  match zget cs c with
  | Some ch => zget ch o
  | None => None
  end.

Definition slot_write (cs : list (list (Slot T))) (c o : Z) (s : Slot T)
  : list (list (Slot T)) :=
  match zget cs c with
  | Some ch => zset cs c (zset ch o s)
  | None => cs
  end.

Definition empty_array : Arr := mkChunkedArray [] 0 None None [].

Definition size (a : Arr) : Z := elemCount a.
Definition empty (a : Arr) : bool := bool_decide (elemCount a = 0).
Definition chunk_count (a : Arr) : Z := zlen (chunks a).

Definition make_chunk : list (Slot T) := replicate (Z.to_nat CHUNK_SIZE) Raw.

Definition set_chunks (cs : list (list (Slot T))) (a : Arr) : Arr :=
  mkChunkedArray cs (elemCount a) (m_writePtr a) (m_chunkEnd a) (events a).
Definition set_elemCount (n : Z) (a : Arr) : Arr :=
  mkChunkedArray (chunks a) n (m_writePtr a) (m_chunkEnd a) (events a).
Definition set_cursor (w e : ptr) (a : Arr) : Arr :=
  mkChunkedArray (chunks a) (elemCount a) w e (events a).

Definition update_write_ptr (a : Arr) : Arr :=
  if bool_decide (chunks a = []) then set_cursor None None a
  else
    let writeChunkIdx := ChunkIndex (elemCount a) in
    if bool_decide (chunk_count a ≤ writeChunkIdx) then set_cursor None None a
    else set_cursor (Some (writeChunkIdx, OffsetIndex (elemCount a)))
                    (Some (writeChunkIdx, CHUNK_SIZE)) a.

Definition allocate_new_chunk (a : Arr) : Arr :=
  let a1 := set_chunks (chunks a ++ [make_chunk]) a in
  let back := chunk_count a1 - 1 in
  set_cursor (Some (back, 0)) (Some (back, CHUNK_SIZE)) a1.

(** The [while (chunks.size() < numChunksNeeded) push_back] loop. *)
Definition grow_chunks (numChunksNeeded : Z) (cs : list (list (Slot T)))
  : list (list (Slot T)) :=
  cs ++ replicate (Z.to_nat (numChunksNeeded - zlen cs)) make_chunk.

Definition allocate_chunks_for (count : Z) (a : Arr) : Arr :=
  if bool_decide (count = 0) then a
  else set_chunks (grow_chunks (ChunkIndex (count - 1) + 1) (chunks a)) a.

(** [std::construct_at] on the slot [p] points at. *)
Definition construct_at (p : ptr) (v : T) (a : Arr) : option Arr :=
  match p with
  | Some (c, o) =>
      match slot_at (chunks a) c o with
      | Some s =>
          Some (mkChunkedArray (slot_write (chunks a) c o (Live v))
                  (elemCount a) (m_writePtr a) (m_chunkEnd a)
                  (events a ++ [EvConstruct c o (is_live s)]))
      | None => None
      end
  | None => None
  end.

(** [std::destroy_at]: nothing to run for a trivially destructible [T]. *)
Definition destroy_at (c o : Z) (a : Arr) : option Arr :=
  match slot_at (chunks a) c o with
  | Some s =>
      if trivially_destructible then Some a
      else Some (mkChunkedArray (slot_write (chunks a) c o Raw)
                   (elemCount a) (m_writePtr a) (m_chunkEnd a)
                   (events a ++ [EvDestroy c o (is_live s)]))
  | None => None
  end.

(** A loop body run on each element of [l] in turn, stopping at the
    first undefined step. *)
Fixpoint for_each {X} (f : X → Arr → option Arr) (l : list X) (a : Arr)
  : option Arr :=
  match l with
  | [] => Some a
  | x :: l' =>
      match f x a with
      | Some a' => for_each f l' a'
      | None => None
      end
  end.

(** [std::destroy(base + lo, base + hi)] in chunk [c]. *)
Definition destroy_range (c lo hi : Z) (a : Arr) : option Arr :=
  for_each (λ o, destroy_at c o) (seqZ lo (hi - lo)) a.

(** [std::uninitialized_fill(base + lo, base + hi, v)] and
    [std::uninitialized_default_construct] (with [v] the
    default-constructed value) in chunk [c]. *)
Definition construct_range (c lo hi : Z) (v : T) (a : Arr) : option Arr :=
  for_each (λ o, construct_at (Some (c, o)) v) (seqZ lo (hi - lo)) a.

Definition destroy_elements (first last : Z) (a : Arr) : option Arr :=
  if trivially_destructible then Some a
  else if bool_decide (last ≤ first) then Some a
  else
    for_each
      (λ ci a,
         let lo := if bool_decide (ci = ChunkIndex first)
                   then OffsetIndex first else 0 in
         let hi := if bool_decide (ci = ChunkIndex (last - 1))
                   then OffsetIndex (last - 1) + 1 else CHUNK_SIZE in
         destroy_range ci lo hi a)
      (seqZ (ChunkIndex first) (ChunkIndex (last - 1) + 1 - ChunkIndex first))
      a.

Definition clear (a : Arr) : option Arr :=
  a1 ← destroy_elements 0 (elemCount a) a;
  Some (mkChunkedArray [] 0 None None (events a1)).

Definition reserve (count : Z) (a : Arr) : Arr :=
  if bool_decide (count = 0) then a
  else
    update_write_ptr
      (set_chunks (grow_chunks (ChunkIndex (count - 1) + 1) (chunks a)) a).

(** The loop shared by [ensure_size] and the growing [resize(n, value)]:
    [ci] runs from the chunk of [old_count] up to [chunks.size()]. *)
Definition fill_new_slots (old_count count : Z) (v : T) (a : Arr) : option Arr :=
  for_each
    (λ ci a,
       let lo := if bool_decide (ci = ChunkIndex old_count)
                 then OffsetIndex old_count else 0 in
       let hi := if bool_decide (ci = ChunkIndex (count - 1))
                 then OffsetIndex (count - 1) + 1 else CHUNK_SIZE in
       construct_range ci lo hi v a)
    (seqZ (ChunkIndex old_count) (chunk_count a - ChunkIndex old_count))
    a.

(** [ensure_size], for a default-constructible [T].  The new elements
    are default-initialised ([std::uninitialized_default_construct]):
    for a class type [dflt] is the value its default constructor leaves;
    for a scalar [T] the new elements are left indeterminate, and [dflt]
    stands for a content the code does not fix, so that nothing may be
    concluded from the value read at a grown index before it is
    assigned. *)
Definition ensure_size (dflt : T) (count : Z) (a : Arr) : option Arr :=
  if bool_decide (count ≤ elemCount a) then Some a
  else
    let old_count := elemCount a in
    let a1 := allocate_chunks_for count (set_elemCount count a) in
    a2 ← fill_new_slots old_count count dflt a1;
    Some (update_write_ptr a2).

Definition shrink (count : Z) (a : Arr) : option Arr :=
  a1 ← destroy_elements count (elemCount a) a;
  Some (update_write_ptr (set_elemCount count a1)).

(** [resize(count)]. *)
Definition resize (dflt : T) (count : Z) (a : Arr) : option Arr :=
  if bool_decide (elemCount a < count) then ensure_size dflt count a
  else if bool_decide (count < elemCount a) then shrink count a
  else Some a.

(** [resize(count, value)]. *)
Definition resize_value (count : Z) (value : T) (a : Arr) : option Arr :=
  if bool_decide (elemCount a < count) then
    let old_count := elemCount a in
    let a1 := allocate_chunks_for count (set_elemCount count a) in
    a2 ← fill_new_slots old_count count value a1;
    Some (update_write_ptr a2)
  else if bool_decide (count < elemCount a) then shrink count a
  else Some a.

(** [chunks.resize(n)] on the vector of chunk pointers: trailing chunks
    are released, or null pointers (chunks with no slot) are appended. *)
Definition chunks_resize (n : Z) (cs : list (list (Slot T)))
  : list (list (Slot T)) :=
  take (Z.to_nat n) cs ++ replicate (Z.to_nat (n - zlen cs)) [].

Definition shrink_to_fit (a : Arr) : option Arr :=
  if bool_decide (elemCount a = 0) then clear a
  else
    let numChunksNeeded := ChunkIndex (elemCount a - 1) + 1 in
    Some (update_write_ptr (set_chunks (chunks_resize numChunksNeeded (chunks a)) a)).

(** [operator[]] read. *)
Definition index (a : Arr) (idx : Z) : option T :=
  match slot_at (chunks a) (ChunkIndex idx) (OffsetIndex idx) with
  | Some (Live v) => Some v
  | _ => None
  end.

(** [arr[idx] = v]: assignment to the object in the slot. *)
Definition assign (idx : Z) (v : T) (a : Arr) : option Arr :=
  match slot_at (chunks a) (ChunkIndex idx) (OffsetIndex idx) with
  | Some (Live _) =>
      Some (set_chunks
              (slot_write (chunks a) (ChunkIndex idx) (OffsetIndex idx) (Live v)) a)
  | _ => None
  end.



Definition emplace_back (v : T) (a : Arr) : option Arr :=
  let a1 := if bool_decide (m_writePtr a = m_chunkEnd a)
            then allocate_new_chunk a else a in
  let slot := m_writePtr a1 in
  a2 ← construct_at slot v a1;
  Some (mkChunkedArray (chunks a2) (elemCount a2 + 1)
          (ptr_add (m_writePtr a2) 1) (m_chunkEnd a2) (events a2)).

Definition push_back (value : T) (a : Arr) : option Arr := emplace_back value a.

Definition back (a : Arr) : option T :=
  if bool_decide (0 < elemCount a) then index a (elemCount a - 1) else None.

Definition pop_back (a : Arr) : option Arr :=
  if bool_decide (0 < elemCount a) then
    let a1 := set_elemCount (elemCount a - 1) a in
    a2 ← destroy_at (ChunkIndex (elemCount a1)) (OffsetIndex (elemCount a1)) a1;
    Some (update_write_ptr a2)
  else None.

(** *** Iterator *)

Record Iterator : Type := mkIterator {
  current : ptr;
  chunk_end : ptr;
  chunk_index : Z
}.

Definition get_chunk_ptr (chunkIndex : Z) : ptr := Some (chunkIndex, 0).

Definition elems_in_chunk (a : Arr) (ci : Z) : Z :=
  if bool_decide (ci = chunk_count a - 1)
  then wrap64 (size a - ci * CHUNK_SIZE)
  else CHUNK_SIZE.

Definition reload_chunk (a : Arr) (it : Iterator) : Iterator :=
  if bool_decide (chunk_index it < chunk_count a) then
    let chunkData := get_chunk_ptr (chunk_index it) in
    mkIterator chunkData
      (ptr_add chunkData (elems_in_chunk a (chunk_index it)))
      (chunk_index it)
  else mkIterator None None (chunk_index it).

(** [Iterator(arr, idx)]. *)
Definition make_iterator (a : Arr) (idx : Z) : Iterator :=
  if bool_decide (idx < size a) then
    let ci := ChunkIndex idx in
    let chunkData := get_chunk_ptr ci in
    mkIterator (ptr_add chunkData (OffsetIndex idx))
      (ptr_add chunkData (elems_in_chunk a ci)) ci
  else mkIterator None None (chunk_count a).

Definition begin_ (a : Arr) : Iterator := make_iterator a 0.
Definition end_ (a : Arr) : Iterator := make_iterator a (elemCount a).

Definition deref (a : Arr) (it : Iterator) : option T :=
  match current it with
  | Some (c, o) =>
      match slot_at (chunks a) c o with
      | Some (Live v) => Some v
      | _ => None
      end
  | None => None
  end.

(** [operator++]. *)
Definition incr (a : Arr) (it : Iterator) : Iterator :=
  let cur := ptr_add (current it) 1 in
  if bool_decide (cur = chunk_end it)
  then reload_chunk a (mkIterator cur (chunk_end it) (chunk_index it + 1))
  else mkIterator cur (chunk_end it) (chunk_index it).

Definition iter_eq (x y : Iterator) : bool := bool_decide (current x = current y).

(** [for (it = begin(); it != end(); ++it) visit the element], at most [fuel]
    elements. *)
Fixpoint iterate_from (fuel : nat) (a : Arr) (it : Iterator) : option (list T) :=
  if iter_eq it (end_ a) then Some []
  else
    match fuel with
    | O => None
    | S fuel' =>
        v ← deref a it;
        rest ← iterate_from fuel' a (incr a it);
        Some (v :: rest)
    end.

Definition iterate (fuel : nat) (a : Arr) : option (list T) :=
  iterate_from fuel a (begin_ a).

(** *** Iterator: random access *)

(** [get_index].  The pointer difference [current - chunk_ptr] is
    defined only when both point into the same chunk. *)
Definition get_index (a : Arr) (it : Iterator) : option Z :=
  match current it with
  | None => Some (size a)
  | Some (c, o) =>
      if bool_decide (c = chunk_index it)
      then Some (wrap64 (chunk_index it * CHUNK_SIZE + wrap64 o))
      else None
  end.

Definition reload_chunk_from_index (a : Arr) (idx : Z) : Iterator :=
  if bool_decide (idx < size a) then
    let ci := ChunkIndex idx in
    let chunkData := get_chunk_ptr ci in
    mkIterator (ptr_add chunkData (OffsetIndex idx))
      (ptr_add chunkData (elems_in_chunk a ci)) ci
  else mkIterator None None (chunk_count a).

(** [operator--].  Stepping back from the first slot of chunk 0 fails
    the [assert]. *)
Definition decr (a : Arr) (it : Iterator) : option Iterator :=
  match current it with
  | None =>
      if bool_decide (0 < chunk_count a) then
        let it1 := reload_chunk a
                     (mkIterator (current it) (chunk_end it) (chunk_count a - 1)) in
        Some (mkIterator (ptr_offset (chunk_end it1) (-1)) (chunk_end it1)
                (chunk_index it1))
      else Some it
  | Some _ =>
      let chunk_start := get_chunk_ptr (chunk_index it) in
      if bool_decide (current it = chunk_start) then
        if bool_decide (0 < chunk_index it) then
          let it1 := reload_chunk a
                       (mkIterator (current it) (chunk_end it) (chunk_index it - 1)) in
          Some (mkIterator (ptr_offset (chunk_end it1) (-1)) (chunk_end it1)
                  (chunk_index it1))
        else None
      else Some (mkIterator (ptr_offset (current it) (-1)) (chunk_end it)
                   (chunk_index it))
  end.

(** [operator+=] and [operator+]; [offset] is a [ptrdiff_t]. *)
Definition advance (a : Arr) (it : Iterator) (offset : Z) : option Iterator :=
  if bool_decide (offset = 0) then Some it
  else
    i ← get_index a it;
    Some (reload_chunk_from_index a (wrap64 (signed64 i + offset))).

(** [operator-=] and [operator-] with an offset. *)
Definition retreat (a : Arr) (it : Iterator) (offset : Z) : option Iterator :=
  if bool_decide (offset = 0) then Some it
  else
    i ← get_index a it;
    Some (reload_chunk_from_index a (wrap64 (signed64 i - offset))).

(** [it[offset]]. *)
Definition iter_index (a : Arr) (it : Iterator) (offset : Z) : option T :=
  i ← get_index a it;
  index a (wrap64 (signed64 i + offset)).

(** [x - y] on two iterators. *)
Definition distance (a : Arr) (x y : Iterator) : option Z :=
  i ← get_index a x;
  j ← get_index a y;
  Some (signed64 i - signed64 j).

(** [x < y]; the other orderings compare the same two indices. *)
Definition iter_lt (a : Arr) (x y : Iterator) : option bool :=
  i ← get_index a x;
  j ← get_index a y;
  Some (bool_decide (i < j)).

(** *** Chunk spans *)

(** A [std::span]: its first element and its length. *)
Definition GetChunkSpan (a : Arr) (chunkIndex : Z) : ptr * Z :=
  if bool_decide (chunk_count a ≤ chunkIndex) then (None, 0)
  else
    let start := get_chunk_ptr chunkIndex in
    if bool_decide (chunkIndex = chunk_count a - 1)
    then (start, wrap64 (elemCount a - wrap64 (chunkIndex * CHUNK_SIZE)))
    else (start, CHUNK_SIZE).

(** The object a pointer points at. *)
Definition read_ptr (a : Arr) (p : ptr) : option T :=
  match p with
  | Some (c, o) =>
      match slot_at (chunks a) c o with
      | Some (Live v) => Some v
      | _ => None
      end
  | None => None
  end.

(** The elements of a span, first to last. *)
Definition read_span (a : Arr) (s : ptr * Z) : option (list T) :=
  mapM (λ k, read_ptr a (ptr_offset s.1 k)) (seqZ 0 s.2).

(** *** Operation sequences *)

Inductive Op : Type :=
| PushBack (v : T)
| EmplaceBack (v : T)
| PopBack
| Resize (n : Z)
| ResizeValue (n : Z) (v : T)
| EnsureSize (n : Z)
| Clear
| Reserve (n : Z).

(** [dflt] is the value the default constructor of a class type [T]
  leaves, or [None] when [T] is not default-constructible: the
  [requires] clauses then reject [resize(n)] and [ensure_size(n)], and a
  sequence using them is no program.  A scalar [T], whose
  default-initialised elements are indeterminate where the vector's are
  zero, is described by no [dflt]. *)
Definition apply_op (dflt : option T) (op : Op) (a : Arr) : option Arr :=
  match op with
  | PushBack v => push_back v a
  | EmplaceBack v => emplace_back v a
  | PopBack => pop_back a
  | Resize n => d ← dflt; resize d n a
  | ResizeValue n v => resize_value n v a
  | EnsureSize n => d ← dflt; ensure_size d n a
  | Clear => clear a
  | Reserve n => Some (reserve n a)
  end.

Fixpoint run_ops (dflt : option T) (ops : list Op) (a : Arr) : option Arr :=
  match ops with
  | [] => Some a
  | op :: ops' =>
      match apply_op dflt op a with
      | Some a' => run_ops dflt ops' a'
      | None => None
      end
  end.

(** The reference dynamic array of the specification: the same
  operations with [std::vector] semantics, [EnsureSize] growing like
  [resize] and never shrinking. *)
Definition vector_apply_op (dflt : option T) (op : Op) (v : list T)
  : option (list T) :=
  match op with
  | PushBack x | EmplaceBack x => Some (v ++ [x])
  | PopBack => if bool_decide (v = []) then None else Some (take (length v - 1) v)
  | Resize n =>
      d ← dflt; Some (take (Z.to_nat n) v ++ replicate (Z.to_nat n - length v) d)
  | ResizeValue n x =>
      Some (take (Z.to_nat n) v ++ replicate (Z.to_nat n - length v) x)
  | EnsureSize n =>
      d ← dflt; Some (v ++ replicate (Z.to_nat n - length v) d)
  | Clear => Some []
  | Reserve n => Some v
  end.

Fixpoint vector_run_ops (dflt : option T) (ops : list Op) (v : list T)
  : option (list T) :=
  match ops with
  | [] => Some v
  | op :: ops' =>
      match vector_apply_op dflt op v with
      | Some v' => vector_run_ops dflt ops' v'
      | None => None
      end
  end.

(** The counts of an operation are [size_t] values. *)
Definition op_well_typed (op : Op) : Prop :=
  match op with
  | Resize n | ResizeValue n _ | EnsureSize n | Reserve n => 0 ≤ n
  | _ => True
  end.

(** *** Lifetime bookkeeping and invariants *)

(** What the tests' [NoDflt::live()] reports: constructor calls minus
  destructor calls. *)
Definition live_count (a : Arr) : Z :=
  zlen (filter (λ e, is_construct e = true) (events a))
  - zlen (filter (λ e, is_destroy e = true) (events a)).

(** The slot [operator[]] addresses for a logical index. *)
Definition slot_of (a : Arr) (i : Z) : option (Slot T) :=
  slot_at (chunks a) (ChunkIndex i) (OffsetIndex i).

Definition slot_is_live (a : Arr) (i : Z) : bool :=
  match slot_of a i with Some (Live _) => true | _ => false end.

Definition full_chunks (cs : list (list (Slot T))) : Prop :=
  Forall (λ ch, zlen ch = CHUNK_SIZE) cs.

Definition cursor_ok (a : Arr) : Prop :=
  (m_writePtr a = None ∧ m_chunkEnd a = None)
  ∨ ∃ c o, m_writePtr a = Some (c, o) ∧ m_chunkEnd a = Some (c, CHUNK_SIZE)
           ∧ 0 ≤ c < chunk_count a ∧ 0 ≤ o ≤ CHUNK_SIZE
           ∧ elemCount a ≤ c * CHUNK_SIZE + o.

(** What every state built through the public operations satisfies:
  chunks are whole, the logical size fits in them, and the write cursor
  is null or inside a chunk at or past the logical end. *)
Definition well_formed (a : Arr) : Prop :=
  full_chunks (chunks a)
  ∧ 0 ≤ elemCount a ≤ chunk_count a * CHUNK_SIZE
  ∧ cursor_ok a.

(** A well-formed state in which no allocated chunk lies past the one
  holding the last element and the write cursor is at the logical end. *)
Definition tight (a : Arr) : Prop :=
  well_formed a
  ∧ chunk_count a * CHUNK_SIZE < elemCount a + CHUNK_SIZE
  ∧ (elemCount a = chunk_count a * CHUNK_SIZE → m_writePtr a = m_chunkEnd a)
  ∧ (elemCount a < chunk_count a * CHUNK_SIZE →
     m_writePtr a = Some (ChunkIndex (elemCount a), OffsetIndex (elemCount a))
     ∧ m_chunkEnd a = Some (ChunkIndex (elemCount a), CHUNK_SIZE)).

(** The array holds exactly the elements of [l], as a vector would. *)
Definition models (a : Arr) (l : list T) : Prop :=
  tight a
  ∧ elemCount a = zlen l
  ∧ ∀ i, 0 ≤ i < zlen l → index a i = zget l i.

(** [while (size() > target) pop_back();], at most [fuel] times. *)
Fixpoint pop_while_above (fuel : nat) (target : Z) (a : Arr) : option Arr :=
  if bool_decide (target < size a) then
    match fuel with
    | O => None
    | S fuel' =>
        match pop_back a with
        | Some a' => pop_while_above fuel' target a'
        | None => None
        end
    end
  else Some a.

(** An action that overwrites the slot it is pointed at and records one
  event: [destroy_at] for a type with a destructor, and [construct_at]. *)
Definition slot_writer (act : Z → Z → Arr → option Arr)
    (snew : Slot T) (ev : Z → Z → bool → Event) : Prop :=
  ∀ c o a,
    act c o a =
    match slot_at (chunks a) c o with
    | Some s =>
        Some (mkChunkedArray (slot_write (chunks a) c o snew)
                (elemCount a) (m_writePtr a) (m_chunkEnd a)
                (events a ++ [ev c o (is_live s)]))
    | None => None
    end.

(** The first [size()] slots hold the elements of [l], whatever chunks
  lie behind them. *)
Definition holds (a : Arr) (l : list T) : Prop :=
  well_formed a
  ∧ elemCount a = zlen l
  ∧ ∀ i, 0 ≤ i < zlen l → index a i = zget l i.



(** What the constructing and destroying loops leave alone. *)
Definition same_frame (a b : Arr) : Prop :=
  full_chunks (chunks b)
  ∧ zlen (chunks b) = zlen (chunks a)
  ∧ elemCount b = elemCount a
  ∧ m_writePtr b = m_writePtr a
  ∧ m_chunkEnd b = m_chunkEnd a.

End ChunkedArrayOps.
End CA.


(** *** Scenarios on arrays of integers *)

Module Scenario.
(** Chunk size 256: push 384 elements, pop until the size is 256, push
  777. *)
Definition pop_to_boundary (trivially_destructible : bool)
  : option (ChunkedArray Z) :=
  a ← CA.run_ops 8 trivially_destructible None
        (CA.PushBack <$> seqZ 0 384) CA.empty_array;
  CA.pop_while_above 8 trivially_destructible 384 256 a.

Definition pop_to_boundary_then_push (trivially_destructible : bool)
  : option (ChunkedArray Z) :=
  a ← pop_to_boundary trivially_destructible;
  CA.push_back 8 777 a.

(** Chunk size 2: three pushes, two pops, two pushes. *)
Definition refill : list (CA.Op (T:=Z)) :=
  [CA.PushBack 1; CA.PushBack 2; CA.PushBack 3; CA.PopBack; CA.PopBack;
   CA.PushBack 4; CA.PushBack 5].

(** Chunk size 2: room reserved for four elements, three pushes. *)
Definition reserve_then_push : list (CA.Op (T:=Z)) :=
  [CA.Reserve 4; CA.PushBack 1; CA.PushBack 2; CA.PushBack 3].

(** Chunk size 2: room reserved for six elements, then one element made
  by [resize(1, 7)]. *)
Definition reserve_then_resize : list (CA.Op (T:=Z)) :=
  [CA.Reserve 6; CA.ResizeValue 1 7].

(** Chunk size 2: the array of 1, 2, 3. *)
Definition three (trivially_destructible : bool) : ChunkedArray Z :=
  default CA.empty_array
    (CA.run_ops 1 trivially_destructible None
       [CA.PushBack 1; CA.PushBack 2; CA.PushBack 3] CA.empty_array).

(** Chunk size 2: three pushes and two pops leave one element and two
  allocated chunks. *)
Definition one_left (trivially_destructible : bool) : ChunkedArray Z :=
  default CA.empty_array
    (CA.run_ops 1 trivially_destructible None
       [CA.PushBack 1; CA.PushBack 2; CA.PushBack 3; CA.PopBack; CA.PopBack]
       CA.empty_array).
End Scenario.

(** ** Entities *)

Record Entity : Type := mkEntity { id : Z }.

#[global] Instance Entity_eq_dec : EqDecision Entity.
Proof. solve_decision. Defined.

Module EntityTraits.
Definition INDEX_BITS : Z := 20.
Definition VERSION_BITS : Z := wrap32 (4 * 8 - INDEX_BITS).
Definition INDEX_MASK : Z := wrap32 (wrap32 (Z.shiftl 1 INDEX_BITS) - 1).
Definition VERSION_MASK : Z := wrap32 (wrap32 (Z.shiftl 1 VERSION_BITS) - 1).
Definition INVALID_INDEX : Z := INDEX_MASK.
End EntityTraits.

(** [Entity()]: the id defaults to [numeric_limits<uint32_t>::max()]. *)
Definition NullEntity : Entity := mkEntity (2 ^ 32 - 1).

Definition IsNullEntity (entity : Entity) : bool :=
  bool_decide (entity = NullEntity).

Definition EntityToIntegral (entity : Entity) : Z := id entity.

Definition IntegralToEntity (u : Z) : Entity := mkEntity u.

Definition EntityToIndex (entity : Entity) : Z :=
  Z.land (EntityToIntegral entity) EntityTraits.INDEX_MASK.

Definition EntityToVersion (entity : Entity) : Z :=
  Z.land (Z.shiftr (EntityToIntegral entity) EntityTraits.INDEX_BITS)
         EntityTraits.VERSION_MASK.

Definition EntityToIndexAndVersion (entity : Entity) : Z * Z :=
  let u := EntityToIntegral entity in
  (Z.land u EntityTraits.INDEX_MASK,
   Z.land (Z.shiftr u EntityTraits.INDEX_BITS) EntityTraits.VERSION_MASK).

Definition ComposeEntity (index version : Z) : Entity :=
  mkEntity (Z.lor (wrap32 (Z.shiftl version EntityTraits.INDEX_BITS))
                  (Z.land index EntityTraits.INDEX_MASK)).

Definition NextEntityVersion (entity : Entity) : Z :=
  if IsNullEntity entity then EntityToVersion entity
  else Z.land (wrap32 (EntityToVersion entity + 1)) EntityTraits.VERSION_MASK.

(** ** Storage containers *)

(** The operations [ComponentStorage] and [Registry] call on their
  [DataStorage], [EntityStorage], [SparseStorage] and [EntitiesStorage]:
  [std::vector] when [IsContiguous], [ChunkedArray] otherwise.
  [st_ensure_size] is the branch of [EnsureSparseSlot] the container type
  selects.  The last two fields are views used in the proofs only:
  [st_models c l] says that [c] holds exactly the elements of [l] the way
  a vector would, and [st_usable c] that [c] is a state its public
  operations can have built. *)
Class Storage (A C : Type) : Type := {
  st_empty : C;
  st_size : C → Z;
  st_get : C → Z → option A;
  st_set : Z → A → C → option C;
  st_emplace_back : A → C → option C;
  st_pop_back : C → option C;
  st_clear : C → option C;
  st_ensure_size : Z → C → option C;
  st_models : C → list A → Prop;
  st_usable : C → Prop
}.

Record StorageLaws (A C : Type) `{Storage A C} : Prop := {
  models_usable : ∀ c l, st_models c l → st_usable c;
  models_empty : st_models st_empty [];
  models_size : ∀ c l, st_models c l → st_size c = zlen l;
  models_get : ∀ c l i, st_models c l → 0 ≤ i < zlen l → st_get c i = zget l i;
  models_set_ok : ∀ c l i x,
    st_models c l → 0 ≤ i < zlen l → is_Some (st_set i x c);
  models_set_some : ∀ c l i x c',
    st_models c l → st_set i x c = Some c' → st_models c' (zset l i x);
  models_emplace_back : ∀ c l x,
    st_models c l → ∃ c', st_emplace_back x c = Some c' ∧ st_models c' (l ++ [x]);
  models_clear : ∀ c l,
    st_models c l → ∃ c', st_clear c = Some c' ∧ st_models c' [];
  models_ensure_size : ∀ c l n,
    st_models c l →
    ∃ c' l', st_ensure_size n c = Some c' ∧ st_models c' l'
             ∧ zlen l' = Z.max (zlen l) n
             ∧ ∀ i, 0 ≤ i < zlen l → zget l' i = zget l i;
  usable_emplace_back : ∀ c x,
    st_usable c →
    ∃ c', st_emplace_back x c = Some c' ∧ st_usable c' ∧ st_size c' = st_size c + 1;
  usable_pop_back : ∀ c c',
    st_usable c → st_pop_back c = Some c' →
    st_usable c' ∧ st_size c' = st_size c - 1;
  usable_set : ∀ c c' i x,
    st_usable c → st_set i x c = Some c' → st_usable c' ∧ st_size c' = st_size c;
  usable_clear : ∀ c,
    st_usable c → ∃ c', st_clear c = Some c' ∧ st_usable c' ∧ st_size c' = 0
}.
Arguments StorageLaws A C {_}.

(** *** Contiguous mode: [std::vector] *)

Module Vec.
Section Vec.
Context {A : Type}.
(** The value-initialised element [resize] appends. *)
Variable value_init : A.

Definition size (v : list A) : Z := zlen v.
Definition get (v : list A) (i : Z) : option A := zget v i.
Definition set (i : Z) (x : A) (v : list A) : option (list A) :=
  if bool_decide (0 ≤ i < zlen v) then Some (zset v i x) else None.
Definition emplace_back (x : A) (v : list A) : option (list A) := Some (v ++ [x]).
Definition pop_back (v : list A) : option (list A) :=
  if bool_decide (v = []) then None else Some (take (length v - 1) v).
Definition clear (v : list A) : option (list A) := Some [].
Definition resize (n : Z) (v : list A) : list A :=
  take (Z.to_nat n) v ++ replicate (Z.to_nat n - length v) value_init.
(** [if (size() <= entityIndex) resize(entityIndex + 1)], with
  [n = entityIndex + 1]. *)
Definition ensure_size (n : Z) (v : list A) : option (list A) :=
  if bool_decide (zlen v ≤ n - 1) then Some (resize n v) else Some v.

Definition storage : Storage A (list A) := {|
  st_empty := [];
  st_size := size;
  st_get := get;
  st_set := set;
  st_emplace_back := emplace_back;
  st_pop_back := pop_back;
  st_clear := clear;
  st_ensure_size := ensure_size;
  st_models := λ v l, v = l;
  st_usable := λ _, True
|}.
End Vec.
End Vec.

(** *** Chunked mode: [ChunkedArray] *)

(** [dflt] is what [ensure_size] leaves in a new element.  The registry
  grows only its sparse map this way, by the one element [Init] assigns
  next, so no registry operation reads a [dflt]. *)
Definition chunked_storage {A : Type} (LOG2 : nat) (trivially_destructible : bool)
  (dflt : A) : Storage A (ChunkedArray A) := {|
  st_empty := CA.empty_array;
  st_size := CA.size;
  st_get := CA.index LOG2;
  st_set := CA.assign LOG2;
  st_emplace_back := CA.emplace_back LOG2;
  st_pop_back := CA.pop_back LOG2 trivially_destructible;
  st_clear := CA.clear LOG2 trivially_destructible;
  st_ensure_size := CA.ensure_size LOG2 dflt;
  st_models := CA.models LOG2;
  st_usable := CA.well_formed LOG2
|}.

(** ** ComponentStorage and Registry *)

Inductive Error : Type :=
| InvalidEntityNull
| InvalidEntityOutOfBounds
| InvalidEntityStale
| TooManyEntities.

Definition is_invalid_entity (e : Error) : bool :=
  match e with TooManyEntities => false | _ => true end.

(** The result of a registry operation run from a state: it returned [a]
  and left state [s]; it threw [std::runtime_error] with the registry in
  state [s]; or its behaviour is undefined. *)
Inductive outcome (S A : Type) : Type :=
| Ok (a : A) (s : S)
| Throw (e : Error) (s : S)
| Undefined.
Arguments Ok {S A} a s.
Arguments Throw {S A} e s.
Arguments Undefined {S A}.

Definition state_after {S A} (o : outcome S A) : option S :=
  match o with
  | Ok _ s => Some s
  | Throw _ s => Some s
  | Undefined => None
  end.

Notation "'let?' x := o 'in' k" :=
  (match o with Some x => k | None => Undefined end)
  (at level 10, x name, o at level 100, k at level 200, only parsing).

Module Reg.
Section Registry.
(** [V] stands for the component types [Cs...]: one value type wide
  enough for all of them, [default_component] being the value
  [emplace_back()] constructs.  [CE], [CS] and [CV] are the containers of
  entities, of sparse slots and of component values. *)
Context {V CE CS CV : Type}.
Context {SE : Storage Entity CE} {SS : Storage Z CS} {SV : Storage V CV}.
Variable default_component : V.

Record ComponentStorage : Type := mkComponentStorage {
  data : CV;
  slotToEntity : CE;
  indexToSlot : CS
}.

Definition empty_storage : ComponentStorage :=
  mkComponentStorage st_empty st_empty st_empty.

Definition EnsureSparseSlot (entityIndex : Z) (sparse : CS) : option CS :=
  st_ensure_size (entityIndex + 1) sparse.

Definition Init (entityIndex : Z) (entity : Entity) (s : ComponentStorage)
  : option ComponentStorage :=
  let slot := st_size (data s) in
  d ← st_emplace_back default_component (data s);
  e ← st_emplace_back entity (slotToEntity s);
  i ← EnsureSparseSlot entityIndex (indexToSlot s);
  i' ← st_set entityIndex (wrap32 slot) i;
  Some (mkComponentStorage d e i').

Definition Kill (entityIndex : Z) (s : ComponentStorage) : option ComponentStorage :=
  slot ← st_get (indexToSlot s) entityIndex;
  let last := wrap64 (st_size (data s) - 1) in
  s1 ← (if bool_decide (slot = last) then Some s
        else
          moved ← st_get (data s) last;
          d ← st_set slot moved (data s);
          movedEntity ← st_get (slotToEntity s) last;
          e ← st_set slot movedEntity (slotToEntity s);
          i ← st_set (EntityToIndex movedEntity) (wrap32 slot) (indexToSlot s);
          Some (mkComponentStorage d e i));
  d ← st_pop_back (data s1);
  e ← st_pop_back (slotToEntity s1);
  Some (mkComponentStorage d e (indexToSlot s1)).

(** [ComponentStorage::Set]. *)
Definition StorageSet (entityIndex : Z) (v : V) (s : ComponentStorage)
  : option ComponentStorage :=
  slot ← st_get (indexToSlot s) entityIndex;
  d ← st_set slot v (data s);
  Some (mkComponentStorage d (slotToEntity s) (indexToSlot s)).

Definition Get (entityIndex : Z) (s : ComponentStorage) : option V :=
  slot ← st_get (indexToSlot s) entityIndex;
  st_get (data s) slot.

Definition GetByDenseSlotUnchecked (slot : Z) (s : ComponentStorage) : option V :=
  st_get (data s) slot.

Definition DenseSize (s : ComponentStorage) : Z := st_size (data s).

Definition StorageClear (s : ComponentStorage) : option ComponentStorage :=
  d ← st_clear (data s);
  e ← st_clear (slotToEntity s);
  i ← st_clear (indexToSlot s);
  Some (mkComponentStorage d e i).

Record Registry : Type := mkRegistry {
  entities : CE;
  fNext : Z;
  fSize : Z;
  storages : list ComponentStorage
}.

(** [Registry()] with [NUM_COMPONENTS = n] component types. *)
Definition new_registry (n : nat) : Registry :=
  mkRegistry st_empty EntityTraits.INVALID_INDEX 0 (replicate n empty_storage).

Abbreviation result := (outcome Registry).

(** [for_each_tuple(fn, storages)]. *)
Definition for_each_tuple (fn : ComponentStorage → option ComponentStorage)
  (ss : list ComponentStorage) : option (list ComponentStorage) :=
  mapM fn ss.

Definition CreateEntity (r : Registry) : result Entity :=
  if bool_decide (0 < fSize r) then
    let i := fNext r in
    let? head := st_get (entities r) i in
    let fNext' := EntityToIndex head in
    let fSize' := wrap32 (fSize r - 1) in
    let v := EntityToVersion head in
    let? ents := st_set i (ComposeEntity i v) (entities r) in
    let? entity := st_get ents i in
    let? ss := for_each_tuple (Init i entity) (storages r) in
    Ok entity (mkRegistry ents fNext' fSize' ss)
  else if bool_decide (EntityTraits.INVALID_INDEX ≤ st_size (entities r)) then
    Throw TooManyEntities r
  else
    let entity := ComposeEntity (wrap32 (st_size (entities r))) 0 in
    let? ents := st_emplace_back entity (entities r) in
    let? ss := for_each_tuple (Init (EntityToIndex entity) entity) (storages r) in
    Ok entity (mkRegistry ents (fNext r) (fSize r) ss).

Definition CheckEntity (r : Registry) (entity : Entity) : result unit :=
  if IsNullEntity entity then Throw InvalidEntityNull r
  else
    let i := EntityToIndex entity in
    if bool_decide (st_size (entities r) ≤ i) then Throw InvalidEntityOutOfBounds r
    else
      let? cur := st_get (entities r) i in
      if bool_decide (cur ≠ entity) then Throw InvalidEntityStale r
      else Ok tt r.

Definition DestroyEntity (entity : Entity) (r : Registry) : result unit :=
  match CheckEntity r entity with
  | Throw e s => Throw e s
  | Undefined => Undefined
  | Ok _ _ =>
      let index := EntityToIndex entity in
      let? ss := for_each_tuple (Kill index) (storages r) in
      let? cur := st_get (entities r) index in
      let nextVer := NextEntityVersion cur in
      let? ents := st_set index (ComposeEntity (fNext r) nextVer) (entities r) in
      Ok tt (mkRegistry ents index (wrap32 (fSize r + 1)) ss)
  end.

(** [None] is undefined behaviour: the table slot cannot be read. *)
Definition IsValidEntity (r : Registry) (entity : Entity) : option bool :=
  if IsNullEntity entity then Some false
  else
    let i := EntityToIndex entity in
    if bool_decide (st_size (entities r) ≤ i) then Some false
    else
      cur ← st_get (entities r) i;
      Some (bool_decide (cur = entity)).

(** [Set<C>] and [SetByIndex<I>], [k] being the position of the storage
  in the tuple; a [k] outside the tuple does not compile. *)
Definition Set_ (k : nat) (entity : Entity) (v : V) (r : Registry) : result unit :=
  let? s := storages r !! k in
  let? s' := StorageSet (EntityToIndex entity) v s in
  Ok tt (mkRegistry (entities r) (fNext r) (fSize r) (<[k := s']> (storages r))).

Definition SetSafe (k : nat) (entity : Entity) (v : V) (r : Registry) : result unit :=
  match CheckEntity r entity with
  | Throw e s => Throw e s
  | Undefined => Undefined
  | Ok _ _ => Set_ k entity v r
  end.

(** [Get<C>] and [GetByIndex<I>] at the registry: unchecked. *)
Definition GetByIndex (k : nat) (entity : Entity) (r : Registry) : option V :=
  s ← storages r !! k;
  Get (EntityToIndex entity) s.

(** [Get<Cts...>] and [GetByIndices<Is...>]: the components of one
  entity in the storages [ks], in that order. *)
Definition GetByIndices (ks : list nat) (entity : Entity) (r : Registry)
  : option (list V) :=
  mapM (λ k, GetByIndex k entity r) ks.

(** [Each<Cts...>] and [EachByIndex<Is...>] for the storages
  [k0 :: ks] (the [static_assert] wants at least one): the argument rows
  the callback is invoked with, in call order. *)
Definition EachByIndex (k0 : nat) (ks : list nat) (r : Registry)
  : option (list (list V)) :=
  s0 ← storages r !! k0;
  mapM (λ i, mapM (λ k, s ← storages r !! k; GetByDenseSlotUnchecked i s)
               (k0 :: ks))
       (seqZ 0 (DenseSize s0)).

Definition Clear (r : Registry) : result unit :=
  let? ss := for_each_tuple StorageClear (storages r) in
  let? ents := st_clear (entities r) in
  Ok tt (mkRegistry ents EntityTraits.INVALID_INDEX 0 ss).

Definition Size (r : Registry) : Z := wrap64 (st_size (entities r) - fSize r).
Definition RawSize (r : Registry) : Z := wrap64 (st_size (entities r) - fSize r).

(** *** Operation sequences *)

Inductive Op : Type :=
| OpCreateEntity
| OpDestroyEntity (entity : Entity)
| OpSet (k : nat) (entity : Entity) (v : V)
| OpSetSafe (k : nat) (entity : Entity) (v : V)
| OpClear.

(** The registry after an operation that returned or threw. *)
Definition step (op : Op) (r : Registry) : option Registry :=
  match op with
  | OpCreateEntity => state_after (CreateEntity r)
  | OpDestroyEntity e => state_after (DestroyEntity e r)
  | OpSet k e v => state_after (Set_ k e v r)
  | OpSetSafe k e v => state_after (SetSafe k e v r)
  | OpClear => state_after (Clear r)
  end.

Fixpoint run (ops : list Op) (r : Registry) : option Registry :=
  match ops with
  | [] => Some r
  | op :: ops' =>
      match step op r with
      | Some r' => run ops' r'
      | None => None
      end
  end.

(** The states between registry operations. *)
Inductive reachable (n : nat) : Registry → Prop :=
| reachable_new : reachable n (new_registry n)
| reachable_step r op r' :
    reachable n r → step op r = Some r' → reachable n r'.

(** *** Invariant *)

(** The free list threaded through the index bits of the free table
  slots: [fl] lists the free indices from the head on. *)
Fixpoint free_chain (es : list Entity) (head : Z) (fl : list Z) : Prop :=
  match fl with
  | [] => head = EntityTraits.INVALID_INDEX
  | i :: fl' =>
      head = i ∧ ∃ h, zget es i = Some h ∧ free_chain es (EntityToIndex h) fl'
  end.

(** What holds of a registry between operations: the table is a vector
  of at most [INVALID_INDEX] handles, the free list is a chain of [fSize]
  distinct slots ending in [INVALID_INDEX], and every component storage
  has the same dense entity array [dense] and the same sparse map
  [sparse], and as many values as there are live entities. *)
Definition storage_inv (live : Z) (dense : CE) (sparse : CS)
    (s : ComponentStorage) : Prop :=
  slotToEntity s = dense ∧ indexToSlot s = sparse
  ∧ st_usable (data s) ∧ st_size (data s) = live
  ∧ st_usable dense ∧ st_size dense = live
  ∧ ∃ spl, st_models sparse spl.

Definition describes (es : list Entity) (fl : list Z) (dense : CE) (sparse : CS)
    (r : Registry) : Prop :=
  st_models (entities r) es
  ∧ zlen es ≤ EntityTraits.INVALID_INDEX
  ∧ free_chain es (fNext r) fl
  ∧ NoDup fl
  ∧ fSize r = zlen fl
  ∧ Forall (storage_inv (zlen es - zlen fl) dense sparse) (storages r).

Definition registry_inv (r : Registry) : Prop :=
  ∃ es fl dense sparse, describes es fl dense sparse r.

End Registry.
End Reg.

(** *** Contiguous mode: [Registry<TypeList, 0>] *)

Module Contig.
Abbreviation ComponentStorage V :=
  (Reg.ComponentStorage (CE:=list Entity) (CS:=list Z) (CV:=list V)).
Abbreviation RegistryOf V :=
  (Reg.Registry (CE:=list Entity) (CS:=list Z) (CV:=list V)).

Section Contig.
Context {V : Type}.
Variable default_component : V.

Definition SE : Storage Entity (list Entity) := Vec.storage NullEntity.
Definition SS : Storage Z (list Z) := Vec.storage 0.
Definition SV : Storage V (list V) := Vec.storage default_component.

Local Abbreviation Registry := (RegistryOf V).

Definition new_registry (n : nat) : Registry :=
  Reg.new_registry (SE:=SE) (SS:=SS) (SV:=SV) n.
Definition CreateEntity (r : Registry) : outcome Registry Entity :=
  Reg.CreateEntity (SE:=SE) (SS:=SS) (SV:=SV) default_component r.
Definition DestroyEntity (e : Entity) (r : Registry) : outcome Registry unit :=
  Reg.DestroyEntity (SE:=SE) (SS:=SS) (SV:=SV) e r.
Definition IsValidEntity (r : Registry) (e : Entity) : option bool :=
  Reg.IsValidEntity (SE:=SE) r e.
Definition Set_ (k : nat) (e : Entity) (v : V) (r : Registry)
  : outcome Registry unit :=
  Reg.Set_ (SS:=SS) (SV:=SV) k e v r.
Definition SetSafe (k : nat) (e : Entity) (v : V) (r : Registry)
  : outcome Registry unit :=
  Reg.SetSafe (SE:=SE) (SS:=SS) (SV:=SV) k e v r.
Definition GetByIndex (k : nat) (e : Entity) (r : Registry) : option V :=
  Reg.GetByIndex (SS:=SS) (SV:=SV) k e r.
Definition GetByIndices (ks : list nat) (e : Entity) (r : Registry)
  : option (list V) :=
  Reg.GetByIndices (SS:=SS) (SV:=SV) ks e r.
Definition EachByIndex (k0 : nat) (ks : list nat) (r : Registry)
  : option (list (list V)) :=
  Reg.EachByIndex (SV:=SV) k0 ks r.
Definition Clear (r : Registry) : outcome Registry unit :=
  Reg.Clear (SE:=SE) (SS:=SS) (SV:=SV) r.
Definition Size (r : Registry) : Z := Reg.Size (SE:=SE) r.
Definition reachable (n : nat) (r : Registry) : Prop :=
  Reg.reachable (SE:=SE) (SS:=SS) (SV:=SV) default_component n r.

(** The handles a table holds at their own index: those [IsValidEntity]
  accepts. *)
Definition live (es : list Entity) (e : Entity) : Prop :=
  e ≠ NullEntity ∧ zget es (EntityToIndex e) = Some e.

(** The sparse set of one storage for the set [L] of live handles: the
  dense entity array lists exactly the handles of [L], each at the slot
  the sparse map gives for its index, and there is one component value
  per slot. *)
Definition storage_ok (L : Entity → Prop) (s : ComponentStorage V) : Prop :=
  zlen (Reg.data s) = zlen (Reg.slotToEntity s)
  ∧ (∀ slot e, zget (Reg.slotToEntity s) slot = Some e →
               L e ∧ zget (Reg.indexToSlot s) (EntityToIndex e) = Some slot)
  ∧ (∀ e, L e →
          ∃ slot, zget (Reg.indexToSlot s) (EntityToIndex e) = Some slot
                  ∧ zget (Reg.slotToEntity s) slot = Some e).

(** No two handles of [L] share an index. *)
Definition index_injective (L : Entity → Prop) : Prop :=
  ∀ e1 e2, L e1 → L e2 → EntityToIndex e1 = EntityToIndex e2 → e1 = e2.

Definition sparse_sets_ok (r : Registry) : Prop :=
  Forall (storage_ok (live (Reg.entities r))) (Reg.storages r).

(** The calls that check their handle (or take none): every operation
  but the unchecked [Set], with a storage position inside the tuple. *)
Definition checked_op (n : nat) (op : Reg.Op (V:=V)) : Prop :=
  match op with
  | Reg.OpSet _ _ _ => False
  | Reg.OpSetSafe k _ _ => (k < n)%nat
  | _ => True
  end.
End Contig.
End Contig.

(** *** Component spans *)

Module DataSpan.
Definition DEFAULT_DENSE_CHUNK_SIZE : Z := 1024.

(** [GetDataSpan] over a [std::vector]: spans of
  [DEFAULT_DENSE_CHUNK_SIZE] elements, each given by the index of its
  first element and its length. *)
Definition contiguous {V : Type} (data : list V) : list (Z * Z) :=
  let totalSize := zlen data in
  let numChunks :=
    wrap64 (totalSize + DEFAULT_DENSE_CHUNK_SIZE - 1) / DEFAULT_DENSE_CHUNK_SIZE in
  (λ i, let start := wrap64 (i * DEFAULT_DENSE_CHUNK_SIZE) in
        let end_ := Z.min (wrap64 (start + DEFAULT_DENSE_CHUNK_SIZE)) totalSize in
        (start, wrap64 (end_ - start)))
    <$> seqZ 0 numChunks.

(** The elements of a span into a vector. *)
Definition elements {V : Type} (data : list V) (span : Z * Z) : list V :=
  take (Z.to_nat span.2) (drop (Z.to_nat span.1) data).

(** [GetDataSpan] over a [ChunkedArray]: one span per allocated chunk. *)
Definition chunked {V : Type} (LOG2 : nat) (data : ChunkedArray V)
  : list (ptr * Z) :=
  let numChunks := CA.chunk_count data in
  let totalSize := CA.size data in
  (λ i, let chunkPtr := CA.get_chunk_ptr i in
        let elemsInChunk :=
          if bool_decide (i = wrap64 (numChunks - 1))
          then wrap64 (totalSize - wrap64 (i * csize LOG2))
          else csize LOG2 in
        (chunkPtr, elemsInChunk))
    <$> seqZ 0 numChunks.
End DataSpan.

(** *** Registries with two component types of integer values *)

Module Demo.
(** Contiguous mode. *)
Definition VE : Storage Entity (list Entity) := Vec.storage NullEntity.
Definition VS : Storage Z (list Z) := Vec.storage 0.
Definition VV : Storage Z (list Z) := Vec.storage 0.

(** Chunked mode with chunks of two elements. *)
Definition KE : Storage Entity (ChunkedArray Entity) :=
  chunked_storage 1 true NullEntity.
Definition KS : Storage Z (ChunkedArray Z) := chunked_storage 1 true 0.
Definition KV : Storage Z (ChunkedArray Z) := chunked_storage 1 false 0.

Definition contiguous_after (ops : list (Reg.Op (V:=Z)))
  : Reg.Registry (CE:=list Entity) (CS:=list Z) (CV:=list Z) :=
  default (Reg.new_registry (SE:=VE) (SS:=VS) (SV:=VV) 2)
    (Reg.run (SE:=VE) (SS:=VS) (SV:=VV) 0 ops
       (Reg.new_registry (SE:=VE) (SS:=VS) (SV:=VV) 2)).

Definition chunked_after (ops : list (Reg.Op (V:=Z)))
  : Reg.Registry (CE:=ChunkedArray Entity) (CS:=ChunkedArray Z) (CV:=ChunkedArray Z) :=
  default (Reg.new_registry (SE:=KE) (SS:=KS) (SV:=KV) 2)
    (Reg.run (SE:=KE) (SS:=KS) (SV:=KV) 0 ops
       (Reg.new_registry (SE:=KE) (SS:=KS) (SV:=KV) 2)).

(** The handles of the first three entities, and of the second after one
  destroy. *)
Definition e0 : Entity := ComposeEntity 0 0.
Definition e1 : Entity := ComposeEntity 1 0.
Definition e2 : Entity := ComposeEntity 2 0.
Definition e1' : Entity := ComposeEntity 1 1.

Definition three_created : list (Reg.Op (V:=Z)) :=
  [Reg.OpCreateEntity; Reg.OpCreateEntity; Reg.OpCreateEntity].

Definition one_destroyed : list (Reg.Op (V:=Z)) :=
  three_created ++ [Reg.OpSet 0 e0 42; Reg.OpDestroyEntity e1].

(** Three creates, two destroys and two creates, after which the newest
  dense slot of a chunked storage sits in a chunk of its own. *)
Definition refilled : list (Reg.Op (V:=Z)) :=
  three_created
  ++ [Reg.OpDestroyEntity e1; Reg.OpDestroyEntity e2;
      Reg.OpCreateEntity; Reg.OpCreateEntity].

Definition storage_at {CE CS CV : Type}
    {SE : Storage Entity CE} {SS : Storage Z CS} {SV : Storage Z CV}
    (k : nat) (r : Reg.Registry (CE:=CE) (CS:=CS) (CV:=CV))
  : Reg.ComponentStorage (CE:=CE) (CS:=CS) (CV:=CV) :=
  default Reg.empty_storage (Reg.storages r !! k).
End Demo.
(** * Proofs *)

(** ** Lists indexed by [size_t] *)

Section ZListFacts.
Context {A : Type}.
Implicit Types (l : list A) (i j : Z) (x : A).

Lemma zlen_nonneg l : 0 ≤ zlen l.
Proof. unfold zlen. lia. Qed.

Lemma zlen_app l1 l2 : zlen (l1 ++ l2) = zlen l1 + zlen l2.
Proof. unfold zlen. rewrite length_app. lia. Qed.

Lemma zget_Some_range l i x : zget l i = Some x → 0 ≤ i < zlen l.
Proof.
  unfold zget, zlen. case_decide; [|done].
  intros Hl%lookup_lt_Some. lia.
Qed.

Lemma zget_in_range l i : 0 ≤ i < zlen l → is_Some (zget l i).
Proof.
  unfold zget, zlen. intros [??]. case_decide; [|lia].
  apply lookup_lt_is_Some. lia.
Qed.

Lemma zget_out_of_range l i : ¬ (0 ≤ i < zlen l) → zget l i = None.
Proof.
  intros Hn. destruct (zget l i) eqn:E; [|done].
  apply zget_Some_range in E. contradiction.
Qed.

Lemma zget_zset_eq l i x : 0 ≤ i < zlen l → zget (zset l i x) i = Some x.
Proof.
  unfold zget, zset, zlen. intros [??]. rewrite !decide_True by done.
  apply list_lookup_insert_eq. lia.
Qed.

Lemma zget_zset_ne l i j x : i ≠ j → zget (zset l i x) j = zget l j.
Proof.
  unfold zget, zset. intros Hne.
  destruct (decide (0 ≤ j)); [|done].
  destruct (decide (0 ≤ i)); [|done].
  apply list_lookup_insert_ne. lia.
Qed.

Lemma zlen_zset l i x : zlen (zset l i x) = zlen l.
Proof. unfold zlen, zset. case_decide; [|done]. by rewrite length_insert. Qed.

Lemma zget_app_l l1 l2 i : i < zlen l1 → zget (l1 ++ l2) i = zget l1 i.
Proof.
  unfold zget, zlen. intros Hi. case_decide; [|done].
  apply lookup_app_l. lia.
Qed.

Lemma zget_app_r l1 l2 i : zlen l1 ≤ i → zget (l1 ++ l2) i = zget l2 (i - zlen l1).
Proof.
  unfold zget, zlen. intros Hi.
  rewrite !decide_True by lia.
  rewrite lookup_app_r by lia. f_equal. lia.
Qed.

Lemma zget_replicate (n : nat) x i :
  0 ≤ i < Z.of_nat n → zget (replicate n x) i = Some x.
Proof.
  unfold zget. intros [??]. rewrite decide_True by done.
  apply lookup_replicate_2. lia.
Qed.

Lemma zlen_replicate (n : nat) x : zlen (replicate n x) = Z.of_nat n.
Proof. unfold zlen. by rewrite length_replicate. Qed.
End ZListFacts.

(** ** Chunk arithmetic *)

Section ChunkArith.
Variable LOG2 : nat.

Lemma CHUNK_SIZE_pos : 0 < csize LOG2.
Proof. unfold ChunkHelper.CHUNK_SIZE. apply Z.pow_pos_nonneg; lia. Qed.

Lemma ChunkIndex_div g : cidx LOG2 g = g / csize LOG2.
Proof.
  unfold ChunkHelper.ChunkIndex, ChunkHelper.CHUNK_SIZE.
  apply Z.shiftr_div_pow2. lia.
Qed.

Lemma OffsetIndex_mod g : coff LOG2 g = g mod csize LOG2.
Proof.
  unfold ChunkHelper.OffsetIndex, ChunkHelper.MASK, ChunkHelper.CHUNK_SIZE.
  rewrite <- Z.land_ones by lia. f_equal.
  rewrite Z.ones_equiv. lia.
Qed.

Lemma index_split g : g = cidx LOG2 g * csize LOG2 + coff LOG2 g.
Proof.
  rewrite ChunkIndex_div, OffsetIndex_mod.
  pose proof CHUNK_SIZE_pos. rewrite (Z.div_mod g (csize LOG2)) at 1 by lia. lia.
Qed.

Lemma OffsetIndex_range g : 0 ≤ coff LOG2 g < csize LOG2.
Proof. rewrite OffsetIndex_mod. apply Z.mod_pos_bound, CHUNK_SIZE_pos. Qed.

Lemma ChunkIndex_nonneg g : 0 ≤ g → 0 ≤ cidx LOG2 g.
Proof.
  intros. rewrite ChunkIndex_div. apply Z.div_pos; [done|apply CHUNK_SIZE_pos].
Qed.

Lemma ChunkIndex_compose c o :
  0 ≤ o < csize LOG2 → cidx LOG2 (c * csize LOG2 + o) = c.
Proof.
  intros. rewrite ChunkIndex_div.
  rewrite Z.add_comm, Z.div_add by lia. rewrite Z.div_small by done. lia.
Qed.

Lemma OffsetIndex_compose c o :
  0 ≤ o < csize LOG2 → coff LOG2 (c * csize LOG2 + o) = o.
Proof.
  intros. rewrite OffsetIndex_mod.
  rewrite Z.add_comm, Z.mod_add by lia. by apply Z.mod_small.
Qed.

Lemma ChunkIndex_mono g h : g ≤ h → cidx LOG2 g ≤ cidx LOG2 h.
Proof.
  intros. rewrite !ChunkIndex_div.
  apply Z.div_le_mono; [apply CHUNK_SIZE_pos|done].
Qed.

Lemma ChunkIndex_lt_iff g n : cidx LOG2 g < n ↔ g < n * csize LOG2.
Proof.
  pose proof CHUNK_SIZE_pos. pose proof (index_split g).
  pose proof (OffsetIndex_range g). split; intros; nia.
Qed.

Lemma ChunkIndex_le_iff g n : n ≤ cidx LOG2 g ↔ n * csize LOG2 ≤ g.
Proof. pose proof (ChunkIndex_lt_iff g n). lia. Qed.

Lemma position_inj g h : cidx LOG2 g = cidx LOG2 h → coff LOG2 g = coff LOG2 h → g = h.
Proof.
  intros Hc Ho. rewrite (index_split g), (index_split h). by rewrite Hc, Ho.
Qed.
End ChunkArith.

(** ** Slots of a chunked array *)

Section SlotFacts.
Context {T : Type}.
Variable LOG2 : nat.
Implicit Types (cs : list (list (Slot T))) (a : ChunkedArray T).

Lemma slot_at_Some cs c o s :
  CA.slot_at cs c o = Some s →
  ∃ ch, zget cs c = Some ch ∧ zget ch o = Some s.
Proof. unfold CA.slot_at. destruct (zget cs c); [eauto|done]. Qed.

Lemma slot_at_in_range cs c o :
  CA.full_chunks LOG2 cs → 0 ≤ c < zlen cs → 0 ≤ o < csize LOG2 →
  is_Some (CA.slot_at cs c o).
Proof.
  intros Hf Hc Ho. unfold CA.slot_at.
  destruct (zget_in_range cs c Hc) as [ch Hch]. rewrite Hch.
  apply zget_in_range.
  assert (zlen ch = csize LOG2) as ->; [|done].
  unfold zget in Hch. case_decide; [|done].
  unfold CA.full_chunks in Hf. rewrite Forall_lookup in Hf. eauto.
Qed.

Lemma slot_at_range cs c o s :
  CA.full_chunks LOG2 cs → CA.slot_at cs c o = Some s →
  0 ≤ c < zlen cs ∧ 0 ≤ o < csize LOG2.
Proof.
  intros Hf (ch & Hch & Hs)%slot_at_Some.
  split; [by eapply zget_Some_range|].
  apply zget_Some_range in Hs.
  assert (zlen ch = csize LOG2) as <-; [|done].
  unfold zget in Hch. case_decide; [|done].
  unfold CA.full_chunks in Hf. rewrite Forall_lookup in Hf. eauto.
Qed.

Lemma slot_write_same cs c o s s' :
  CA.slot_at cs c o = Some s → CA.slot_at (CA.slot_write cs c o s') c o = Some s'.
Proof.
  intros (ch & Hch & Hs)%slot_at_Some.
  unfold CA.slot_write, CA.slot_at. rewrite Hch.
  rewrite zget_zset_eq by (by eapply zget_Some_range).
  apply zget_zset_eq. by eapply zget_Some_range.
Qed.

Lemma slot_write_other cs c o s' c' o' :
  (c, o) ≠ (c', o') →
  CA.slot_at (CA.slot_write cs c o s') c' o' = CA.slot_at cs c' o'.
Proof.
  intros Hne. unfold CA.slot_write, CA.slot_at.
  destruct (zget cs c) as [ch|] eqn:Hch; [|done].
  destruct (decide (c = c')) as [<-|Hc].
  - rewrite zget_zset_eq by (by eapply zget_Some_range). rewrite Hch.
    apply zget_zset_ne. congruence.
  - by rewrite zget_zset_ne.
Qed.

Lemma slot_write_zlen cs c o s : zlen (CA.slot_write cs c o s) = zlen cs.
Proof. unfold CA.slot_write. destruct (zget cs c); [apply zlen_zset|done]. Qed.

Lemma slot_write_full cs c o s :
  CA.full_chunks LOG2 cs → CA.full_chunks LOG2 (CA.slot_write cs c o s).
Proof.
  unfold CA.full_chunks, CA.slot_write. intros Hf.
  destruct (zget cs c) as [ch|] eqn:Hch; [|done].
  unfold zset at 1. case_decide; [|done].
  apply Forall_insert; [done|]. rewrite zlen_zset.
  unfold zget in Hch. case_decide; [|done].
  rewrite Forall_lookup in Hf. eauto.
Qed.

Lemma full_chunks_app cs1 cs2 :
  CA.full_chunks LOG2 cs1 → CA.full_chunks LOG2 cs2 →
  CA.full_chunks LOG2 (cs1 ++ cs2).
Proof. apply Forall_app_2. Qed.

Lemma make_chunk_zlen : zlen (CA.make_chunk LOG2 (T:=T)) = csize LOG2.
Proof.
  unfold CA.make_chunk. rewrite zlen_replicate.
  pose proof (CHUNK_SIZE_pos LOG2). lia.
Qed.

Lemma full_chunks_replicate n :
  CA.full_chunks LOG2 (replicate n (CA.make_chunk LOG2 (T:=T))).
Proof. apply Forall_replicate, make_chunk_zlen. Qed.

Lemma slot_at_app_l cs1 cs2 c o :
  c < zlen cs1 → CA.slot_at (cs1 ++ cs2) c o = CA.slot_at cs1 c o.
Proof. intros. unfold CA.slot_at. by rewrite zget_app_l. Qed.

Lemma slot_at_fresh_chunk cs c o :
  c = zlen cs → 0 ≤ o < csize LOG2 →
  CA.slot_at (cs ++ [CA.make_chunk LOG2]) c o = Some Raw.
Proof.
  intros -> Ho. unfold CA.slot_at.
  rewrite zget_app_r, Z.sub_diag by lia.
  unfold zget at 1. simpl.
  unfold CA.make_chunk. apply zget_replicate.
  pose proof (CHUNK_SIZE_pos LOG2). lia.
Qed.
End SlotFacts.

(** ** Loops over chunks *)

Section Loops.
Context {T : Type}.
Variable LOG2 : nat.
Implicit Types (a : ChunkedArray T).

Lemma for_each_app {X} (f : X → ChunkedArray T → option (ChunkedArray T)) l1 l2 a :
  CA.for_each f (l1 ++ l2) a = CA.for_each f l1 a ≫= CA.for_each f l2.
Proof.
  revert a. induction l1 as [|x l1 IH]; intros a; simpl; [done|].
  destruct (f x a); simpl; [apply IH|done].
Qed.

Lemma for_each_ext {X} (f g : X → ChunkedArray T → option (ChunkedArray T)) l a :
  (∀ x b, x ∈ l → f x b = g x b) → CA.for_each f l a = CA.for_each g l a.
Proof.
  revert a. induction l as [|x l IH]; intros a Hfg; simpl; [done|].
  rewrite Hfg by left. destruct (g x a); [|done].
  apply IH. intros. apply Hfg. by right.
Qed.

Lemma for_each_fmap {X Y} (h : X → Y)
    (f : Y → ChunkedArray T → option (ChunkedArray T)) l a :
  CA.for_each f (h <$> l) a = CA.for_each (λ x, f (h x)) l a.
Proof.
  revert a. induction l as [|x l IH]; intros a; simpl; [done|].
  destruct (f (h x) a); [apply IH|done].
Qed.

(** One chunk's share of a loop over offsets is the same loop over the
  logical indices of those slots. *)
Lemma segment_flat (act : Z → Z → ChunkedArray T → option (ChunkedArray T))
    c lo len a :
  0 ≤ lo → lo + len ≤ csize LOG2 →
  CA.for_each (λ o, act c o) (seqZ lo len) a
  = CA.for_each (λ i, act (cidx LOG2 i) (coff LOG2 i))
      (seqZ (c * csize LOG2 + lo) len) a.
Proof.
  intros Hlo Hhi.
  rewrite <- (fmap_add_seqZ (c * csize LOG2) lo len), for_each_fmap.
  apply for_each_ext. intros o b [??]%elem_of_seqZ.
  by rewrite ChunkIndex_compose, OffsetIndex_compose by lia.
Qed.

(** The two nested loops of [destroy_elements] and of the growing paths
  visit, chunk by chunk, exactly the logical indices [first .. last - 1]
  in order. *)
Lemma chunk_loop_flat (act : Z → Z → ChunkedArray T → option (ChunkedArray T))
    first last (n : nat) c a :
  0 ≤ first < last →
  cidx LOG2 first ≤ c ≤ cidx LOG2 (last - 1) →
  Z.of_nat n = cidx LOG2 (last - 1) + 1 - c →
  CA.for_each
    (λ ci a,
       CA.for_each (λ o, act ci o)
         (seqZ (if bool_decide (ci = cidx LOG2 first) then coff LOG2 first else 0)
               ((if bool_decide (ci = cidx LOG2 (last - 1))
                 then coff LOG2 (last - 1) + 1 else csize LOG2)
                - (if bool_decide (ci = cidx LOG2 first) then coff LOG2 first else 0)))
         a)
    (seqZ c (Z.of_nat n)) a
  = CA.for_each (λ i, act (cidx LOG2 i) (coff LOG2 i))
      (seqZ (Z.max first (c * csize LOG2)) (last - Z.max first (c * csize LOG2))) a.
Proof.
  intros Hfl. revert c a. induction n as [|n IH]; intros c a Hc Hn; [lia|].
  pose proof (CHUNK_SIZE_pos LOG2) as Hpos.
  pose proof (index_split LOG2 first) as Hf.
  pose proof (OffsetIndex_range LOG2 first) as Hfo.
  pose proof (index_split LOG2 (last - 1)) as Hl.
  pose proof (OffsetIndex_range LOG2 (last - 1)) as Hlo.
  rewrite seqZ_cons by lia. cbn [CA.for_each].
  set (lo := if bool_decide (c = cidx LOG2 first) then coff LOG2 first else 0).
  set (hi := if bool_decide (c = cidx LOG2 (last - 1))
             then coff LOG2 (last - 1) + 1 else csize LOG2).
  assert (c * csize LOG2 + lo = Z.max first (c * csize LOG2)) as Hstart.
  { unfold lo. case_bool_decide; [subst c; lia|].
    assert (cidx LOG2 first + 1 ≤ c) by lia. nia. }
  assert (0 ≤ lo ≤ hi ∧ hi ≤ csize LOG2) as Hlohi.
  { unfold lo, hi. repeat case_bool_decide; subst; nia. }
  rewrite segment_flat by lia. rewrite Hstart.
  destruct (decide (c = cidx LOG2 (last - 1))) as [Hlast|Hlast].
  - assert (n = 0%nat) as -> by lia.
    rewrite (seqZ_nil (Z.succ c)) by lia.
    assert (hi - lo = last - Z.max first (c * csize LOG2)) as ->.
    { unfold hi. rewrite bool_decide_true by done. subst c. lia. }
    by destruct (CA.for_each _ _ a).
  - assert (hi = csize LOG2) as Hhi.
    { unfold hi. by rewrite bool_decide_false. }
    assert ((c + 1) * csize LOG2 ≤ last - 1).
    { assert (c + 1 ≤ cidx LOG2 (last - 1)) by lia. nia. }
    assert (first < (c + 1) * csize LOG2).
    { assert (cidx LOG2 first ≤ c) by lia. nia. }
    replace (last - Z.max first (c * csize LOG2))
      with ((hi - lo) + (last - (c + 1) * csize LOG2)) by lia.
    rewrite seqZ_app, for_each_app by lia.
    replace (Z.max first (c * csize LOG2) + (hi - lo))
      with ((c + 1) * csize LOG2) by lia.
    destruct (CA.for_each _ (seqZ (Z.max _ _) _) a) as [a'|]; simpl; [|done].
    replace (Z.pred (Z.of_nat (S n))) with (Z.of_nat n) by lia.
    rewrite (IH (Z.succ c) a') by lia.
    replace (Z.succ c) with (c + 1) by lia.
    by rewrite (Z.max_r first) by lia.
Qed.
End Loops.

(** ** Constructing and destroying runs of slots *)

Section SlotRuns.
Context {T : Type}.
Variable LOG2 : nat.
Implicit Types (a : ChunkedArray T).

Lemma for_each_invariant {X} (P : ChunkedArray T → Prop)
    (f : X → ChunkedArray T → option (ChunkedArray T)) l a :
  (∀ x b, x ∈ l → P b → ∃ b', f x b = Some b' ∧ P b') →
  P a → ∃ a', CA.for_each f l a = Some a' ∧ P a'.
Proof.
  revert a. induction l as [|x l IH]; intros a Hf Ha; simpl; [eauto|].
  destruct (Hf x a) as (b & -> & Hb); [by left|done|].
  apply IH; [|done]. intros. apply Hf; [by right|done].
Qed.

Lemma destroy_at_writer :
  CA.slot_writer (T:=T) (CA.destroy_at false) Raw EvDestroy.
Proof. intros c o a. unfold CA.destroy_at. by destruct (CA.slot_at _ c o). Qed.

Lemma construct_at_writer (v : T) :
  CA.slot_writer (λ c o, CA.construct_at (Some (c, o)) v) (Live v) EvConstruct.
Proof. intros c o a. unfold CA.construct_at. by destruct (CA.slot_at _ c o). Qed.

Lemma slot_of_in_range a i :
  CA.full_chunks LOG2 (chunks a) → 0 ≤ i < zlen (chunks a) * csize LOG2 →
  is_Some (CA.slot_of LOG2 a i).
Proof.
  intros Hf Hi. apply (slot_at_in_range LOG2); [done| |apply OffsetIndex_range].
  split; [apply ChunkIndex_nonneg; lia|]. apply ChunkIndex_lt_iff. lia.
Qed.

Lemma write_indices_spec act snew ev l a :
  CA.slot_writer act snew ev →
  CA.full_chunks LOG2 (chunks a) →
  NoDup l →
  (∀ i, i ∈ l → 0 ≤ i < zlen (chunks a) * csize LOG2) →
  ∃ a',
    CA.for_each (λ i, act (cidx LOG2 i) (coff LOG2 i)) l a = Some a'
    ∧ elemCount a' = elemCount a
    ∧ m_writePtr a' = m_writePtr a
    ∧ m_chunkEnd a' = m_chunkEnd a
    ∧ zlen (chunks a') = zlen (chunks a)
    ∧ CA.full_chunks LOG2 (chunks a')
    ∧ (∀ i, 0 ≤ i →
         CA.slot_of LOG2 a' i
         = if decide (i ∈ l) then Some snew else CA.slot_of LOG2 a i)
    ∧ events a'
      = events a
        ++ ((λ i, ev (cidx LOG2 i) (coff LOG2 i) (CA.slot_is_live LOG2 a i)) <$> l).
Proof.
  intros Hact. revert a. induction l as [|i l IH]; intros a Hf Hnd Hin.
  { exists a. simpl. rewrite app_nil_r. repeat split; try done. }
  apply NoDup_cons in Hnd as [Hi Hnd].
  destruct (slot_of_in_range a i Hf) as [s Hs]; [apply Hin; by left|].
  cbn [CA.for_each]. rewrite Hact. unfold CA.slot_of in Hs. rewrite Hs.
  set (a1 := mkChunkedArray _ _ _ _ _).
  destruct (IH a1) as (a' & Hrun & He & Hw & Hc & Hz & Hf' & Hslots & Hev).
  { by apply slot_write_full. }
  { done. }
  { intros j Hj. simpl. rewrite slot_write_zlen. apply Hin. by right. }
  assert (∀ j, 0 ≤ j → j ≠ i → CA.slot_of LOG2 a1 j = CA.slot_of LOG2 a j) as Hother.
  { intros j Hj Hne. unfold CA.slot_of. simpl. apply slot_write_other.
    intros [= Hc' Ho']. apply Hne. symmetry. by eapply position_inj. }
  exists a'. rewrite Hrun, He, Hw, Hc, Hz, Hev. simpl.
  rewrite slot_write_zlen. repeat split; try done.
  - intros j Hj. rewrite (Hslots j Hj).
    destruct (decide (j = i)) as [->|Hne].
    + rewrite (decide_True (P := i ∈ i :: l)) by left.
      destruct (decide (i ∈ l)); [done|].
      unfold CA.slot_of. simpl. by eapply slot_write_same.
    + destruct (decide (j ∈ l)).
      * by rewrite (decide_True (P := j ∈ i :: l)) by (by right).
      * rewrite (decide_False (P := j ∈ i :: l)); [by apply Hother|].
        by intros [?|?]%elem_of_cons.
  - rewrite <- app_assoc. f_equal. simpl. f_equal.
    + f_equal. unfold CA.slot_is_live, CA.slot_of. rewrite Hs. by destruct s.
    + apply list_fmap_ext. intros k j Hk. f_equal.
      unfold CA.slot_is_live. rewrite Hother; [done| |].
      * apply (Hin j). right. by eapply list_elem_of_lookup_2.
      * intros ->. apply Hi. by eapply list_elem_of_lookup_2.
Qed.

(** [destroy_elements] on a type with a destructor runs it once on each
  logical index of [first .. last - 1], in order. *)
Lemma destroy_elements_flat first last a :
  0 ≤ first < last →
  CA.destroy_elements LOG2 false first last a
  = CA.for_each (λ i, CA.destroy_at false (cidx LOG2 i) (coff LOG2 i))
      (seqZ first (last - first)) a.
Proof.
  intros Hfl. unfold CA.destroy_elements, CA.destroy_range.
  rewrite bool_decide_false by lia.
  assert (cidx LOG2 first ≤ cidx LOG2 (last - 1)) as Hle
    by (apply ChunkIndex_mono; lia).
  pose proof (chunk_loop_flat LOG2 (CA.destroy_at false) first last
    (Z.to_nat (cidx LOG2 (last - 1) + 1 - cidx LOG2 first))
    (cidx LOG2 first) a Hfl) as Hflat.
  rewrite Z2Nat.id in Hflat by lia.
  rewrite Hflat by lia.
  pose proof (index_split LOG2 first). pose proof (OffsetIndex_range LOG2 first).
  by rewrite Z.max_l by lia.
Qed.
End SlotRuns.

(** ** The write cursor *)

Section Cursor.
Context {T : Type}.
Variable LOG2 : nat.
Implicit Types (a : ChunkedArray T).

Lemma update_write_ptr_chunks a : chunks (CA.update_write_ptr LOG2 a) = chunks a.
Proof. unfold CA.update_write_ptr. by repeat case_bool_decide. Qed.

Lemma update_write_ptr_elemCount a :
  elemCount (CA.update_write_ptr LOG2 a) = elemCount a.
Proof. unfold CA.update_write_ptr. by repeat case_bool_decide. Qed.

Lemma update_write_ptr_events a : events (CA.update_write_ptr LOG2 a) = events a.
Proof. unfold CA.update_write_ptr. by repeat case_bool_decide. Qed.

Lemma update_write_ptr_slot_of a i :
  CA.slot_of LOG2 (CA.update_write_ptr LOG2 a) i = CA.slot_of LOG2 a i.
Proof. unfold CA.slot_of. by rewrite update_write_ptr_chunks. Qed.

Lemma index_slot_of a i :
  CA.index LOG2 a i
  = match CA.slot_of LOG2 a i with Some (Live v) => Some v | _ => None end.
Proof. done. Qed.

Lemma update_write_ptr_cursor_ok a :
  0 ≤ elemCount a → CA.cursor_ok LOG2 (CA.update_write_ptr LOG2 a).
Proof.
  intros He. unfold CA.update_write_ptr, CA.cursor_ok.
  repeat case_bool_decide; simpl; [by left..|right].
  eexists _, _. split; [done|]. split; [done|].
  pose proof (OffsetIndex_range LOG2 (elemCount a)).
  pose proof (index_split LOG2 (elemCount a)).
  pose proof (ChunkIndex_nonneg LOG2 (elemCount a) He).
  unfold CA.chunk_count in *. simpl. lia.
Qed.
End Cursor.

(** ** Shrinking *)

(** In a well-formed state [resize(n)] and [resize(n, value)] with [n]
  below the size run the destructor once on the slot of each index of
  [n .. oldSize - 1] and on nothing else (for a trivially destructible
  type there is no destructor to run: no slot changes and no call is
  recorded), leave the size at [n], every element below [n] as it was,
  and the number of chunks unchanged.  Each recorded call carries
  whether the slot held an object: behind a spare chunk it may not. *)
Theorem resize_shrink_frame {T : Type} (LOG2 : nat) (trivially_destructible : bool)
    (dflt value : T) (a : ChunkedArray T) (n : Z) :
  CA.well_formed LOG2 a →
  0 ≤ n < CA.size a →
  ∃ a',
    CA.resize LOG2 trivially_destructible dflt n a = Some a'
    ∧ CA.resize_value LOG2 trivially_destructible n value a = Some a'
    ∧ CA.size a' = n
    ∧ CA.chunk_count a' = CA.chunk_count a
    ∧ (∀ i, 0 ≤ i < n → CA.index LOG2 a' i = CA.index LOG2 a i)
    ∧ (∀ i, 0 ≤ i →
         CA.slot_of LOG2 a' i
         = if bool_decide (n ≤ i < CA.size a) && negb trivially_destructible
           then Some Raw else CA.slot_of LOG2 a i)
    ∧ events a'
      = events a
        ++ (if trivially_destructible then []
            else (λ i, EvDestroy (cidx LOG2 i) (coff LOG2 i) (CA.slot_is_live LOG2 a i))
                   <$> seqZ n (CA.size a - n)).
Proof.
  unfold CA.size. intros (Hf & Hsz & _) Hn.
  unfold CA.resize, CA.resize_value.
  rewrite (bool_decide_false (elemCount a < n)) by lia.
  rewrite (bool_decide_true (n < elemCount a)) by lia.
  unfold CA.shrink.
  destruct trivially_destructible.
  - unfold CA.destroy_elements. simpl.
    eexists. split; [done|]. split; [done|].
    rewrite update_write_ptr_elemCount, update_write_ptr_events.
    unfold CA.chunk_count. rewrite update_write_ptr_chunks. simpl.
    rewrite app_nil_r. repeat split; try done.
    + intros i Hi. by rewrite !index_slot_of, update_write_ptr_slot_of.
    + intros i Hi. cbn [negb]. rewrite andb_false_r.
      by rewrite update_write_ptr_slot_of.
  - rewrite destroy_elements_flat by lia.
    destruct (write_indices_spec LOG2 (CA.destroy_at false) Raw EvDestroy
                (seqZ n (elemCount a - n)) a)
      as (a1 & -> & He & Hw & Hc & Hz & Hf' & Hslots & Hev).
    { apply destroy_at_writer. }
    { done. }
    { apply NoDup_seqZ. }
    { intros i [??]%elem_of_seqZ. unfold CA.chunk_count in Hsz. lia. }
    simpl. eexists. split; [done|]. split; [done|].
    rewrite update_write_ptr_elemCount, update_write_ptr_events.
    unfold CA.chunk_count. rewrite update_write_ptr_chunks. simpl.
    assert (∀ i, 0 ≤ i →
              CA.slot_of LOG2 (CA.update_write_ptr LOG2 (CA.set_elemCount n a1)) i
              = if bool_decide (n ≤ i < elemCount a) && negb false
                then Some Raw else CA.slot_of LOG2 a i) as Hall.
    { intros i Hi. rewrite update_write_ptr_slot_of.
      change (CA.slot_of LOG2 (CA.set_elemCount n a1) i) with (CA.slot_of LOG2 a1 i).
      rewrite (Hslots i Hi). cbn [negb]. rewrite andb_true_r.
      destruct (decide (i ∈ seqZ n (elemCount a - n))) as [Hin|Hin];
        rewrite elem_of_seqZ in Hin.
      - by rewrite bool_decide_true by lia.
      - by rewrite bool_decide_false by lia. }
    repeat split; try done.
    intros i Hi. rewrite !index_slot_of, Hall by lia.
    by rewrite bool_decide_false by lia.
Qed.

(** ** States built by the public operations are well formed *)

Section WellFormed.
Context {T : Type}.
Variable LOG2 : nat.
Variable tr : bool.
Implicit Types (a : ChunkedArray T).

Lemma signed64_1 : signed64 1 = 1.
Proof. reflexivity. Qed.

Lemma well_formed_empty : CA.well_formed LOG2 (CA.empty_array (T:=T)).
Proof.
  split; [constructor|]. split; [done|]. by left.
Qed.

Lemma well_formed_emplace_back v a :
  CA.well_formed LOG2 a →
  ∃ a', CA.emplace_back LOG2 v a = Some a'
        ∧ CA.well_formed LOG2 a'
        ∧ elemCount a' = elemCount a + 1.
Proof.
  intros (Hf & Hsz & Hcur). unfold CA.chunk_count in Hsz.
  pose proof (CHUNK_SIZE_pos LOG2) as Hpos.
  unfold CA.emplace_back. case_bool_decide as Heq.
  - unfold CA.allocate_new_chunk, CA.construct_at, CA.chunk_count.
    cbn [chunks elemCount m_writePtr m_chunkEnd events CA.set_chunks CA.set_cursor].
    rewrite zlen_app. change (zlen [CA.make_chunk LOG2]) with 1.
    replace (zlen (chunks a) + 1 - 1) with (zlen (chunks a)) by lia.
    rewrite (slot_at_fresh_chunk LOG2) by (done || lia).
    cbn [mbind option_bind chunks elemCount m_writePtr m_chunkEnd events ptr_add].
    eexists. split; [done|]. split; [|done].
    split; [|split]; cbn [chunks elemCount m_writePtr m_chunkEnd].
    + apply slot_write_full, full_chunks_app; [done|].
      apply Forall_singleton, make_chunk_zlen.
    + unfold CA.chunk_count. cbn [chunks]. rewrite slot_write_zlen, zlen_app.
      change (zlen [CA.make_chunk LOG2]) with 1. nia.
    + right. eexists _, _. split; [done|]. split; [done|].
      unfold CA.chunk_count. cbn [chunks elemCount].
      rewrite slot_write_zlen, zlen_app, signed64_1.
      change (zlen [CA.make_chunk LOG2]) with 1.
      pose proof (zlen_nonneg (chunks a)). nia.
  - destruct Hcur as [[Hw He]|(c & o & Hw & He & Hc & Ho & Hec)]; [congruence|].
    assert (o ≠ csize LOG2) by (intros ->; congruence).
    unfold CA.construct_at. rewrite Hw.
    destruct (slot_at_in_range LOG2 (chunks a) c o) as [s Hs]; [done|done|lia|].
    rewrite Hs.
    cbn [mbind option_bind chunks elemCount m_writePtr m_chunkEnd events ptr_add].
    rewrite He, signed64_1.
    eexists. split; [done|]. split; [|done].
    split; [|split]; cbn [chunks elemCount m_writePtr m_chunkEnd].
    + by apply slot_write_full.
    + unfold CA.chunk_count in *. cbn [chunks]. rewrite slot_write_zlen. nia.
    + right. eexists _, _. split; [done|]. split; [done|].
      unfold CA.chunk_count in *. cbn [chunks elemCount].
      rewrite slot_write_zlen. lia.
Qed.

Lemma well_formed_update_write_ptr a :
  CA.full_chunks LOG2 (chunks a) →
  0 ≤ elemCount a ≤ zlen (chunks a) * csize LOG2 →
  CA.well_formed LOG2 (CA.update_write_ptr LOG2 a).
Proof.
  intros Hf Hsz. split; [|split].
  - by rewrite update_write_ptr_chunks.
  - unfold CA.chunk_count.
    by rewrite update_write_ptr_chunks, update_write_ptr_elemCount.
  - apply update_write_ptr_cursor_ok. lia.
Qed.

Lemma destroy_at_preserves c o a a' :
  CA.destroy_at tr c o a = Some a' →
  elemCount a' = elemCount a
  ∧ zlen (chunks a') = zlen (chunks a)
  ∧ (CA.full_chunks LOG2 (chunks a) → CA.full_chunks LOG2 (chunks a')).
Proof.
  unfold CA.destroy_at. destruct (CA.slot_at _ c o); [|done].
  destruct tr; intros [= <-]; [done|]. cbn [chunks elemCount].
  rewrite slot_write_zlen. repeat split; try done. apply slot_write_full.
Qed.

Lemma well_formed_pop_back a a' :
  CA.well_formed LOG2 a → CA.pop_back LOG2 tr a = Some a' →
  CA.well_formed LOG2 a' ∧ elemCount a' = elemCount a - 1.
Proof.
  intros (Hf & Hsz & _). unfold CA.pop_back. case_bool_decide; [|done].
  destruct (CA.destroy_at _ _ _ _) as [a2|] eqn:Hd; [|done].
  intros [= <-]. apply destroy_at_preserves in Hd as (He & Hz & Hf').
  cbn [elemCount chunks CA.set_elemCount] in *.
  rewrite update_write_ptr_elemCount. split; [|done].
  apply well_formed_update_write_ptr; [by apply Hf'|].
  unfold CA.chunk_count in Hsz. lia.
Qed.

Lemma pop_back_ok a :
  CA.well_formed LOG2 a → 0 < elemCount a → is_Some (CA.pop_back LOG2 tr a).
Proof.
  intros (Hf & Hsz & _) Hpos. unfold CA.pop_back, CA.chunk_count in *.
  rewrite bool_decide_true by done.
  cbn [elemCount CA.set_elemCount].
  destruct (slot_of_in_range LOG2 a (elemCount a - 1)) as [s Hs]; [done|lia|].
  unfold CA.destroy_at. cbn [chunks CA.set_elemCount].
  unfold CA.slot_of in Hs. rewrite Hs. by destruct tr.
Qed.

Lemma well_formed_assign i v a a' :
  CA.well_formed LOG2 a → CA.assign LOG2 i v a = Some a' →
  CA.well_formed LOG2 a' ∧ elemCount a' = elemCount a.
Proof.
  intros (Hf & Hsz & Hcur). unfold CA.assign.
  destruct (CA.slot_at _ _ _) as [[|w]|]; try done. intros [= <-].
  split; [|done]. split; [|split].
  - by apply slot_write_full.
  - unfold CA.chunk_count in *. cbn [chunks elemCount CA.set_chunks].
    by rewrite slot_write_zlen.
  - unfold CA.cursor_ok, CA.chunk_count in *.
    cbn [chunks elemCount m_writePtr m_chunkEnd CA.set_chunks].
    by rewrite slot_write_zlen.
Qed.

Lemma destroy_elements_ok first last a :
  CA.full_chunks LOG2 (chunks a) →
  0 ≤ first → last ≤ zlen (chunks a) * csize LOG2 →
  ∃ a', CA.destroy_elements LOG2 tr first last a = Some a'
        ∧ elemCount a' = elemCount a
        ∧ m_writePtr a' = m_writePtr a
        ∧ m_chunkEnd a' = m_chunkEnd a
        ∧ zlen (chunks a') = zlen (chunks a)
        ∧ CA.full_chunks LOG2 (chunks a').
Proof.
  intros Hf Hfirst Hlast. destruct tr eqn:Htr.
  { exists a. by unfold CA.destroy_elements. }
  destruct (decide (last ≤ first)).
  { exists a. unfold CA.destroy_elements. by rewrite bool_decide_true. }
  rewrite destroy_elements_flat by lia.
  destruct (write_indices_spec LOG2 (CA.destroy_at false) Raw EvDestroy
              (seqZ first (last - first)) a)
    as (a1 & -> & He & Hw & Hc & Hz & Hf' & _).
  { apply destroy_at_writer. }
  { done. }
  { apply NoDup_seqZ. }
  { intros i [??]%elem_of_seqZ. lia. }
  by exists a1.
Qed.

Lemma well_formed_clear a :
  CA.well_formed LOG2 a →
  ∃ a', CA.clear LOG2 tr a = Some a'
        ∧ CA.well_formed LOG2 a' ∧ elemCount a' = 0 ∧ chunks a' = [].
Proof.
  intros (Hf & Hsz & _). unfold CA.clear, CA.chunk_count in *.
  destruct (destroy_elements_ok 0 (elemCount a) a) as (a1 & -> & _); [done|lia|lia|].
  cbn [mbind option_bind]. eexists. split; [done|].
  split; [|done]. split; [constructor|]. split; [done|]. by left.
Qed.
End WellFormed.

Section WellFormedGrow.
Context {T : Type}.
Variable LOG2 : nat.
Variable tr : bool.
Implicit Types (a : ChunkedArray T).

Lemma grow_chunks_zlen n (cs : list (list (Slot T))) :
  zlen (CA.grow_chunks LOG2 n cs) = Z.max (zlen cs) n.
Proof.
  unfold CA.grow_chunks. rewrite zlen_app, zlen_replicate.
  pose proof (zlen_nonneg cs). lia.
Qed.

Lemma grow_chunks_full n (cs : list (list (Slot T))) :
  CA.full_chunks LOG2 cs → CA.full_chunks LOG2 (CA.grow_chunks LOG2 n cs).
Proof. intros. apply full_chunks_app; [done|apply full_chunks_replicate]. Qed.

Lemma grow_chunks_slot_at n (cs : list (list (Slot T))) c o :
  c < zlen cs → CA.slot_at (CA.grow_chunks LOG2 n cs) c o = CA.slot_at cs c o.
Proof. intros. unfold CA.grow_chunks. by apply slot_at_app_l. Qed.

Lemma grow_chunks_tight n (cs : list (list (Slot T))) :
  n ≤ zlen cs → CA.grow_chunks LOG2 n cs = cs.
Proof.
  intros. unfold CA.grow_chunks.
  replace (Z.to_nat (n - zlen cs)) with 0%nat by lia. apply app_nil_r.
Qed.

Lemma construct_range_ok c lo hi v a b :
  CA.same_frame LOG2 a b → 0 ≤ c < zlen (chunks a) → 0 ≤ lo → hi ≤ csize LOG2 →
  ∃ b', CA.construct_range c lo hi v b = Some b' ∧ CA.same_frame LOG2 a b'.
Proof.
  intros Hb Hc Hlo Hhi. unfold CA.construct_range.
  apply (for_each_invariant (CA.same_frame LOG2 a)); [|done].
  intros o d [??]%elem_of_seqZ (Hf & Hz & He & Hw & Hce).
  unfold CA.construct_at.
  destruct (slot_at_in_range LOG2 (chunks d) c o) as [s ->]; [done|lia|lia|].
  eexists. split; [done|]. unfold CA.same_frame.
  cbn [chunks elemCount m_writePtr m_chunkEnd]. rewrite slot_write_zlen.
  repeat split; try done. by apply slot_write_full.
Qed.

Lemma fill_new_slots_ok old count v a :
  CA.full_chunks LOG2 (chunks a) → 0 ≤ old →
  ∃ a', CA.fill_new_slots LOG2 old count v a = Some a' ∧ CA.same_frame LOG2 a a'.
Proof.
  intros Hf Hold. unfold CA.fill_new_slots.
  apply (for_each_invariant (CA.same_frame LOG2 a)); [|by repeat split].
  intros ci b [??]%elem_of_seqZ Hb.
  pose proof (ChunkIndex_nonneg LOG2 old Hold).
  pose proof (OffsetIndex_range LOG2 old).
  pose proof (OffsetIndex_range LOG2 (count - 1)).
  pose proof (CHUNK_SIZE_pos LOG2).
  apply construct_range_ok; [done|unfold CA.chunk_count in *; lia|..];
    case_bool_decide; lia.
Qed.

Lemma grow_well_formed old count v a a2 :
  CA.well_formed LOG2 a → elemCount a < count → 0 ≤ old →
  CA.fill_new_slots LOG2 old count v
    (CA.allocate_chunks_for LOG2 count (CA.set_elemCount count a)) = Some a2 →
  CA.well_formed LOG2 (CA.update_write_ptr LOG2 a2) ∧ elemCount a2 = count.
Proof.
  intros (Hf & Hsz & _) Hlt Hold Hfill.
  set (a1 := CA.allocate_chunks_for LOG2 count (CA.set_elemCount count a)) in *.
  assert (CA.full_chunks LOG2 (chunks a1)
          ∧ elemCount a1 = count
          ∧ count ≤ zlen (chunks a1) * csize LOG2) as (Hf1 & He1 & Hz1).
  { unfold a1, CA.allocate_chunks_for. rewrite bool_decide_false by lia.
    cbn [chunks elemCount CA.set_chunks CA.set_elemCount].
    split; [by apply grow_chunks_full|]. split; [done|].
    rewrite grow_chunks_zlen.
    assert (cidx LOG2 (count - 1) < Z.max (zlen (chunks a)) (cidx LOG2 (count - 1) + 1))
      as Hc%ChunkIndex_lt_iff by lia. lia. }
  destruct (fill_new_slots_ok old count v a1 Hf1 Hold)
    as (a2' & Hfill' & Hf2 & Hz2 & He2 & _).
  rewrite Hfill in Hfill'. injection Hfill' as <-.
  split; [|congruence].
  apply well_formed_update_write_ptr; [done|]. rewrite Hz2, He2, He1. lia.
Qed.

Lemma well_formed_ensure_size dflt count a a' :
  CA.well_formed LOG2 a → CA.ensure_size LOG2 dflt count a = Some a' →
  CA.well_formed LOG2 a'.
Proof.
  intros Hwf. unfold CA.ensure_size. case_bool_decide; [by intros [= <-]|].
  destruct (CA.fill_new_slots _ _ _ _ _) as [a2|] eqn:Hfill; [|done].
  intros [= <-].
  apply (grow_well_formed (elemCount a) count dflt a a2); [done|lia| |done].
  destruct Hwf as (_ & ? & _); lia.
Qed.

Lemma well_formed_shrink count a a' :
  CA.well_formed LOG2 a → 0 ≤ count < elemCount a →
  CA.shrink LOG2 tr count a = Some a' → CA.well_formed LOG2 a'.
Proof.
  intros (Hf & Hsz & _) Hc. unfold CA.shrink, CA.chunk_count in *.
  destruct (destroy_elements_ok LOG2 tr count (elemCount a) a)
    as (a1 & -> & He & _ & _ & Hz & Hf1); [done|lia|lia|].
  cbn [mbind option_bind]. intros [= <-].
  apply well_formed_update_write_ptr; [done|].
  cbn [chunks elemCount CA.set_elemCount]. lia.
Qed.

Lemma well_formed_resize dflt count a a' :
  CA.well_formed LOG2 a → 0 ≤ count →
  CA.resize LOG2 tr dflt count a = Some a' → CA.well_formed LOG2 a'.
Proof.
  intros Hwf Hc. unfold CA.resize. repeat case_bool_decide.
  - by apply well_formed_ensure_size.
  - apply well_formed_shrink; [done|lia].
  - by intros [= <-].
Qed.

Lemma well_formed_resize_value count value a a' :
  CA.well_formed LOG2 a → 0 ≤ count →
  CA.resize_value LOG2 tr count value a = Some a' → CA.well_formed LOG2 a'.
Proof.
  intros Hwf Hc. unfold CA.resize_value. repeat case_bool_decide.
  - destruct (CA.fill_new_slots _ _ _ _ _) as [a2|] eqn:Hfill; [|done].
    intros [= <-].
    apply (grow_well_formed (elemCount a) count value a a2); [done|lia| |done].
    destruct Hwf as (_ & ? & _); lia.
  - apply well_formed_shrink; [done|lia].
  - by intros [= <-].
Qed.

Lemma well_formed_reserve count a :
  CA.well_formed LOG2 a → CA.well_formed LOG2 (CA.reserve LOG2 count a).
Proof.
  intros Hwf. unfold CA.reserve. case_bool_decide; [done|].
  destruct Hwf as (Hf & Hsz & _). unfold CA.chunk_count in *.
  apply well_formed_update_write_ptr; cbn [chunks elemCount CA.set_chunks].
  - by apply grow_chunks_full.
  - rewrite grow_chunks_zlen. pose proof (CHUNK_SIZE_pos LOG2). nia.
Qed.

Lemma well_formed_shrink_to_fit a a' :
  CA.well_formed LOG2 a → CA.shrink_to_fit LOG2 tr a = Some a' →
  CA.well_formed LOG2 a'.
Proof.
  intros Hwf. unfold CA.shrink_to_fit. case_bool_decide as Hz.
  - destruct (well_formed_clear LOG2 tr a Hwf) as (b & -> & Hb & _).
    by intros [= <-].
  - intros [= <-]. destruct Hwf as (Hf & Hsz & _). unfold CA.chunk_count in *.
    assert (cidx LOG2 (elemCount a - 1) < zlen (chunks a)) as Hlt
      by (apply ChunkIndex_lt_iff; lia).
    assert (0 ≤ cidx LOG2 (elemCount a - 1)) by (apply ChunkIndex_nonneg; lia).
    assert (CA.chunks_resize (cidx LOG2 (elemCount a - 1) + 1) (chunks a)
            = take (Z.to_nat (cidx LOG2 (elemCount a - 1) + 1)) (chunks a)) as Hres.
    { unfold CA.chunks_resize.
      replace (Z.to_nat (_ + 1 - zlen (chunks a))) with 0%nat by lia.
      apply app_nil_r. }
    apply well_formed_update_write_ptr; cbn [chunks elemCount CA.set_chunks];
      rewrite Hres.
    + by apply Forall_take.
    + unfold zlen in *. rewrite length_take.
      assert (elemCount a - 1 < (cidx LOG2 (elemCount a - 1) + 1) * csize LOG2)
        by (apply ChunkIndex_lt_iff; lia).
      lia.
Qed.

Lemma well_formed_apply_op dflt op a a' :
  CA.well_formed LOG2 a → CA.op_well_typed op →
  CA.apply_op LOG2 tr dflt op a = Some a' → CA.well_formed LOG2 a'.
Proof.
  intros Hwf Hty. destruct op; cbn [CA.apply_op CA.op_well_typed] in *.
  - intros Hp. destruct (well_formed_emplace_back LOG2 v a Hwf) as (b & Hb & ? & _).
    unfold CA.push_back in Hp. congruence.
  - intros Hp. destruct (well_formed_emplace_back LOG2 v a Hwf) as (b & Hb & ? & _).
    congruence.
  - intros Hp. by eapply well_formed_pop_back.
  - destruct dflt as [d|]; [|done]. cbn [mbind option_bind].
    by apply well_formed_resize.
  - by apply well_formed_resize_value.
  - destruct dflt as [d|]; [|done]. cbn [mbind option_bind].
    by apply well_formed_ensure_size.
  - intros Hc. destruct (well_formed_clear LOG2 tr a Hwf) as (b & Hb & ? & _).
    congruence.
  - intros [= <-]. by apply well_formed_reserve.
Qed.

(** Every state a sequence of operations builds from the empty array is
  well formed. *)
Lemma run_ops_well_formed dflt ops a a' :
  CA.well_formed LOG2 a → Forall CA.op_well_typed ops →
  CA.run_ops LOG2 tr dflt ops a = Some a' → CA.well_formed LOG2 a'.
Proof.
  revert a. induction ops as [|op ops IH]; intros a Hwf Hty; cbn [CA.run_ops].
  - by intros [= <-].
  - apply Forall_cons in Hty as [Hop Hty].
    destruct (CA.apply_op _ _ _ op a) as [b|] eqn:Hb; [|done].
    apply IH; [|done]. by eapply well_formed_apply_op.
Qed.
End WellFormedGrow.

(** ** Arrays without spare chunks behave like vectors *)

Section Tight.
Context {T : Type}.
Variable LOG2 : nat.
Variable tr : bool.
Implicit Types (a : ChunkedArray T) (l : list T).

Lemma emplace_back_alloc v a :
  m_writePtr a = m_chunkEnd a →
  CA.emplace_back LOG2 v a
  = Some (mkChunkedArray
            (CA.slot_write (chunks a ++ [CA.make_chunk LOG2]) (zlen (chunks a)) 0 (Live v))
            (elemCount a + 1)
            (Some (zlen (chunks a), 1))
            (Some (zlen (chunks a), csize LOG2))
            (events a ++ [EvConstruct (zlen (chunks a)) 0 false])).
Proof.
  intros Heq. unfold CA.emplace_back. rewrite bool_decide_true by done.
  pose proof (CHUNK_SIZE_pos LOG2).
  unfold CA.allocate_new_chunk, CA.construct_at, CA.chunk_count.
  cbn [chunks elemCount m_writePtr m_chunkEnd events CA.set_chunks CA.set_cursor].
  rewrite zlen_app. change (zlen [CA.make_chunk LOG2]) with 1.
  replace (zlen (chunks a) + 1 - 1) with (zlen (chunks a)) by lia.
  rewrite (slot_at_fresh_chunk LOG2) by (done || lia).
  cbn [mbind option_bind chunks elemCount m_writePtr m_chunkEnd events ptr_add is_live].
  by rewrite signed64_1.
Qed.

Lemma emplace_back_in_place v a c o s :
  m_writePtr a = Some (c, o) → m_chunkEnd a ≠ Some (c, o) →
  CA.slot_at (chunks a) c o = Some s →
  CA.emplace_back LOG2 v a
  = Some (mkChunkedArray (CA.slot_write (chunks a) c o (Live v))
            (elemCount a + 1) (Some (c, o + 1)) (m_chunkEnd a)
            (events a ++ [EvConstruct c o (is_live s)])).
Proof.
  intros Hw Hne Hs. unfold CA.emplace_back.
  rewrite bool_decide_false by congruence.
  unfold CA.construct_at. rewrite Hw, Hs.
  cbn [mbind option_bind chunks elemCount m_writePtr m_chunkEnd events ptr_add].
  by rewrite signed64_1.
Qed.

Lemma tight_emplace_back v a :
  CA.tight LOG2 a →
  ∃ a', CA.emplace_back LOG2 v a = Some a'
        ∧ CA.tight LOG2 a'
        ∧ elemCount a' = elemCount a + 1
        ∧ CA.slot_of LOG2 a' (elemCount a) = Some (Live v)
        ∧ ∀ i, 0 ≤ i < elemCount a → CA.slot_of LOG2 a' i = CA.slot_of LOG2 a i.
Proof.
  intros (Hwf & Htight & Hfull & Hpart).
  destruct (well_formed_emplace_back LOG2 v a Hwf) as (a' & Ha' & Hwf' & He').
  exists a'. split; [done|].
  destruct Hwf as (Hf & Hsz & _). unfold CA.chunk_count in *.
  pose proof (CHUNK_SIZE_pos LOG2) as Hpos.
  pose proof (index_split LOG2 (elemCount a)) as Hsplit.
  pose proof (OffsetIndex_range LOG2 (elemCount a)) as Hoff.
  pose proof (zlen_nonneg (chunks a)) as Hznn.
  destruct (decide (elemCount a = zlen (chunks a) * csize LOG2)) as [Heq|Hlt].
  - rewrite emplace_back_alloc in Ha' by auto. injection Ha' as <-.
    assert (cidx LOG2 (elemCount a) = zlen (chunks a)) as Hci.
    { rewrite Heq. rewrite <- (Z.add_0_r (_ * _)).
      apply ChunkIndex_compose. lia. }
    assert (coff LOG2 (elemCount a) = 0) as Hco by lia.
    split; [|split; [done|split]].
    + split; [done|]. unfold CA.chunk_count.
      cbn [chunks elemCount m_writePtr m_chunkEnd].
      rewrite slot_write_zlen, zlen_app. change (zlen [CA.make_chunk LOG2]) with 1.
      split; [lia|]. split.
      * intros Hfull'. assert (csize LOG2 = 1) as -> by lia. done.
      * intros Hpart'.
        assert (elemCount a + 1 = zlen (chunks a) * csize LOG2 + 1) as -> by lia.
        rewrite ChunkIndex_compose, OffsetIndex_compose by lia. done.
    + unfold CA.slot_of. cbn [chunks]. rewrite Hci, Hco.
      eapply slot_write_same, (slot_at_fresh_chunk LOG2); [done|lia].
    + intros i Hi. unfold CA.slot_of. cbn [chunks].
      assert (cidx LOG2 i < zlen (chunks a)) by (apply ChunkIndex_lt_iff; lia).
      rewrite slot_write_other by (intros [= ??]; lia).
      by apply slot_at_app_l.
  - destruct Hpart as [Hw Hce]; [lia|].
    assert (0 ≤ cidx LOG2 (elemCount a) < zlen (chunks a)) as Hcr.
    { split; [apply ChunkIndex_nonneg; lia|apply ChunkIndex_lt_iff; lia]. }
    destruct (slot_at_in_range LOG2 (chunks a) (cidx LOG2 (elemCount a))
                (coff LOG2 (elemCount a))) as [s Hs]; [done|done|done|].
    rewrite (emplace_back_in_place v a _ _ s Hw) in Ha'; [|rewrite Hce|done].
    2:{ intros [= ?]. lia. }
    injection Ha' as <-.
    split; [|split; [done|split]].
    + split; [done|]. unfold CA.chunk_count.
      cbn [chunks elemCount m_writePtr m_chunkEnd].
      rewrite slot_write_zlen. split; [lia|]. split.
      * intros Hfull'. rewrite Hce. do 2 f_equal. nia.
      * intros Hpart'.
        assert (coff LOG2 (elemCount a) + 1 < csize LOG2) as Hroom.
        { destruct (decide (cidx LOG2 (elemCount a) + 2 ≤ zlen (chunks a))); nia. }
        assert (elemCount a + 1
                = cidx LOG2 (elemCount a) * csize LOG2 + (coff LOG2 (elemCount a) + 1))
          as Hnext by lia.
        assert (cidx LOG2 (elemCount a + 1) = cidx LOG2 (elemCount a)) as ->
          by (rewrite Hnext; apply ChunkIndex_compose; lia).
        assert (coff LOG2 (elemCount a + 1) = coff LOG2 (elemCount a) + 1) as ->
          by (rewrite Hnext; apply OffsetIndex_compose; lia).
        by rewrite Hce.
    + unfold CA.slot_of. cbn [chunks]. by eapply slot_write_same.
    + intros i Hi. unfold CA.slot_of. cbn [chunks].
      apply slot_write_other. intros [= Hc Ho].
      assert (elemCount a = i) by (by eapply position_inj). lia.
Qed.

Lemma models_tight a l : CA.models LOG2 a l → CA.tight LOG2 a.
Proof. by intros (? & _). Qed.

Lemma chunked_models_empty : CA.models LOG2 (CA.empty_array (T:=T)) [].
Proof.
  pose proof (CHUNK_SIZE_pos LOG2).
  split; [|split; [done|]].
  - split; [apply well_formed_empty|].
    unfold CA.chunk_count, CA.empty_array, zlen.
    cbn [chunks elemCount m_writePtr m_chunkEnd length].
    split; [lia|]. split; [done|lia].
  - intros i Hi. unfold zlen in Hi. cbn [length] in Hi. lia.
Qed.

Lemma chunked_models_emplace_back a l x :
  CA.models LOG2 a l →
  ∃ a', CA.emplace_back LOG2 x a = Some a' ∧ CA.models LOG2 a' (l ++ [x]).
Proof.
  intros (Ht & He & Hl).
  destruct (tight_emplace_back x a Ht) as (a' & Ha' & Ht' & He' & Hnew & Hold).
  exists a'. split; [done|]. split; [done|]. split.
  - rewrite zlen_app, He', He. done.
  - intros i Hi. rewrite zlen_app in Hi. change (zlen [x]) with 1 in Hi.
    rewrite index_slot_of. destruct (decide (i = zlen l)) as [->|Hne].
    + rewrite <- He, Hnew, He. rewrite zget_app_r, Z.sub_diag by lia. done.
    + rewrite Hold by lia. rewrite zget_app_l by lia.
      rewrite <- index_slot_of. apply Hl. lia.
Qed.

Lemma chunked_models_set_ok a l i x :
  CA.models LOG2 a l → 0 ≤ i < zlen l → is_Some (CA.assign LOG2 i x a).
Proof.
  intros (_ & _ & Hl) Hi. specialize (Hl i Hi).
  destruct (zget_in_range l i Hi) as [y Hy]. rewrite Hy in Hl.
  unfold CA.index in Hl. unfold CA.assign.
  destruct (CA.slot_at _ _ _) as [[|w]|]; done.
Qed.

Lemma chunked_models_set_some a l i x a' :
  CA.models LOG2 a l → CA.assign LOG2 i x a = Some a' →
  CA.models LOG2 a' (zset l i x).
Proof.
  intros (Ht & He & Hl). unfold CA.assign.
  destruct (CA.slot_at _ _ _) as [[|w]|] eqn:Hs; try done. intros [= <-].
  destruct Ht as (Hwf & Htight & Hfull & Hpart).
  assert (0 ≤ i) as Hi0.
  { destruct Hwf as (Hf & _). apply (slot_at_range LOG2) in Hs as [Hc _]; [|done].
    destruct (decide (0 ≤ i)); [done|].
    assert (cidx LOG2 i < 0); [|lia]. apply ChunkIndex_lt_iff. lia. }
  split; [|split].
  - split.
    { eapply (well_formed_assign LOG2 i x a); [done|].
      unfold CA.assign. by rewrite Hs. }
    unfold CA.chunk_count in *.
    cbn [chunks elemCount m_writePtr m_chunkEnd CA.set_chunks].
    by rewrite slot_write_zlen.
  - by rewrite zlen_zset.
  - intros j Hj. rewrite zlen_zset in Hj.
    rewrite index_slot_of. unfold CA.slot_of. cbn [chunks CA.set_chunks].
    destruct (decide (i = j)) as [->|Hne].
    + erewrite slot_write_same by done. by rewrite zget_zset_eq.
    + rewrite slot_write_other, zget_zset_ne by
        (done || (intros [= ??]; apply Hne; by eapply position_inj)).
      by apply Hl.
Qed.

Lemma chunked_models_clear a l :
  CA.models LOG2 a l →
  ∃ a', CA.clear LOG2 tr a = Some a' ∧ CA.models LOG2 a' [].
Proof.
  intros ((Hwf & _) & _).
  destruct (well_formed_clear LOG2 tr a Hwf) as (a' & Ha' & Hwf' & He' & Hc').
  exists a'. split; [done|].
  pose proof (CHUNK_SIZE_pos LOG2).
  split; [|split; [done|]].
  - split; [done|]. unfold CA.chunk_count, zlen. rewrite He', Hc'.
    cbn [length]. split; [lia|]. split; [|lia].
    intros _. unfold CA.clear in Ha'.
    destruct (CA.destroy_elements _ _ _ _ _); [|done].
    by injection Ha' as <-.
  - intros i Hi. unfold zlen in Hi. cbn [length] in Hi. lia.
Qed.
End Tight.

Section TightGrow.
Context {T : Type}.
Variable LOG2 : nat.
Implicit Types (a : ChunkedArray T) (l : list T).

Lemma update_write_ptr_at_end a :
  0 ≤ elemCount a →
  let a' := CA.update_write_ptr LOG2 a in
  (elemCount a = zlen (chunks a) * csize LOG2 → m_writePtr a' = m_chunkEnd a')
  ∧ (elemCount a < zlen (chunks a) * csize LOG2 →
     m_writePtr a' = Some (cidx LOG2 (elemCount a), coff LOG2 (elemCount a))
     ∧ m_chunkEnd a' = Some (cidx LOG2 (elemCount a), csize LOG2)).
Proof.
  intros He. cbn zeta. unfold CA.update_write_ptr, CA.chunk_count.
  pose proof (ChunkIndex_lt_iff LOG2 (elemCount a) (zlen (chunks a))) as Hlt.
  case_bool_decide as Hnil.
  - rewrite Hnil. unfold zlen. cbn [length m_writePtr m_chunkEnd CA.set_cursor].
    split; [done|lia].
  - case_bool_decide; cbn [m_writePtr m_chunkEnd CA.set_cursor].
    + split; [done|lia].
    + split; [lia|done].
Qed.

(** Growing fills exactly the new logical indices. *)
Lemma fill_new_slots_flat old count v a :
  0 ≤ old < count →
  CA.chunk_count a = cidx LOG2 (count - 1) + 1 →
  CA.fill_new_slots LOG2 old count v a
  = CA.for_each (λ i, CA.construct_at (Some (cidx LOG2 i, coff LOG2 i)) v)
      (seqZ old (count - old)) a.
Proof.
  intros Hoc Hcc. unfold CA.fill_new_slots, CA.construct_range. rewrite Hcc.
  assert (cidx LOG2 old ≤ cidx LOG2 (count - 1)) as Hle
    by (apply ChunkIndex_mono; lia).
  pose proof (chunk_loop_flat LOG2 (λ c o, CA.construct_at (Some (c, o)) v)
    old count (Z.to_nat (cidx LOG2 (count - 1) + 1 - cidx LOG2 old))
    (cidx LOG2 old) a Hoc) as Hflat.
  rewrite Z2Nat.id in Hflat by lia.
  rewrite Hflat by lia.
  pose proof (index_split LOG2 old). pose proof (OffsetIndex_range LOG2 old).
  by rewrite Z.max_l by lia.
Qed.

Lemma chunked_models_ensure_size dflt a l n :
  CA.models LOG2 a l →
  ∃ a' l', CA.ensure_size LOG2 dflt n a = Some a' ∧ CA.models LOG2 a' l'
           ∧ zlen l' = Z.max (zlen l) n
           ∧ ∀ i, 0 ≤ i < zlen l → zget l' i = zget l i.
Proof.
  intros Hm. pose proof Hm as (Ht & He & Hl). unfold CA.ensure_size.
  case_bool_decide as Hn.
  { exists a, l. split; [done|]. split; [done|]. split; [lia|done]. }
  destruct Ht as (Hwf & Htight & _). pose proof Hwf as (Hf & Hsz & _).
  unfold CA.chunk_count in *.
  pose proof (CHUNK_SIZE_pos LOG2) as Hpos.
  pose proof (zlen_nonneg (chunks a)) as Hznn.
  set (a1 := CA.allocate_chunks_for LOG2 n (CA.set_elemCount n a)).
  assert (0 ≤ cidx LOG2 (n - 1)) as Hcn by (apply ChunkIndex_nonneg; lia).
  assert (zlen (chunks a) ≤ cidx LOG2 (n - 1) + 1) as Hroom.
  { destruct (decide (zlen (chunks a) = 0)); [lia|].
    assert (zlen (chunks a) - 1 ≤ cidx LOG2 (n - 1)); [|lia].
    apply ChunkIndex_le_iff. nia. }
  assert (chunks a1 = CA.grow_chunks LOG2 (cidx LOG2 (n - 1) + 1) (chunks a)
          ∧ elemCount a1 = n ∧ events a1 = events a) as (Hc1 & He1 & Hev1).
  { unfold a1, CA.allocate_chunks_for. by rewrite bool_decide_false by lia. }
  assert (zlen (chunks a1) = cidx LOG2 (n - 1) + 1) as Hz1.
  { rewrite Hc1, grow_chunks_zlen. lia. }
  assert (CA.full_chunks LOG2 (chunks a1)) as Hf1.
  { rewrite Hc1. by apply grow_chunks_full. }
  assert (n ≤ zlen (chunks a1) * csize LOG2) as Hfit.
  { assert (n - 1 < zlen (chunks a1) * csize LOG2); [|lia].
    apply ChunkIndex_lt_iff. lia. }
  rewrite fill_new_slots_flat by (done || lia).
  destruct (write_indices_spec LOG2 (λ c o, CA.construct_at (Some (c, o)) dflt)
              (Live dflt) EvConstruct (seqZ (elemCount a) (n - elemCount a)) a1)
    as (a2 & -> & He2 & _ & _ & Hz2 & Hf2 & Hslots & _).
  { apply construct_at_writer. }
  { done. }
  { apply NoDup_seqZ. }
  { intros i [??]%elem_of_seqZ. lia. }
  cbn [mbind option_bind].
  exists (CA.update_write_ptr LOG2 a2),
         (l ++ replicate (Z.to_nat (n - elemCount a)) dflt).
  split; [done|].
  assert (zlen (l ++ replicate (Z.to_nat (n - elemCount a)) dflt) = n) as Hlen.
  { rewrite zlen_app, zlen_replicate. lia. }
  split; [split; [|split]|split].
  - split.
    { apply well_formed_update_write_ptr; [done|]. rewrite Hz2, He2, He1. lia. }
    unfold CA.chunk_count.
    rewrite update_write_ptr_chunks, update_write_ptr_elemCount, Hz2, He2, He1, Hz1.
    split.
    { assert (cidx LOG2 (n - 1) * csize LOG2 ≤ n - 1); [|lia].
      apply ChunkIndex_le_iff. lia. }
    rewrite <- Hz1, <- Hz2, <- He1, <- He2.
    apply update_write_ptr_at_end. lia.
  - by rewrite update_write_ptr_elemCount, He2, He1.
  - intros i Hi. rewrite Hlen in Hi.
    rewrite index_slot_of, update_write_ptr_slot_of, Hslots by lia.
    destruct (decide (i ∈ seqZ _ _)) as [Hin|Hin]; rewrite elem_of_seqZ in Hin.
    + rewrite zget_app_r by lia. symmetry. apply zget_replicate. lia.
    + rewrite zget_app_l by lia. rewrite <- Hl by lia.
      rewrite index_slot_of. unfold CA.slot_of. rewrite Hc1.
      rewrite grow_chunks_slot_at; [done|]. apply ChunkIndex_lt_iff. lia.
  - lia.
  - intros i Hi. apply zget_app_l. lia.
Qed.
End TightGrow.

(** ** Both container kinds satisfy the storage laws *)

Lemma chunked_laws {A : Type} (LOG2 : nat) (tr : bool) (dflt : A) :
  @StorageLaws A (ChunkedArray A) (chunked_storage LOG2 tr dflt).
Proof.
  split; cbn [st_models st_usable st_empty st_size st_get st_set st_emplace_back
              st_pop_back st_clear st_ensure_size chunked_storage].
  - by intros c l ((? & _) & _).
  - apply chunked_models_empty.
  - by intros c l (_ & ? & _).
  - by intros c l i (_ & _ & Hl) Hi; apply Hl.
  - intros. by eapply chunked_models_set_ok.
  - intros. by eapply chunked_models_set_some.
  - intros. by apply chunked_models_emplace_back.
  - intros. by eapply chunked_models_clear.
  - intros. by apply chunked_models_ensure_size.
  - intros c x Hc. by apply well_formed_emplace_back.
  - intros c c' Hc Hp. by eapply well_formed_pop_back.
  - intros c c' i x Hc Hs. by eapply well_formed_assign.
  - intros c Hc. destruct (well_formed_clear LOG2 tr c Hc) as (c' & ? & ? & ? & _).
    by exists c'.
Qed.

Lemma vector_laws {A : Type} (value_init : A) :
  @StorageLaws A (list A) (Vec.storage value_init).
Proof.
  split; cbn [st_models st_usable st_empty st_size st_get st_set st_emplace_back
              st_pop_back st_clear st_ensure_size Vec.storage].
  - done.
  - done.
  - by intros c l ->.
  - by intros c l i -> _.
  - intros c l i x -> Hi. unfold Vec.set. by rewrite bool_decide_true.
  - intros c l i x c' ->. unfold Vec.set. case_bool_decide; [|done].
    by intros [= <-].
  - intros c l x ->. by eexists.
  - intros c l ->. by eexists.
  - intros c l n ->. unfold Vec.ensure_size, Vec.resize.
    case_bool_decide as Hn.
    + eexists _, _. split; [done|]. split; [done|].
      unfold zlen in *.
      rewrite take_ge by lia. rewrite length_app, length_replicate.
      split; [lia|]. intros i Hi. apply zget_app_l. unfold zlen. lia.
    + eexists _, _. split; [done|]. split; [done|]. split; [lia|done].
  - intros c x _. eexists. split; [done|]. split; [done|].
    unfold Vec.size. rewrite zlen_app. done.
  - intros c c' _. unfold Vec.pop_back. case_bool_decide as Hnil; [done|].
    intros [= <-]. split; [done|]. unfold Vec.size, zlen.
    rewrite length_take. destruct c; [done|]. cbn [length]. lia.
  - intros c c' i x _. unfold Vec.set. case_bool_decide; [|done].
    intros [= <-]. split; [done|]. apply zlen_zset.
  - intros c _. by eexists.
Qed.

(** ** Entity handles *)

Section EntityFacts.
Implicit Types (e : Entity) (i v : Z).

Lemma INDEX_MASK_ones : EntityTraits.INDEX_MASK = Z.ones 20.
Proof. reflexivity. Qed.

Lemma VERSION_MASK_ones : EntityTraits.VERSION_MASK = Z.ones 12.
Proof. reflexivity. Qed.

Lemma INVALID_INDEX_val : EntityTraits.INVALID_INDEX = 1048575.
Proof. reflexivity. Qed.

Lemma VERSION_BITS_val : EntityTraits.VERSION_BITS = 12.
Proof. reflexivity. Qed.

Lemma EntityToIndex_mod e : EntityToIndex e = id e mod 1048576.
Proof.
  unfold EntityToIndex, EntityToIntegral. rewrite INDEX_MASK_ones.
  by rewrite Z.land_ones by lia.
Qed.

Lemma EntityToVersion_mod e : EntityToVersion e = (id e / 1048576) mod 4096.
Proof.
  unfold EntityToVersion, EntityToIntegral. rewrite VERSION_MASK_ones.
  rewrite Z.land_ones by lia.
  change EntityTraits.INDEX_BITS with 20. by rewrite Z.shiftr_div_pow2 by lia.
Qed.

Lemma EntityToIndex_range e : 0 ≤ EntityToIndex e < 1048576.
Proof. rewrite EntityToIndex_mod. by apply Z.mod_pos_bound. Qed.

Lemma EntityToVersion_range e : 0 ≤ EntityToVersion e < 4096.
Proof. rewrite EntityToVersion_mod. by apply Z.mod_pos_bound. Qed.

(** The shifted version and the masked index share no bit, so the
  bitwise or of [ComposeEntity] adds them. *)
Lemma ComposeEntity_id i v :
  id (ComposeEntity i v) = (v mod 4096) * 1048576 + i mod 1048576.
Proof.
  unfold ComposeEntity. cbn [id].
  rewrite INDEX_MASK_ones. change EntityTraits.INDEX_BITS with 20.
  assert (wrap32 (Z.shiftl v 20) = (v mod 4096) * 1048576) as ->.
  { unfold wrap32. rewrite Z.shiftl_mul_pow2 by lia.
    change (2 ^ 32) with (4096 * 2 ^ 20).
    rewrite Z.mul_mod_distr_r by lia. done. }
  pose proof (Z.add_lor_land (v mod 4096 * 1048576) (Z.land i (Z.ones 20))) as Hadd.
  assert (Z.land (v mod 4096 * 1048576) (Z.land i (Z.ones 20)) = 0) as Hdisj.
  { rewrite (Z.land_comm i), Z.land_assoc.
    rewrite (Z.land_ones (_ * _)) by lia.
    change (2 ^ 20) with 1048576. rewrite Z.mod_mul by lia.
    apply Z.land_0_l. }
  rewrite Hdisj in Hadd.
  rewrite Z.land_ones in * by lia. change (2 ^ 20) with 1048576 in *. lia.
Qed.

Lemma EntityToIndex_Compose i v :
  EntityToIndex (ComposeEntity i v) = i mod 1048576.
Proof.
  rewrite EntityToIndex_mod, ComposeEntity_id.
  rewrite Z.add_comm, Z.mod_add by lia. by rewrite Z.mod_mod by lia.
Qed.

Lemma EntityToVersion_Compose i v :
  EntityToVersion (ComposeEntity i v) = v mod 4096.
Proof.
  rewrite EntityToVersion_mod, ComposeEntity_id.
  rewrite Z.div_add_l by lia.
  rewrite (Z.div_small (i mod 1048576)) by (by apply Z.mod_pos_bound).
  rewrite Z.add_0_r. by rewrite Z.mod_mod by lia.
Qed.

Lemma EntityToIndex_Null : EntityToIndex NullEntity = EntityTraits.INVALID_INDEX.
Proof. reflexivity. Qed.

Lemma IsNullEntity_true e : IsNullEntity e = true ↔ e = NullEntity.
Proof. unfold IsNullEntity. apply bool_decide_eq_true. Qed.

Lemma IsNullEntity_false e : IsNullEntity e = false ↔ e ≠ NullEntity.
Proof. unfold IsNullEntity. apply bool_decide_eq_false. Qed.

Lemma ComposeEntity_not_null i v :
  0 ≤ i < EntityTraits.INVALID_INDEX → ComposeEntity i v ≠ NullEntity.
Proof.
  rewrite INVALID_INDEX_val. intros Hi Hnull.
  pose proof (EntityToIndex_Compose i v) as Hidx.
  rewrite Hnull, EntityToIndex_Null, INVALID_INDEX_val in Hidx.
  rewrite Z.mod_small in Hidx by lia. lia.
Qed.

Lemma NextEntityVersion_live e :
  e ≠ NullEntity →
  NextEntityVersion e = (EntityToVersion e + 1) mod 2 ^ EntityTraits.VERSION_BITS.
Proof.
  intros Hne%IsNullEntity_false. unfold NextEntityVersion. rewrite Hne.
  rewrite VERSION_MASK_ones, Z.land_ones, VERSION_BITS_val by lia.
  pose proof (EntityToVersion_range e). unfold wrap32.
  by rewrite (Z.mod_small (_ + 1)) by lia.
Qed.

Lemma NextEntityVersion_range e : 0 ≤ NextEntityVersion e < 4096.
Proof.
  unfold NextEntityVersion. destruct (IsNullEntity e).
  - apply EntityToVersion_range.
  - rewrite VERSION_MASK_ones, Z.land_ones by lia. by apply Z.mod_pos_bound.
Qed.

Lemma NextEntityVersion_changes e :
  e ≠ NullEntity → NextEntityVersion e ≠ EntityToVersion e.
Proof.
  intros Hne. rewrite NextEntityVersion_live, VERSION_BITS_val by done.
  pose proof (EntityToVersion_range e) as Hr.
  change (2 ^ 12) with 4096.
  destruct (decide (EntityToVersion e + 1 < 4096)).
  - rewrite Z.mod_small by lia. lia.
  - assert (EntityToVersion e + 1 = 4096) as -> by lia.
    rewrite Z.mod_same by lia. lia.
Qed.
End EntityFacts.

(** ** The free list *)

Section FreeList.
Implicit Types (es : list Entity) (fl : list Z) (head i : Z).

Lemma free_chain_range es head fl i :
  Reg.free_chain es head fl → i ∈ fl → 0 ≤ i < zlen es.
Proof.
  revert head. induction fl as [|j fl IH]; intros head Hc Hi.
  - by apply elem_of_nil in Hi.
  - destruct Hc as (-> & h & Hh & Hc).
    apply elem_of_cons in Hi as [->|Hi]; [by eapply zget_Some_range|eauto].
Qed.

Lemma free_chain_frame es es' head fl :
  (∀ i, i ∈ fl → zget es' i = zget es i) →
  Reg.free_chain es head fl → Reg.free_chain es' head fl.
Proof.
  revert head. induction fl as [|j fl IH]; intros head Heq Hc; [done|].
  destruct Hc as (-> & h & Hh & Hc). split; [done|]. exists h. split.
  - rewrite Heq; [done|by left].
  - apply IH; [|done]. intros. apply Heq. by right.
Qed.

Lemma free_chain_head es head fl :
  Reg.free_chain es head fl → zlen es ≤ EntityTraits.INVALID_INDEX →
  0 ≤ head ≤ EntityTraits.INVALID_INDEX
  ∧ (head = EntityTraits.INVALID_INDEX ∨ head ∈ fl).
Proof.
  intros Hc Hlen. destruct fl as [|j fl].
  - cbn in Hc. subst. split; [|by left]. by rewrite INVALID_INDEX_val.
  - pose proof (free_chain_range es head (j :: fl) j Hc) as Hj.
    destruct Hc as (-> & _). split; [|right; by left].
    specialize (Hj ltac:(by left)). lia.
Qed.

(** No free slot points at itself, so no handle read from a free slot
  passes for the handle of that slot. *)
Lemma free_chain_no_self es head fl i h :
  zlen es ≤ EntityTraits.INVALID_INDEX → NoDup fl →
  Reg.free_chain es head fl → i ∈ fl → zget es i = Some h →
  EntityToIndex h ≠ i.
Proof.
  intros Hlen. revert head. induction fl as [|j fl IH]; intros head Hnd Hc Hi Hh.
  - by apply elem_of_nil in Hi.
  - apply NoDup_cons in Hnd as [Hj Hnd].
    destruct Hc as (-> & h' & Hh' & Hc).
    apply elem_of_cons in Hi as [->|Hi]; [|by eapply IH].
    assert (h' = h) as -> by congruence.
    destruct (free_chain_head es _ fl Hc Hlen) as [_ [Hinv|Hin]].
    + apply zget_Some_range in Hh. lia.
    + by intros <-.
Qed.

Lemma free_list_bound (n : Z) fl :
  NoDup fl → (∀ i, i ∈ fl → 0 ≤ i < n) → zlen fl ≤ Z.max n 0.
Proof.
  intros Hnd Hin.
  assert (fl ⊆+ seqZ 0 n) as Hsub%submseteq_length.
  { apply NoDup_submseteq; [done|]. intros i Hi. apply elem_of_seqZ.
    specialize (Hin i Hi). lia. }
  rewrite length_seqZ in Hsub. unfold zlen. lia.
Qed.

Lemma free_list_room (n : Z) fl i0 :
  NoDup fl → (∀ i, i ∈ fl → 0 ≤ i < n) → 0 ≤ i0 < n → i0 ∉ fl → zlen fl < n.
Proof.
  intros Hnd Hin Hi0 Hnot.
  pose proof (free_list_bound n (i0 :: fl)) as Hb.
  unfold zlen in *. cbn [length] in Hb.
  assert (Z.of_nat (S (length fl)) ≤ Z.max n 0); [|lia].
  apply Hb; [by apply NoDup_cons|].
  intros i [->|Hi]%elem_of_cons; [done|by apply Hin].
Qed.
End FreeList.

(** ** Component storages move in step *)

Section StorageSteps.
Context {V CE CS CV : Type}.
Context {SE : Storage Entity CE} {SS : Storage Z CS} {SV : Storage V CV}.
Hypothesis LE : StorageLaws Entity CE.
Hypothesis LS : StorageLaws Z CS.
Hypothesis LV : StorageLaws V CV.
Variable dc : V.
Implicit Types (s : Reg.ComponentStorage (CE:=CE) (CS:=CS) (CV:=CV)).
Implicit Types (dense : CE) (sparse : CS).

Lemma Init_inv live dense sparse idx e s :
  0 ≤ idx → Reg.storage_inv live dense sparse s →
  ∃ s' dense' sparse',
    Reg.Init dc idx e s = Some s' ∧ Reg.storage_inv (live + 1) dense' sparse' s'.
Proof.
  intros Hidx (Hd & Hs & Hu & Hsz & Hud & Hszd & spl & Hm).
  destruct (usable_emplace_back _ _ LV (Reg.data s) dc Hu) as (d & Hd' & Hud' & Hszd').
  destruct (usable_emplace_back _ _ LE dense e Hud) as (e' & He' & Hue' & Hsze').
  destruct (models_ensure_size _ _ LS sparse spl (idx + 1) Hm)
    as (i & spl' & Hi & Hmi & Hlen & _).
  destruct (models_set_ok _ _ LS i spl' idx (wrap32 (st_size (Reg.data s))) Hmi)
    as [i' Hi']; [lia|].
  pose proof (models_set_some _ _ LS _ _ _ _ _ Hmi Hi') as Hmi'.
  exists (Reg.mkComponentStorage d e' i'), e', i'. split.
  - unfold Reg.Init, Reg.EnsureSparseSlot. rewrite Hd, Hs, Hd', He', Hi.
    cbn [mbind option_bind]. by rewrite Hi'.
  - unfold Reg.storage_inv. cbn [Reg.data Reg.slotToEntity Reg.indexToSlot].
    repeat split; try done; try lia. by eexists.
Qed.

Lemma Init_agree live dense sparse idx e s1 s2 s1' s2' :
  Reg.storage_inv live dense sparse s1 → Reg.storage_inv live dense sparse s2 →
  Reg.Init dc idx e s1 = Some s1' → Reg.Init dc idx e s2 = Some s2' →
  Reg.slotToEntity s1' = Reg.slotToEntity s2'
  ∧ Reg.indexToSlot s1' = Reg.indexToSlot s2'.
Proof.
  intros (Hd1 & Hs1 & _ & Hz1 & _) (Hd2 & Hs2 & _ & Hz2 & _).
  unfold Reg.Init. rewrite Hd1, Hs1, Hz1, Hd2, Hs2, Hz2. intros H1 H2.
  by simplify_option_eq.
Qed.

Lemma Kill_inv live dense sparse idx s s' :
  Reg.storage_inv live dense sparse s → Reg.Kill idx s = Some s' →
  ∃ dense' sparse', Reg.storage_inv (live - 1) dense' sparse' s'.
Proof.
  intros (Hd & Hs & Hu & Hsz & Hud & Hszd & spl & Hm). unfold Reg.Kill.
  rewrite Hd, Hs. intros Hk.
  destruct (st_get sparse idx) as [slot|]; [|done]. cbn [mbind option_bind] in Hk.
  case_bool_decide as Hlast; cbn [mbind option_bind] in Hk.
  - destruct (st_pop_back (Reg.data s)) as [d|] eqn:Hpd; [|done].
    cbn [mbind option_bind] in Hk. rewrite Hd in Hk.
    destruct (st_pop_back dense) as [e|] eqn:Hpe; [|done].
    injection Hk as <-. rewrite Hs.
    destruct (usable_pop_back _ _ LV _ _ Hu Hpd) as [? ?].
    destruct (usable_pop_back _ _ LE _ _ Hud Hpe) as [? ?].
    exists e, sparse. unfold Reg.storage_inv.
    cbn [Reg.data Reg.slotToEntity Reg.indexToSlot].
    repeat split; try done; try lia. by eexists.
  - destruct (st_get (Reg.data s) _) as [moved|]; [|done].
    cbn [mbind option_bind] in Hk.
    destruct (st_set slot moved (Reg.data s)) as [d1|] eqn:Hsd; [|done].
    cbn [mbind option_bind] in Hk.
    destruct (st_get dense _) as [movedEntity|]; [|done].
    cbn [mbind option_bind] in Hk.
    destruct (st_set slot movedEntity dense) as [e1|] eqn:Hse; [|done].
    cbn [mbind option_bind] in Hk.
    destruct (st_set _ _ sparse) as [i1|] eqn:Hsi; [|done].
    cbn [mbind option_bind Reg.data Reg.slotToEntity Reg.indexToSlot] in Hk.
    destruct (st_pop_back d1) as [d|] eqn:Hpd; [|done].
    cbn [mbind option_bind] in Hk.
    destruct (st_pop_back e1) as [e|] eqn:Hpe; [|done].
    injection Hk as <-.
    destruct (usable_set _ _ LV _ _ _ _ Hu Hsd) as [Hu1 Hz1].
    destruct (usable_set _ _ LE _ _ _ _ Hud Hse) as [Hue1 Hze1].
    destruct (usable_pop_back _ _ LV _ _ Hu1 Hpd) as [? ?].
    destruct (usable_pop_back _ _ LE _ _ Hue1 Hpe) as [? ?].
    pose proof (models_set_some _ _ LS _ _ _ _ _ Hm Hsi).
    exists e, i1. unfold Reg.storage_inv.
    cbn [Reg.data Reg.slotToEntity Reg.indexToSlot].
    repeat split; try done; try lia. by eexists.
Qed.

Lemma Kill_agree live dense sparse idx s1 s2 s1' s2' :
  Reg.storage_inv live dense sparse s1 → Reg.storage_inv live dense sparse s2 →
  Reg.Kill idx s1 = Some s1' → Reg.Kill idx s2 = Some s2' →
  Reg.slotToEntity s1' = Reg.slotToEntity s2'
  ∧ Reg.indexToSlot s1' = Reg.indexToSlot s2'.
Proof.
  intros (Hd1 & Hs1 & _ & Hz1 & _) (Hd2 & Hs2 & _ & Hz2 & _).
  destruct s1 as [d1 e1 i1], s2 as [d2 e2 i2].
  cbn [Reg.data Reg.slotToEntity Reg.indexToSlot] in *. subst e1 i1 e2 i2.
  unfold Reg.Kill. cbn [Reg.data Reg.slotToEntity Reg.indexToSlot].
  rewrite Hz1, Hz2. intros H1 H2.
  destruct (st_get sparse idx) as [slot|]; [|done]. cbn [mbind option_bind] in *.
  case_bool_decide; by simplify_option_eq.
Qed.

Lemma StorageSet_inv live dense sparse idx v s s' :
  Reg.storage_inv live dense sparse s → Reg.StorageSet idx v s = Some s' →
  Reg.storage_inv live dense sparse s'.
Proof.
  intros (Hd & Hs & Hu & Hsz & Hud & Hszd & Hspl). unfold Reg.StorageSet.
  intros Hset.
  destruct (st_get _ idx) as [slot|]; [|done]. cbn [mbind option_bind] in Hset.
  destruct (st_set slot v _) as [d|] eqn:Hsd; [|done]. injection Hset as <-.
  destruct (usable_set _ _ LV _ _ _ _ Hu Hsd) as [? ?].
  unfold Reg.storage_inv. cbn [Reg.data Reg.slotToEntity Reg.indexToSlot].
  repeat split; try done. lia.
Qed.

Lemma StorageClear_inv live dense sparse s s' :
  Reg.storage_inv live dense sparse s → Reg.StorageClear s = Some s' →
  ∃ dense' sparse', Reg.storage_inv 0 dense' sparse' s'.
Proof.
  intros (Hd & Hs & Hu & Hsz & Hud & Hszd & spl & Hm). unfold Reg.StorageClear.
  rewrite Hd, Hs.
  destruct (usable_clear _ _ LV _ Hu) as (d & -> & ? & ?).
  destruct (usable_clear _ _ LE _ Hud) as (e & -> & ? & ?).
  destruct (models_clear _ _ LS _ _ Hm) as (i & -> & ?).
  cbn [mbind option_bind]. intros [= <-]. exists e, i.
  unfold Reg.storage_inv. cbn [Reg.data Reg.slotToEntity Reg.indexToSlot].
  repeat split; try done. by eexists.
Qed.

Lemma StorageClear_ok live dense sparse s :
  Reg.storage_inv live dense sparse s → is_Some (Reg.StorageClear s).
Proof.
  intros (Hd & Hs & Hu & Hsz & Hud & Hszd & spl & Hm). unfold Reg.StorageClear.
  rewrite Hd, Hs.
  destruct (usable_clear _ _ LV _ Hu) as (d & -> & ? & ?).
  destruct (usable_clear _ _ LE _ Hud) as (e & -> & ? & ?).
  destruct (models_clear _ _ LS _ _ Hm) as (i & -> & ?).
  by eexists.
Qed.

Lemma StorageClear_agree live dense sparse s1 s2 s1' s2' :
  Reg.storage_inv live dense sparse s1 → Reg.storage_inv live dense sparse s2 →
  Reg.StorageClear s1 = Some s1' → Reg.StorageClear s2 = Some s2' →
  Reg.slotToEntity s1' = Reg.slotToEntity s2'
  ∧ Reg.indexToSlot s1' = Reg.indexToSlot s2'.
Proof.
  intros (Hd1 & Hs1 & _) (Hd2 & Hs2 & _).
  unfold Reg.StorageClear. rewrite Hd1, Hs1, Hd2, Hs2. intros H1 H2.
  by simplify_option_eq.
Qed.

(** A step every storage takes alike keeps the storages alike. *)
Lemma for_each_tuple_inv fn live live' dense sparse ss ss' :
  Reg.for_each_tuple fn ss = Some ss' →
  Forall (Reg.storage_inv live dense sparse) ss →
  (∀ s s', Reg.storage_inv live dense sparse s → fn s = Some s' →
     ∃ dense' sparse', Reg.storage_inv live' dense' sparse' s') →
  (∀ s1 s2 s1' s2',
     Reg.storage_inv live dense sparse s1 → Reg.storage_inv live dense sparse s2 →
     fn s1 = Some s1' → fn s2 = Some s2' →
     Reg.slotToEntity s1' = Reg.slotToEntity s2'
     ∧ Reg.indexToSlot s1' = Reg.indexToSlot s2') →
  ∃ dense' sparse', Forall (Reg.storage_inv live' dense' sparse') ss'.
Proof.
  unfold Reg.for_each_tuple. intros Hm%mapM_Some Hall Hstep Hagree.
  destruct Hm as [|s0 s0' ss ss' H0 Hm]; [by exists dense, sparse|].
  apply Forall_cons in Hall as [Hs0 Hall].
  destruct (Hstep _ _ Hs0 H0) as (d' & sp' & Hinv0).
  exists d', sp'. apply Forall_cons. split; [done|].
  induction Hm as [|s s' ss ss' Hs Hm IH]; [done|].
  apply Forall_cons in Hall as [Hsi Hall].
  apply Forall_cons. split; [|by apply IH].
  destruct (Hstep _ _ Hsi Hs) as (d'' & sp'' & Hinv).
  destruct (Hagree _ _ _ _ Hs0 Hsi H0 Hs) as [Hde Hsp].
  destruct Hinv0 as (Hd0 & Hsp0 & _), Hinv as (Hdi & Hspi & Hrest).
  assert (d'' = d') as -> by congruence.
  assert (sp'' = sp') as -> by congruence.
  exact (conj Hdi (conj Hspi Hrest)).
Qed.

Lemma for_each_tuple_ok fn live dense sparse ss :
  Forall (Reg.storage_inv live dense sparse) ss →
  (∀ s, Reg.storage_inv live dense sparse s → is_Some (fn s)) →
  is_Some (Reg.for_each_tuple fn ss).
Proof.
  intros Hall Hok. unfold Reg.for_each_tuple. apply mapM_is_Some.
  eapply Forall_impl; [done|]. intros s Hs. by apply Hok.
Qed.
End StorageSteps.

(** ** Registry operations keep the invariant *)

Lemma wrap32_small x : 0 ≤ x < 2 ^ 32 → wrap32 x = x.
Proof. intros. unfold wrap32. by apply Z.mod_small. Qed.

Lemma wrap64_small x : 0 ≤ x < 2 ^ 64 → wrap64 x = x.
Proof. intros. unfold wrap64. by apply Z.mod_small. Qed.

Section RegistrySteps.
Context {V CE CS CV : Type}.
Context {SE : Storage Entity CE} {SS : Storage Z CS} {SV : Storage V CV}.
Hypothesis LE : StorageLaws Entity CE.
Hypothesis LS : StorageLaws Z CS.
Hypothesis LV : StorageLaws V CV.
Variable dc : V.
Implicit Types (r : Reg.Registry (CE:=CE) (CS:=CS) (CV:=CV)).
Implicit Types (es : list Entity) (fl : list Z) (dense : CE) (sparse : CS).
Implicit Types (e : Entity).

(** A handle is live in a table when its slot holds exactly it. *)
Lemma describes_size es fl dense sparse r :
  Reg.describes es fl dense sparse r → st_size (Reg.entities r) = zlen es.
Proof. intros (Hm & _). by apply (models_size _ _ LE). Qed.

Lemma describes_free_fits es fl dense sparse r :
  Reg.describes es fl dense sparse r → 0 ≤ zlen fl ≤ zlen es.
Proof.
  intros (_ & _ & Hc & Hnd & _). split; [apply zlen_nonneg|].
  pose proof (free_list_bound (zlen es) fl Hnd) as Hb.
  pose proof (zlen_nonneg es).
  rewrite Z.max_l in Hb by lia. apply Hb. intros. by eapply free_chain_range.
Qed.

Lemma describes_live_not_free es fl dense sparse r e :
  Reg.describes es fl dense sparse r →
  zget es (EntityToIndex e) = Some e → EntityToIndex e ∉ fl.
Proof.
  intros (_ & Hlen & Hc & Hnd & _) He Hin.
  by eapply (free_chain_no_self es _ fl (EntityToIndex e) e).
Qed.

Lemma IsValidEntity_describes es fl dense sparse r e :
  Reg.describes es fl dense sparse r →
  Reg.IsValidEntity r e
  = Some (bool_decide (e ≠ NullEntity ∧ zget es (EntityToIndex e) = Some e)).
Proof.
  intros Hd. pose proof Hd as (Hm & _). unfold Reg.IsValidEntity.
  rewrite (describes_size _ _ _ _ _ Hd).
  destruct (IsNullEntity e) eqn:Hnull.
  { apply IsNullEntity_true in Hnull. f_equal. symmetry.
    apply bool_decide_eq_false. by intros [? _]. }
  apply IsNullEntity_false in Hnull.
  pose proof (EntityToIndex_range e) as Hr.
  case_bool_decide as Hoob.
  { f_equal. symmetry. apply bool_decide_eq_false. intros [_ Hg].
    apply zget_Some_range in Hg. lia. }
  rewrite (models_get _ _ LE _ _ _ Hm) by lia.
  destruct (zget es (EntityToIndex e)) as [cur|] eqn:Hcur.
  - cbn [mbind option_bind]. f_equal. apply bool_decide_ext.
    split; [by intros ->|]. by intros [_ [= ->]].
  - exfalso. destruct (zget_in_range es (EntityToIndex e)) as [? ?]; [lia|congruence].
Qed.

Lemma CheckEntity_live es fl dense sparse r e :
  Reg.describes es fl dense sparse r →
  e ≠ NullEntity → zget es (EntityToIndex e) = Some e →
  Reg.CheckEntity r e = Ok tt r.
Proof.
  intros Hd Hnull He. pose proof Hd as (Hm & _). unfold Reg.CheckEntity.
  apply IsNullEntity_false in Hnull. rewrite Hnull.
  rewrite (describes_size _ _ _ _ _ Hd).
  pose proof (zget_Some_range _ _ _ He).
  rewrite bool_decide_false by lia.
  rewrite (models_get _ _ LE _ _ _ Hm), He by lia.
  by rewrite bool_decide_false by (by intros ?).
Qed.

Lemma CheckEntity_not_live es fl dense sparse r e :
  Reg.describes es fl dense sparse r →
  ¬ (e ≠ NullEntity ∧ zget es (EntityToIndex e) = Some e) →
  ∃ err, Reg.CheckEntity r e = Throw err r ∧ is_invalid_entity err = true.
Proof.
  intros Hd Hnot. pose proof Hd as (Hm & _). unfold Reg.CheckEntity.
  destruct (IsNullEntity e) eqn:Hnull; [by eexists|].
  apply IsNullEntity_false in Hnull.
  rewrite (describes_size _ _ _ _ _ Hd).
  pose proof (EntityToIndex_range e) as Hr.
  case_bool_decide as Hoob; [by eexists|].
  rewrite (models_get _ _ LE _ _ _ Hm) by lia.
  destruct (zget_in_range es (EntityToIndex e)) as [cur Hcur]; [lia|].
  rewrite Hcur. case_bool_decide as Hne; [by eexists|].
  exfalso. apply Hnot. split; [done|]. by subst.
Qed.

Lemma new_registry_describes n :
  Reg.describes [] [] st_empty st_empty (Reg.new_registry (SV:=SV) n).
Proof.
  pose proof (models_empty _ _ LE) as HmE.
  pose proof (models_empty _ _ LS) as HmS.
  pose proof (models_empty _ _ LV) as HmV.
  split; [done|]. split; [by rewrite INVALID_INDEX_val|].
  split; [done|]. split; [constructor|]. split; [done|].
  cbn [Reg.storages Reg.new_registry]. apply Forall_replicate.
  unfold Reg.storage_inv, Reg.empty_storage.
  cbn [Reg.data Reg.slotToEntity Reg.indexToSlot].
  split; [done|]. split; [done|].
  split; [by eapply models_usable|].
  split; [by rewrite (models_size _ _ LV _ _ HmV)|].
  split; [by eapply models_usable|].
  split; [by rewrite (models_size _ _ LE _ _ HmE)|].
  by eexists.
Qed.

Lemma CreateEntity_reuse es i fl dense sparse r :
  Reg.describes es (i :: fl) dense sparse r →
  ∃ head r' dense' sparse',
    zget es i = Some head
    ∧ Reg.fNext r = i
    ∧ Reg.CreateEntity dc r = Ok (ComposeEntity i (EntityToVersion head)) r'
    ∧ Reg.describes (zset es i (ComposeEntity i (EntityToVersion head))) fl
        dense' sparse' r'.
Proof.
  intros Hd. pose proof (describes_free_fits _ _ _ _ _ Hd) as Hfit.
  destruct Hd as (Hm & Hlen & (Hnext & head & Hhead & Hchain) & Hnd & Hfs & Hst).
  apply NoDup_cons in Hnd as [Hi Hnd].
  pose proof (zget_Some_range _ _ _ Hhead) as Hir.
  unfold zlen in Hfs, Hfit. cbn [length] in Hfs, Hfit.
  rewrite INVALID_INDEX_val in Hlen.
  set (e := ComposeEntity i (EntityToVersion head)).
  destruct (models_set_ok _ _ LE _ _ i e Hm Hir) as [ents Hents].
  pose proof (models_set_some _ _ LE _ _ _ _ _ Hm Hents) as Hm'.
  destruct (for_each_tuple_ok (Reg.Init dc i e) _ dense sparse _ Hst) as [ss Hss].
  { intros s Hs. destruct (Init_inv LE LS LV dc _ _ _ i e s (proj1 Hir) Hs)
      as (s' & ? & ? & -> & _). by eexists. }
  destruct (for_each_tuple_inv _ _ (zlen es - zlen (i :: fl) + 1)
              _ _ _ _ Hss Hst) as (dense' & sparse' & Hst').
  { intros s s' Hs Hs'. destruct (Init_inv LE LS LV dc _ _ _ i e s (proj1 Hir) Hs)
      as (s'' & d' & sp' & Hs'' & Hinv). exists d', sp'.
    assert (s'' = s') as <- by congruence. done. }
  { intros s1 s2 s1' s2' H1 H2 H3 H4.
    exact (Init_agree dc _ _ _ _ _ s1 s2 s1' s2' H1 H2 H3 H4). }
  exists head, (Reg.mkRegistry ents (EntityToIndex head)
                  (wrap32 (Reg.fSize r - 1)) ss), dense', sparse'.
  split; [done|]. split; [done|]. split.
  - unfold Reg.CreateEntity. rewrite bool_decide_true by lia.
    rewrite Hnext, (models_get _ _ LE _ _ _ Hm), Hhead by done.
    fold e. rewrite Hents.
    rewrite (models_get _ _ LE _ _ _ Hm'), zget_zset_eq by (by rewrite ?zlen_zset).
    by rewrite Hss.
  - split; [done|]. cbn [Reg.entities Reg.fNext Reg.fSize Reg.storages].
    rewrite zlen_zset, INVALID_INDEX_val. split; [done|]. split.
    { eapply free_chain_frame; [|done]. intros j Hj. apply zget_zset_ne.
      by intros ->. }
    split; [done|]. split.
    { rewrite Hfs. unfold zlen in *. rewrite wrap32_small by lia. lia. }
    replace (zlen es - zlen fl)
      with (zlen es - zlen (i :: fl) + 1) by (unfold zlen; cbn [length]; lia).
    done.
Qed.

Lemma CreateEntity_fresh es dense sparse r :
  Reg.describes es [] dense sparse r →
  zlen es < EntityTraits.INVALID_INDEX →
  ∃ r' dense' sparse',
    Reg.CreateEntity dc r = Ok (ComposeEntity (zlen es) 0) r'
    ∧ Reg.describes (es ++ [ComposeEntity (zlen es) 0]) [] dense' sparse' r'.
Proof.
  intros Hd Hroom. pose proof (describes_size _ _ _ _ _ Hd) as Hsz.
  destruct Hd as (Hm & Hlen & Hchain & Hnd & Hfs & Hst).
  pose proof (zlen_nonneg es) as Hnn.
  pose proof Hroom as Hroom'. rewrite INVALID_INDEX_val in Hroom'.
  set (e := ComposeEntity (zlen es) 0).
  assert (EntityToIndex e = zlen es) as Hidx.
  { unfold e. rewrite EntityToIndex_Compose. apply Z.mod_small. lia. }
  destruct (models_emplace_back _ _ LE _ _ e Hm) as (ents & Hents & Hm').
  destruct (for_each_tuple_ok (Reg.Init dc (zlen es) e) _ dense sparse _ Hst)
    as [ss Hss].
  { intros s Hs. destruct (Init_inv LE LS LV dc _ _ _ (zlen es) e s Hnn Hs)
      as (s' & ? & ? & -> & _). by eexists. }
  destruct (for_each_tuple_inv _ _ (zlen es - zlen (@nil Z) + 1)
              _ _ _ _ Hss Hst) as (dense' & sparse' & Hst').
  { intros s s' Hs Hs'. destruct (Init_inv LE LS LV dc _ _ _ (zlen es) e s Hnn Hs)
      as (s'' & d' & sp' & Hs'' & Hinv). exists d', sp'.
    assert (s'' = s') as <- by congruence. done. }
  { intros s1 s2 s1' s2' H1 H2 H3 H4.
    exact (Init_agree dc _ _ _ _ _ s1 s2 s1' s2' H1 H2 H3 H4). }
  exists (Reg.mkRegistry ents (Reg.fNext r) (Reg.fSize r) ss), dense', sparse'.
  split.
  - unfold Reg.CreateEntity. rewrite Hfs.
    rewrite (bool_decide_false (0 < zlen [])) by (unfold zlen; cbn; lia).
    rewrite Hsz, bool_decide_false by lia.
    rewrite wrap32_small by lia. fold e. rewrite Hents, Hidx. by rewrite Hss.
  - split; [done|]. cbn [Reg.entities Reg.fNext Reg.fSize Reg.storages].
    rewrite zlen_app. change (zlen [e]) with 1.
    split; [lia|]. split; [done|]. split; [done|]. split; [done|].
    replace (zlen es + 1 - zlen []) with (zlen es - zlen (@nil Z) + 1) by lia.
    done.
Qed.

Lemma CreateEntity_full es dense sparse r :
  Reg.describes es [] dense sparse r →
  EntityTraits.INVALID_INDEX ≤ zlen es →
  Reg.CreateEntity dc r = Throw TooManyEntities r.
Proof.
  intros Hd Hfull. pose proof (describes_size _ _ _ _ _ Hd) as Hsz.
  destruct Hd as (_ & _ & _ & _ & Hfs & _).
  unfold Reg.CreateEntity. rewrite Hfs.
  rewrite (bool_decide_false (0 < zlen [])) by (unfold zlen; cbn; lia).
  by rewrite Hsz, bool_decide_true.
Qed.

Lemma DestroyEntity_returns es fl dense sparse r e r' :
  Reg.describes es fl dense sparse r →
  Reg.DestroyEntity e r = Ok tt r' →
  e ≠ NullEntity
  ∧ zget es (EntityToIndex e) = Some e
  ∧ ∃ dense' sparse',
      Reg.describes
        (zset es (EntityToIndex e)
           (ComposeEntity (Reg.fNext r) (NextEntityVersion e)))
        (EntityToIndex e :: fl) dense' sparse' r'.
Proof.
  intros Hd Hdestroy.
  pose proof (describes_free_fits _ _ _ _ _ Hd) as Hfit.
  destruct (decide (e ≠ NullEntity ∧ zget es (EntityToIndex e) = Some e))
    as [[Hnull He]|Hnot].
  2:{ destruct (CheckEntity_not_live _ _ _ _ _ e Hd Hnot) as (err & Hc & _).
      unfold Reg.DestroyEntity in Hdestroy. by rewrite Hc in Hdestroy. }
  split; [done|]. split; [done|].
  pose proof (describes_live_not_free _ _ _ _ _ e Hd He) as Hfree.
  unfold Reg.DestroyEntity in Hdestroy.
  rewrite (CheckEntity_live _ _ _ _ _ e Hd Hnull He) in Hdestroy.
  destruct Hd as (Hm & Hlen & Hchain & Hnd & Hfs & Hst).
  pose proof (zget_Some_range _ _ _ He) as Hir.
  destruct (Reg.for_each_tuple _ _) as [ss|] eqn:Hss; [|done].
  rewrite (models_get _ _ LE _ _ _ Hm), He in Hdestroy by done.
  destruct (st_set _ _ _) as [ents|] eqn:Hents; [|done].
  injection Hdestroy as <-.
  pose proof (models_set_some _ _ LE _ _ _ _ _ Hm Hents) as Hm'.
  destruct (for_each_tuple_inv _ _ (zlen es - zlen fl - 1) _ _ _ _ Hss Hst)
    as (dense' & sparse' & Hst').
  { intros s s' Hs Hs'. by eapply (Kill_inv LE LS LV). }
  { intros s1 s2 s1' s2' H1 H2 H3 H4.
    exact (Kill_agree _ _ _ _ s1 s2 s1' s2' H1 H2 H3 H4). }
  destruct (free_chain_head _ _ _ Hchain Hlen) as [Hhead _].
  rewrite INVALID_INDEX_val in Hhead, Hlen.
  assert (zlen fl < zlen es) as Hroom.
  { eapply (free_list_room _ _ (EntityToIndex e)); [done| |done|done].
    intros. by eapply free_chain_range. }
  exists dense', sparse'. split; [done|].
  cbn [Reg.entities Reg.fNext Reg.fSize Reg.storages].
  rewrite zlen_zset, INVALID_INDEX_val. split; [done|]. split.
  { split; [done|]. eexists. split; [by apply zget_zset_eq|].
    rewrite EntityToIndex_Compose, Z.mod_small by lia.
    eapply free_chain_frame; [|done]. intros j Hj. apply zget_zset_ne.
    by intros <-. }
  split; [by apply NoDup_cons|]. split.
  { rewrite Hfs. unfold zlen in *. cbn [length].
    rewrite wrap32_small by lia. lia. }
  replace (zlen es - zlen (EntityToIndex e :: fl)) with (zlen es - zlen fl - 1)
    by (unfold zlen; cbn [length]; lia).
  done.
Qed.

Lemma DestroyEntity_rejects es fl dense sparse r e :
  Reg.describes es fl dense sparse r →
  ¬ (e ≠ NullEntity ∧ zget es (EntityToIndex e) = Some e) →
  ∃ err, Reg.DestroyEntity e r = Throw err r ∧ is_invalid_entity err = true.
Proof.
  intros Hd Hnot.
  destruct (CheckEntity_not_live _ _ _ _ _ e Hd Hnot) as (err & Hc & Herr).
  exists err. unfold Reg.DestroyEntity. by rewrite Hc.
Qed.

Lemma SetSafe_rejects es fl dense sparse r k e v :
  Reg.describes es fl dense sparse r →
  ¬ (e ≠ NullEntity ∧ zget es (EntityToIndex e) = Some e) →
  ∃ err, Reg.SetSafe k e v r = Throw err r ∧ is_invalid_entity err = true.
Proof.
  intros Hd Hnot.
  destruct (CheckEntity_not_live _ _ _ _ _ e Hd Hnot) as (err & Hc & Herr).
  exists err. unfold Reg.SetSafe. by rewrite Hc.
Qed.

Lemma Set_returns es fl dense sparse r k e v r' :
  Reg.describes es fl dense sparse r →
  Reg.Set_ k e v r = Ok tt r' → Reg.describes es fl dense sparse r'.
Proof.
  intros (Hm & Hlen & Hchain & Hnd & Hfs & Hst). unfold Reg.Set_.
  destruct (Reg.storages r !! k) as [s|] eqn:Hk; [|done].
  destruct (Reg.StorageSet _ v s) as [s'|] eqn:Hs'; [|done].
  intros [= <-]. repeat split; try done.
  cbn [Reg.storages]. apply Forall_insert; [done|].
  eapply (StorageSet_inv LV); [|done].
  rewrite Forall_lookup in Hst. by eapply Hst.
Qed.

Lemma SetSafe_state es fl dense sparse r k e v r' :
  Reg.describes es fl dense sparse r →
  state_after (Reg.SetSafe k e v r) = Some r' →
  Reg.describes es fl dense sparse r'.
Proof.
  intros Hd. unfold Reg.SetSafe.
  destruct (decide (e ≠ NullEntity ∧ zget es (EntityToIndex e) = Some e))
    as [[Hnull He]|Hnot].
  - rewrite (CheckEntity_live _ _ _ _ _ e Hd Hnull He).
    destruct (Reg.Set_ k e v r) as [[] s|err s|] eqn:Hset; cbn; try done.
    + intros [= <-]. by eapply Set_returns.
    + unfold Reg.Set_ in Hset. by repeat case_match.
  - destruct (CheckEntity_not_live _ _ _ _ _ e Hd Hnot) as (err & -> & _).
    cbn. by intros [= <-].
Qed.

Lemma Clear_returns es fl dense sparse r :
  Reg.describes es fl dense sparse r →
  ∃ r' dense' sparse',
    Reg.Clear r = Ok tt r' ∧ Reg.describes [] [] dense' sparse' r'.
Proof.
  intros (Hm & Hlen & Hchain & Hnd & Hfs & Hst). unfold Reg.Clear.
  destruct (for_each_tuple_ok Reg.StorageClear _ dense sparse _ Hst) as [ss Hss].
  { intros s Hs. by eapply (StorageClear_ok LE LS LV). }
  destruct (for_each_tuple_inv _ _ (zlen (@nil Entity) - zlen (@nil Z))
              _ _ _ _ Hss Hst) as (dense' & sparse' & Hst').
  { intros s s' Hs Hs'. by eapply (StorageClear_inv LE LS LV). }
  { intros s1 s2 s1' s2' H1 H2 H3 H4.
    exact (StorageClear_agree _ _ _ s1 s2 s1' s2' H1 H2 H3 H4). }
  destruct (models_clear _ _ LE _ _ Hm) as (ents & Hents & Hm').
  rewrite Hss, Hents. eexists _, dense', sparse'. split; [done|].
  split; [done|]. split; [by rewrite INVALID_INDEX_val|].
  split; [done|]. split; [constructor|]. split; [done|]. done.
Qed.

Lemma CreateEntity_state r r' :
  Reg.registry_inv r → state_after (Reg.CreateEntity dc r) = Some r' →
  Reg.registry_inv r'.
Proof.
  intros (es & fl & dense & sparse & Hd).
  destruct fl as [|i fl].
  - destruct (decide (zlen es < EntityTraits.INVALID_INDEX)) as [Hroom|Hfull].
    + destruct (CreateEntity_fresh _ _ _ _ Hd Hroom) as (r1 & d' & sp' & -> & Hd').
      cbn. intros [= <-]. by do 4 eexists.
    + rewrite (CreateEntity_full _ _ _ _ Hd) by lia. cbn. intros [= <-].
      by do 4 eexists.
  - destruct (CreateEntity_reuse _ _ _ _ _ _ Hd)
      as (head & r1 & d' & sp' & _ & _ & -> & Hd').
    cbn. intros [= <-]. by do 4 eexists.
Qed.

Lemma DestroyEntity_state e r r' :
  Reg.registry_inv r → state_after (Reg.DestroyEntity e r) = Some r' →
  Reg.registry_inv r'.
Proof.
  intros (es & fl & dense & sparse & Hd).
  destruct (Reg.DestroyEntity e r) as [[] s|err s|] eqn:Hdestroy; cbn; try done.
  - intros [= <-].
    destruct (DestroyEntity_returns _ _ _ _ _ _ _ Hd Hdestroy)
      as (_ & _ & d' & sp' & Hd').
    by do 4 eexists.
  - intros [= <-]. unfold Reg.DestroyEntity in Hdestroy.
    assert (s = r) as ->.
    { unfold Reg.CheckEntity in Hdestroy. by repeat case_match; simplify_eq. }
    by do 4 eexists.
Qed.

Lemma step_inv op r r' :
  Reg.registry_inv r → Reg.step dc op r = Some r' → Reg.registry_inv r'.
Proof.
  intros Hinv. destruct op as [|e|k e v|k e v|]; cbn [Reg.step].
  - by apply CreateEntity_state.
  - by apply DestroyEntity_state.
  - destruct Hinv as (es & fl & dense & sparse & Hd).
    destruct (Reg.Set_ k e v r) as [[] s|err s|] eqn:Hset; cbn; try done.
    + intros [= <-]. do 4 eexists. by eapply Set_returns.
    + unfold Reg.Set_ in Hset. by repeat case_match.
  - destruct Hinv as (es & fl & dense & sparse & Hd).
    intros Hs. do 4 eexists. by eapply SetSafe_state.
  - destruct Hinv as (es & fl & dense & sparse & Hd).
    destruct (Clear_returns _ _ _ _ _ Hd) as (r1 & d' & sp' & -> & Hd').
    cbn. intros [= <-]. by do 4 eexists.
Qed.

(** Every state between registry operations satisfies the invariant. *)
Lemma reachable_inv n r : Reg.reachable dc n r → Reg.registry_inv r.
Proof.
  induction 1 as [|r op r' _ IH Hstep].
  - do 4 eexists. apply new_registry_describes.
  - by eapply step_inv.
Qed.
End RegistrySteps.

(** ** Registry properties *)

Section RegistryClaims.
Context {V CE CS CV : Type}.
Context {SE : Storage Entity CE} {SS : Storage Z CS} {SV : Storage V CV}.
Hypothesis LE : StorageLaws Entity CE.
Hypothesis LS : StorageLaws Z CS.
Hypothesis LV : StorageLaws V CV.
Variable dc : V.
Implicit Types (r : Reg.Registry (CE:=CE) (CS:=CS) (CV:=CV)).
Implicit Types (e : Entity).

Lemma describes_Size es fl dense sparse r :
  Reg.describes es fl dense sparse r → Reg.Size r = zlen es - zlen fl.
Proof.
  intros Hd. pose proof (describes_free_fits _ _ _ _ _ Hd) as Hfit.
  pose proof (describes_size LE _ _ _ _ _ Hd) as Hsz.
  destruct Hd as (_ & Hlen & _ & _ & Hfs & _).
  rewrite INVALID_INDEX_val in Hlen.
  unfold Reg.Size. rewrite Hsz, Hfs. apply wrap64_small. lia.
Qed.

(** In a state reached by calls none of which had undefined behaviour,
  every component storage holds the same sparse map and the same dense
  entity array, and every storage's dense length is the number of live
  entities. *)
Theorem storages_stay_aligned (n : nat) r e
    (A B : Reg.ComponentStorage (CE:=CE) (CS:=CS) (CV:=CV)) :
  Reg.reachable dc n r →
  Reg.IsValidEntity r e = Some true →
  A ∈ Reg.storages r → B ∈ Reg.storages r →
  st_get (Reg.indexToSlot A) (EntityToIndex e)
    = st_get (Reg.indexToSlot B) (EntityToIndex e)
  ∧ (∀ slot, st_get (Reg.slotToEntity A) slot = st_get (Reg.slotToEntity B) slot)
  ∧ Reg.indexToSlot A = Reg.indexToSlot B
  ∧ Reg.slotToEntity A = Reg.slotToEntity B
  ∧ Reg.DenseSize A = Reg.Size r
  ∧ Reg.DenseSize B = Reg.Size r
  ∧ st_size (Reg.slotToEntity A) = Reg.Size r.
Proof.
  intros (es & fl & dense & sparse & Hd)%(reachable_inv LE LS LV) _ HA HB.
  rewrite (describes_Size _ _ _ _ _ Hd).
  destruct Hd as (_ & _ & _ & _ & _ & Hst). rewrite Forall_forall in Hst.
  destruct (Hst A HA) as (HdA & HsA & _ & HzA & _ & HzdA & _).
  destruct (Hst B HB) as (HdB & HsB & _ & HzB & _).
  unfold Reg.DenseSize. rewrite HdA, HdB, HsA, HsB. by repeat split.
Qed.

(** C4: a destroyed handle is invalid afterwards, and the next
  [CreateEntity] returns a valid handle with the same index and the
  version advanced by one modulo [2 ^ VERSION_BITS]. *)
Theorem destroy_then_create_reuses_index (n : nat) r e r1 :
  Reg.reachable dc n r →
  Reg.DestroyEntity e r = Ok tt r1 →
  Reg.IsValidEntity r1 e = Some false
  ∧ ∃ e' r2,
      Reg.CreateEntity dc r1 = Ok e' r2
      ∧ EntityToIndex e' = EntityToIndex e
      ∧ EntityToVersion e'
        = (EntityToVersion e + 1) mod 2 ^ EntityTraits.VERSION_BITS
      ∧ Reg.IsValidEntity r2 e' = Some true.
Proof.
  intros (es & fl & dense & sparse & Hd)%(reachable_inv LE LS LV) Hdestroy.
  destruct (DestroyEntity_returns LE LS LV _ _ _ _ _ _ _ Hd Hdestroy)
    as (Hnull & He & d1 & sp1 & Hd1).
  pose proof (zget_Some_range _ _ _ He) as Hir.
  pose proof Hd as (_ & Hlen & _). rewrite INVALID_INDEX_val in Hlen.
  pose proof (NextEntityVersion_range e) as Hnv.
  split.
  - rewrite (IsValidEntity_describes LE _ _ _ _ _ e Hd1). f_equal.
    apply bool_decide_eq_false. intros [_ Hcur].
    rewrite zget_zset_eq in Hcur by done. injection Hcur as Hcur.
    apply (NextEntityVersion_changes e Hnull).
    rewrite <- Hcur at 2. rewrite EntityToVersion_Compose.
    by rewrite Z.mod_small.
  - destruct (CreateEntity_reuse LE LS LV dc _ _ _ _ _ _ Hd1)
      as (head & r2 & d2 & sp2 & Hhead & _ & Hcreate & Hd2).
    rewrite zget_zset_eq in Hhead by done. injection Hhead as <-.
    rewrite EntityToVersion_Compose, Z.mod_small in Hcreate, Hd2 by done.
    eexists _, r2. split; [done|].
    rewrite EntityToIndex_Compose, EntityToVersion_Compose.
    rewrite !Z.mod_small by lia.
    split; [done|]. split; [by apply NextEntityVersion_live|].
    rewrite (IsValidEntity_describes LE _ _ _ _ _ _ Hd2). f_equal.
    apply bool_decide_eq_true. split.
    + apply ComposeEntity_not_null. rewrite INVALID_INDEX_val. lia.
    + rewrite EntityToIndex_Compose, Z.mod_small by lia.
      apply zget_zset_eq. by rewrite zlen_zset.
Qed.

(** C6: [IsValidEntity] answers (it never reads outside the table), with
  [false] for the null handle, [false] for an index at or past the table
  size, [false] when the table's handle at that index differs from the
  one asked about, and [true] in the one case left: the table holds
  exactly this handle at its index. *)
Theorem IsValidEntity_cases (n : nat) r e :
  Reg.reachable dc n r →
  ∃ b,
    Reg.IsValidEntity r e = Some b
    ∧ (e = NullEntity → b = false)
    ∧ (st_size (Reg.entities r) ≤ EntityToIndex e → b = false)
    ∧ (∀ cur, st_get (Reg.entities r) (EntityToIndex e) = Some cur →
              cur ≠ e → b = false)
    ∧ (e ≠ NullEntity → EntityToIndex e < st_size (Reg.entities r) →
       (∃ cur, st_get (Reg.entities r) (EntityToIndex e) = Some cur)
       ∧ (st_get (Reg.entities r) (EntityToIndex e) = Some e → b = true)).
Proof.
  intros (es & fl & dense & sparse & Hd)%(reachable_inv LE LS LV).
  pose proof (describes_size LE _ _ _ _ _ Hd) as Hsz.
  pose proof Hd as (Hm & _).
  pose proof (EntityToIndex_range e) as Hr.
  eexists. split; [by apply (IsValidEntity_describes LE _ _ _ _ _ e Hd)|].
  rewrite Hsz. repeat split.
  - intros ->. apply bool_decide_eq_false. by intros [? _].
  - intros Hoob. apply bool_decide_eq_false. intros [_ Hg].
    apply zget_Some_range in Hg. lia.
  - intros cur Hcur Hne. apply bool_decide_eq_false. intros [_ Hg].
    pose proof (zget_Some_range _ _ _ Hg).
    rewrite (models_get _ _ LE _ _ _ Hm) in Hcur by done. congruence.
  - rewrite (models_get _ _ LE _ _ _ Hm) by lia.
    destruct (zget_in_range es (EntityToIndex e)) as [cur Hcur]; [lia|]. eauto.
  - intros Hcur. apply bool_decide_eq_true. split; [done|].
    by rewrite (models_get _ _ LE _ _ _ Hm) in Hcur by lia.
Qed.

(** C7: destroying a handle a second time throws the invalid-entity
  error (the stale-version one) and leaves the registry as it was. *)
Theorem double_destroy_rejected (n : nat) r e r1 :
  Reg.reachable dc n r →
  Reg.DestroyEntity e r = Ok tt r1 →
  Reg.DestroyEntity e r1 = Throw InvalidEntityStale r1
  ∧ is_invalid_entity InvalidEntityStale = true.
Proof.
  intros (es & fl & dense & sparse & Hd)%(reachable_inv LE LS LV) Hdestroy.
  destruct (DestroyEntity_returns LE LS LV _ _ _ _ _ _ _ Hd Hdestroy)
    as (Hnull & He & d1 & sp1 & Hd1).
  pose proof (zget_Some_range _ _ _ He) as Hir.
  pose proof (NextEntityVersion_range e) as Hnv.
  split; [|done].
  unfold Reg.DestroyEntity, Reg.CheckEntity.
  apply IsNullEntity_false in Hnull as Hnull'. rewrite Hnull'.
  rewrite (describes_size LE _ _ _ _ _ Hd1), zlen_zset.
  rewrite bool_decide_false by lia.
  destruct Hd1 as (Hm1 & _).
  rewrite (models_get _ _ LE _ _ _ Hm1) by (by rewrite zlen_zset).
  rewrite zget_zset_eq by done.
  rewrite bool_decide_true; [done|]. intros Hcur.
  apply (NextEntityVersion_changes e Hnull).
  rewrite <- Hcur at 2. rewrite EntityToVersion_Compose.
  by rewrite Z.mod_small.
Qed.

(** C9: on a handle that is not valid, [DestroyEntity] and [SetSafe]
  throw the invalid-entity error with the whole registry (table, free
  list head and count, every storage) as it was before the call. *)
Theorem invalid_entity_error_atomic (n : nat) r e (k : nat) (v : V) :
  Reg.reachable dc n r →
  Reg.IsValidEntity r e = Some false →
  (∃ err, Reg.DestroyEntity e r = Throw err r ∧ is_invalid_entity err = true)
  ∧ (∃ err, Reg.SetSafe k e v r = Throw err r ∧ is_invalid_entity err = true).
Proof.
  intros (es & fl & dense & sparse & Hd)%(reachable_inv LE LS LV) Hvalid.
  rewrite (IsValidEntity_describes LE _ _ _ _ _ e Hd) in Hvalid.
  injection Hvalid as Hvalid%bool_decide_eq_false.
  split.
  - by eapply (DestroyEntity_rejects LE).
  - by eapply (SetSafe_rejects LE).
Qed.

(** C10: [CreateEntity] either throws the capacity error or returns a
  handle that is not null (index bits below [INDEX_MASK]), is valid right
  after the call, and differs from every handle that was live, each of
  which stays live. *)
Theorem CreateEntity_returns_new_handle (n : nat) r :
  Reg.reachable dc n r →
  Reg.CreateEntity dc r ≠ Throw TooManyEntities r →
  ∃ e r',
    Reg.CreateEntity dc r = Ok e r'
    ∧ e ≠ NullEntity
    ∧ EntityToIndex e < EntityTraits.INDEX_MASK
    ∧ Reg.IsValidEntity r' e = Some true
    ∧ ∀ h, Reg.IsValidEntity r h = Some true →
           h ≠ e ∧ Reg.IsValidEntity r' h = Some true.
Proof.
  intros (es & fl & dense & sparse & Hd)%(reachable_inv LE LS LV) Hcap.
  pose proof Hd as (_ & Hlen & _).
  pose proof (zlen_nonneg es) as Hnn.
  destruct fl as [|i fl].
  - destruct (decide (zlen es < EntityTraits.INVALID_INDEX)) as [Hroom|Hfull].
    2:{ exfalso. apply Hcap. apply (CreateEntity_full LE dc _ _ _ _ Hd). lia. }
    destruct (CreateEntity_fresh LE LS LV dc _ _ _ _ Hd Hroom)
      as (r' & d' & sp' & Hcreate & Hd').
    set (e := ComposeEntity (zlen es) 0) in *.
    assert (EntityToIndex e = zlen es) as Hidx.
    { unfold e. rewrite EntityToIndex_Compose. apply Z.mod_small.
      rewrite INVALID_INDEX_val in Hroom. lia. }
    assert (e ≠ NullEntity) as Hnull by (apply ComposeEntity_not_null; lia).
    exists e, r'. split; [done|]. split; [done|].
    split; [by rewrite Hidx|]. split.
    + rewrite (IsValidEntity_describes LE _ _ _ _ _ e Hd'). f_equal.
      apply bool_decide_eq_true. split; [done|].
      rewrite Hidx, zget_app_r, Z.sub_diag by lia. done.
    + intros h Hh. rewrite (IsValidEntity_describes LE _ _ _ _ _ h Hd) in Hh.
      injection Hh as [Hhn Hhe]%bool_decide_eq_true.
      pose proof (zget_Some_range _ _ _ Hhe) as Hhr. split.
      * intros ->. lia.
      * rewrite (IsValidEntity_describes LE _ _ _ _ _ h Hd'). f_equal.
        apply bool_decide_eq_true. split; [done|].
        by rewrite zget_app_l by lia.
  - destruct (CreateEntity_reuse LE LS LV dc _ _ _ _ _ _ Hd)
      as (head & r' & d' & sp' & Hhead & Hnext & Hcreate & Hd').
    pose proof (zget_Some_range _ _ _ Hhead) as Hir.
    rewrite INVALID_INDEX_val in Hlen.
    set (e := ComposeEntity i (EntityToVersion head)) in *.
    assert (EntityToIndex e = i) as Hidx.
    { unfold e. rewrite EntityToIndex_Compose. apply Z.mod_small. lia. }
    assert (e ≠ NullEntity) as Hnull.
    { apply ComposeEntity_not_null. rewrite INVALID_INDEX_val. lia. }
    exists e, r'. split; [done|]. split; [done|].
    split; [rewrite Hidx; change EntityTraits.INDEX_MASK with 1048575; lia|].
    split.
    + rewrite (IsValidEntity_describes LE _ _ _ _ _ e Hd'). f_equal.
      apply bool_decide_eq_true. split; [done|].
      rewrite Hidx. by apply zget_zset_eq.
    + intros h Hh. rewrite (IsValidEntity_describes LE _ _ _ _ _ h Hd) in Hh.
      injection Hh as [Hhn Hhe]%bool_decide_eq_true.
      pose proof (describes_live_not_free _ _ _ _ _ h Hd Hhe) as Hfree.
      assert (EntityToIndex h ≠ i) as Hne by (intros Heq; apply Hfree; rewrite Heq; left).
      split.
      * intros ->. by rewrite Hidx in Hne.
      * rewrite (IsValidEntity_describes LE _ _ _ _ _ h Hd'). f_equal.
        apply bool_decide_eq_true. split; [done|].
        by rewrite zget_zset_ne.
Qed.
End RegistryClaims.

(** ** Scenarios on the chunked array *)

(** C5: with chunks of 256, after 384 pushes, pops down to size 256 and
  one push of 777, the size is 257, there are still two chunks (as there
  were after the pops), index 256 holds 777, every element below 256 is
  as pushed, and every destructor call of the sequence hit a live
  element: none was destroyed twice. *)
Theorem pop_to_boundary_then_push_ok (trivially_destructible : bool) :
  ∃ a0 a,
    Scenario.pop_to_boundary trivially_destructible = Some a0
    ∧ CA.size a0 = 256
    ∧ CA.chunk_count a0 = 2
    ∧ Scenario.pop_to_boundary_then_push trivially_destructible = Some a
    ∧ CA.size a = 257
    ∧ CA.chunk_count a = 2
    ∧ CA.index 8 a 256 = Some 777
    ∧ CA.index 8 a <$> seqZ 0 256 = Some <$> seqZ 0 256
    ∧ filter (λ e, is_bad_destroy e = true) (events a) = []
    ∧ zlen (filter (λ e, is_destroy e = true) (events a))
      = (if trivially_destructible then 0 else 128)
    ∧ CA.iterate 8 257 a = Some (seqZ 0 256 ++ [777]).
Proof.
  destruct trivially_destructible.
  - eexists _, _. split; [vm_compute; reflexivity|].
    split; [reflexivity|]. split; [reflexivity|].
    split; [vm_compute; reflexivity|]. repeat split; vm_compute; reflexivity.
  - eexists _, _. split; [vm_compute; reflexivity|].
    split; [reflexivity|]. split; [reflexivity|].
    split; [vm_compute; reflexivity|]. repeat split; vm_compute; reflexivity.
Qed.

(** C1 fails on the code.  After three pushes, two pops and two pushes
  into chunks of two, the reference vector holds 1, 4, 5 while the fifth
  push went to a third chunk: [operator[]] at index 2 addresses the slot
  of the popped 3 in the second chunk, and iteration runs into that slot
  instead of ending after three elements.  The same happens after
  [reserve(4)] and three pushes, where index 2 addresses memory that was
  never constructed. *)
Theorem vector_equivalence_broken_by_spare_chunk (trivially_destructible : bool) :
  CA.vector_run_ops None Scenario.refill [] = Some [1; 4; 5]
  ∧ CA.vector_run_ops None Scenario.reserve_then_push [] = Some [1; 2; 3]
  ∧ ∃ a b,
      CA.run_ops 1 trivially_destructible None Scenario.refill CA.empty_array
        = Some a
      ∧ CA.size a = 3
      ∧ CA.chunk_count a = 3
      ∧ CA.slot_at (chunks a) 2 0 = Some (Live 5)
      ∧ CA.index 1 a 2 = (if trivially_destructible then Some 3 else None)
      ∧ (∀ fuel, CA.iterate 1 fuel a = None)
      ∧ CA.run_ops 1 trivially_destructible None Scenario.reserve_then_push
          CA.empty_array = Some b
      ∧ CA.size b = 3
      ∧ CA.chunk_count b = 3
      ∧ CA.slot_at (chunks b) 2 0 = Some (Live 3)
      ∧ CA.index 1 b 2 = None
      ∧ (∀ fuel, CA.iterate 1 fuel b = None).
Proof.
  split; [reflexivity|]. split; [reflexivity|].
  destruct trivially_destructible.
  - eexists _, _. split; [vm_compute; reflexivity|].
    do 4 (split; [reflexivity|]).
    split; [by intros [|[|[|[|fuel]]]]|].
    split; [vm_compute; reflexivity|].
    do 4 (split; [reflexivity|]).
    by intros [|[|[|[|fuel]]]].
  - eexists _, _. split; [vm_compute; reflexivity|].
    do 4 (split; [reflexivity|]).
    split; [by intros [|[|[|[|fuel]]]]|].
    split; [vm_compute; reflexivity|].
    do 4 (split; [reflexivity|]).
    by intros [|[|[|[|fuel]]]].
Qed.

(** C2 fails on the code.  With room reserved for three chunks of two,
  [resize(1, 7)] constructs five elements (one at index 0 and all of the
  two spare chunks) while the size is 1; [clear] then destroys one and
  releases the chunks with four elements still constructed.  And after
  the refill of C1, [pop_back] runs the destructor on the slot of the
  element popped before, which holds no object. *)
Theorem lifetime_invariant_broken_by_spare_chunk :
  ∃ a a' b,
    CA.run_ops 1 false None Scenario.reserve_then_resize CA.empty_array = Some a
    ∧ CA.size a = 1
    ∧ CA.live_count a = 5
    ∧ CA.slot_of 1 a <$> seqZ 1 5
      = [Some Raw; Some (Live 7); Some (Live 7); Some (Live 7); Some (Live 7)]
    ∧ CA.clear 1 false a = Some a'
    ∧ CA.size a' = 0
    ∧ CA.live_count a' = 4
    ∧ CA.run_ops 1 false None (Scenario.refill ++ [CA.PopBack]) CA.empty_array
        = Some b
    ∧ CA.size b = 2
    ∧ filter (λ e, is_bad_destroy e = true) (events b) = [EvDestroy 1 0 false]
    ∧ CA.slot_at (chunks b) 2 0 = Some (Live 5).
Proof.
  eexists _, _, _. split; [vm_compute; reflexivity|].
  do 3 (split; [reflexivity|]).
  split; [vm_compute; reflexivity|].
  do 2 (split; [reflexivity|]).
  split; [vm_compute; reflexivity|].
  repeat split; reflexivity.
Qed.

(** C8 fails on the code.  After the refill of C1 (three pushes, two pops
  and two pushes into chunks of two) the array is a state the public
  operations built, of size 3 like the vector 1, 4, 5, with the 5 in a
  third chunk.  [resize(1)] and [resize(1, value)] ought to destroy the
  elements at the indices 1 and 2 and nothing else, as the vector does.
  They run the destructor on the 4 and on the slot of the popped 3, which
  holds no object, and leave the 5 constructed: two objects are alive at
  size 1.  The defect is the one of C1: [emplace_back] put the 5 where
  no index below the size reaches it. *)
Theorem resize_shrink_destroys_dead_slot_after_spare_chunk :
  CA.vector_run_ops None (Scenario.refill ++ [CA.ResizeValue 1 9]) [] = Some [1]
  ∧ ∃ a a',
      CA.run_ops 1 false None Scenario.refill CA.empty_array = Some a
      ∧ CA.well_formed 1 a
      ∧ CA.size a = 3
      ∧ CA.slot_at (chunks a) 2 0 = Some (Live 5)
      ∧ CA.resize 1 false 0 1 a = Some a'
      ∧ CA.resize_value 1 false 1 9 a = Some a'
      ∧ CA.size a' = 1
      ∧ events a' = events a ++ [EvDestroy 0 1 true; EvDestroy 1 0 false]
      ∧ filter (λ e, is_bad_destroy e = true) (events a') = [EvDestroy 1 0 false]
      ∧ chunks a' = [[Live 1; Raw]; [Raw; Raw]; [Live 5; Raw]].
Proof.
  split; [reflexivity|].
  destruct (CA.run_ops 1 false None Scenario.refill CA.empty_array) as [a|] eqn:Ha;
    [|by vm_compute in Ha].
  assert (CA.well_formed 1 a) as Hwf.
  { eapply (run_ops_well_formed 1 false None); [apply well_formed_empty| |exact Ha].
    repeat constructor. }
  vm_compute in Ha. injection Ha as <-.
  eexists _, _. split; [reflexivity|]. split; [exact Hwf|].
  do 2 (split; [reflexivity|]).
  split; [vm_compute; reflexivity|].
  repeat split; vm_compute; reflexivity.
Qed.

(** C3 fails on the code.  In chunked mode with chunks of two and two
  component types, three [CreateEntity], [DestroyEntity] of the second
  and of the third handle and three more [CreateEntity] all return, and
  leave four valid handles.  In every storage [Init] pushed the
  components and the handles of the last two entities into a third
  chunk, by the defect of C1, while their dense slots 2 and 3 address the
  second chunk: [slotToEntity[2]] there is the destroyed handle [e2], and
  slot 3 is memory in which no handle and no component was ever
  constructed.  The dense slot 3 of the valid entity [e3] so names no
  entity in any storage; [Get] of [e3] reads that memory, and so does the
  [Kill] of [DestroyEntity] on each of the three other valid handles,
  which then writes the sparse map at the index of what it read.  The
  same calls in contiguous mode return. *)
Theorem dense_slot_lost_to_spare_chunk :
  ∃ r,
    Reg.run (SE:=Demo.KE) (SS:=Demo.KS) (SV:=Demo.KV) 0
      (Demo.refilled ++ [Reg.OpCreateEntity])
      (Reg.new_registry (SE:=Demo.KE) (SS:=Demo.KS) (SV:=Demo.KV) 2) = Some r
    ∧ Forall (λ e, Reg.IsValidEntity (SE:=Demo.KE) r e = Some true)
        [Demo.e0; Demo.e1'; ComposeEntity 2 1; ComposeEntity 3 0]
    ∧ Reg.IsValidEntity (SE:=Demo.KE) r Demo.e2 = Some false
    ∧ Reg.Size (SE:=Demo.KE) r = 4
    ∧ length (Reg.storages r) = 2%nat
    ∧ Forall (λ s,
         Reg.DenseSize (SV:=Demo.KV) s = 4
         ∧ CA.index 1 (Reg.indexToSlot s) (EntityToIndex (ComposeEntity 3 0))
           = Some 3
         ∧ CA.slot_at (chunks (Reg.slotToEntity s)) 2 1
           = Some (Live (ComposeEntity 3 0))
         ∧ CA.slot_of 1 (Reg.slotToEntity s) 3 = Some Raw
         ∧ CA.slot_of 1 (Reg.data s) 3 = Some Raw
         ∧ Forall (λ ev, ev ≠ EvConstruct 1 1 false ∧ ev ≠ EvConstruct 1 1 true)
             (events (Reg.slotToEntity s) ++ events (Reg.data s))
         ∧ CA.index 1 (Reg.slotToEntity s) 2 = Some Demo.e2
         ∧ Reg.Get (SS:=Demo.KS) (SV:=Demo.KV)
             (EntityToIndex (ComposeEntity 3 0)) s = None
         ∧ Reg.Kill (SE:=Demo.KE) (SS:=Demo.KS) (SV:=Demo.KV)
             (EntityToIndex Demo.e0) s = None)
        (Reg.storages r)
    ∧ Reg.GetByIndex (SS:=Demo.KS) (SV:=Demo.KV) 0 (ComposeEntity 3 0) r = None
    ∧ Forall (λ e,
         Reg.DestroyEntity (SE:=Demo.KE) (SS:=Demo.KS) (SV:=Demo.KV) e r
         = Undefined)
        [Demo.e0; Demo.e1'; ComposeEntity 2 1]
    ∧ ∃ v v',
        Reg.run (SE:=Demo.VE) (SS:=Demo.VS) (SV:=Demo.VV) 0
          (Demo.refilled ++ [Reg.OpCreateEntity])
          (Reg.new_registry (SE:=Demo.VE) (SS:=Demo.VS) (SV:=Demo.VV) 2) = Some v
        ∧ Reg.GetByIndex (SS:=Demo.VS) (SV:=Demo.VV) 0 (ComposeEntity 3 0) v
          = Some 0
        ∧ Reg.DestroyEntity (SE:=Demo.VE) (SS:=Demo.VS) (SV:=Demo.VV) Demo.e0 v
          = Ok tt v'.
Proof.
  eexists. split; [vm_compute; reflexivity|].
  split; [repeat (constructor; [vm_compute; reflexivity|]); constructor|].
  do 3 (split; [vm_compute; reflexivity|]).
  split.
  { repeat (constructor;
              [do 5 (split; [vm_compute; reflexivity|]);
               split; [vm_compute; repeat (constructor; [split; discriminate|]);
                       constructor|];
               repeat split; vm_compute; reflexivity|]).
    constructor. }
  split; [vm_compute; reflexivity|].
  split; [repeat (constructor; [vm_compute; reflexivity|]); constructor|].
  eexists _, _. split; [vm_compute; reflexivity|].
  split; vm_compute; reflexivity.
Qed.

(** ** The theorems at concrete inputs *)

Lemma run_reachable {V CE CS CV : Type}
    {SE : Storage Entity CE} {SS : Storage Z CS} {SV : Storage V CV}
    (dc : V) (n : nat) ops (r r' : Reg.Registry (CE:=CE) (CS:=CS) (CV:=CV)) :
  Reg.reachable dc n r → Reg.run dc ops r = Some r' → Reg.reachable dc n r'.
Proof.
  revert r. induction ops as [|op ops IH]; intros r Hr; cbn [Reg.run].
  - by intros [= <-].
  - destruct (Reg.step dc op r) as [r1|] eqn:Hstep; [|done].
    apply IH. by eapply Reg.reachable_step.
Qed.

Lemma resize_shrink_frame_witness :
  CA.well_formed 1 (Scenario.three false)
  ∧ 0 ≤ 1 < CA.size (Scenario.three false)
  ∧ ∃ a',
      CA.resize 1 false 0 1 (Scenario.three false) = Some a'
      ∧ CA.resize_value 1 false 1 9 (Scenario.three false) = Some a'
      ∧ CA.size a' = 1
      ∧ CA.chunk_count a' = CA.chunk_count (Scenario.three false)
      ∧ (∀ i, 0 ≤ i < 1 → CA.index 1 a' i = CA.index 1 (Scenario.three false) i)
      ∧ (∀ i, 0 ≤ i →
           CA.slot_of 1 a' i
           = if bool_decide (1 ≤ i < CA.size (Scenario.three false)) && negb false
             then Some Raw else CA.slot_of 1 (Scenario.three false) i)
      ∧ events a'
        = events (Scenario.three false)
          ++ (if false then []
              else (λ i, EvDestroy (cidx 1 i) (coff 1 i)
                           (CA.slot_is_live 1 (Scenario.three false) i))
                     <$> seqZ 1 (CA.size (Scenario.three false) - 1)).
Proof.
  assert (CA.well_formed 1 (Scenario.three false)) as Hwf.
  { split; [|split].
    - repeat (constructor; [reflexivity|]). constructor.
    - vm_compute. split; discriminate.
    - right. exists 1, 1. vm_compute. repeat split; discriminate. }
  assert (0 ≤ 1 < CA.size (Scenario.three false)) as Hn.
  { vm_compute. split; [discriminate|reflexivity]. }
  split; [exact Hwf|]. split; [exact Hn|].
  exact (resize_shrink_frame 1 false 0 9 (Scenario.three false) 1 Hwf Hn).
Defined.

Lemma storages_stay_aligned_witness :
  @StorageLaws Entity _ Demo.KE
  ∧ @StorageLaws Z _ Demo.KS
  ∧ @StorageLaws Z _ Demo.KV
  ∧ Reg.reachable (SE:=Demo.KE) (SS:=Demo.KS) (SV:=Demo.KV) 0 2
      (Demo.chunked_after Demo.refilled)
  ∧ Reg.IsValidEntity (SE:=Demo.KE) (Demo.chunked_after Demo.refilled) Demo.e0
    = Some true
  ∧ Demo.storage_at (SE:=Demo.KE) (SS:=Demo.KS) (SV:=Demo.KV) 0
      (Demo.chunked_after Demo.refilled)
    ∈ Reg.storages (Demo.chunked_after Demo.refilled)
  ∧ Demo.storage_at (SE:=Demo.KE) (SS:=Demo.KS) (SV:=Demo.KV) 1
      (Demo.chunked_after Demo.refilled)
    ∈ Reg.storages (Demo.chunked_after Demo.refilled)
  ∧ CA.index 1
      (Reg.indexToSlot (Demo.storage_at (SE:=Demo.KE) (SS:=Demo.KS) (SV:=Demo.KV) 0
                          (Demo.chunked_after Demo.refilled)))
      (EntityToIndex Demo.e0)
    = CA.index 1
        (Reg.indexToSlot (Demo.storage_at (SE:=Demo.KE) (SS:=Demo.KS) (SV:=Demo.KV) 1
                            (Demo.chunked_after Demo.refilled)))
        (EntityToIndex Demo.e0)
  ∧ Reg.DenseSize (SV:=Demo.KV)
      (Demo.storage_at (SE:=Demo.KE) (SS:=Demo.KS) (SV:=Demo.KV) 1
         (Demo.chunked_after Demo.refilled))
    = Reg.Size (SE:=Demo.KE) (Demo.chunked_after Demo.refilled).
Proof.
  pose proof (chunked_laws 1 true NullEntity) as LE.
  pose proof (chunked_laws 1 true 0) as LS.
  pose proof (chunked_laws 1 false 0) as LV.
  assert (Reg.reachable (SE:=Demo.KE) (SS:=Demo.KS) (SV:=Demo.KV) 0 2
            (Demo.chunked_after Demo.refilled)) as Hreach.
  { apply (run_reachable (SE:=Demo.KE) (SS:=Demo.KS) (SV:=Demo.KV) 0 2 Demo.refilled
             (Reg.new_registry (SE:=Demo.KE) (SS:=Demo.KS) (SV:=Demo.KV) 2));
      [apply Reg.reachable_new|vm_compute; reflexivity]. }
  assert (Reg.IsValidEntity (SE:=Demo.KE) (Demo.chunked_after Demo.refilled) Demo.e0
          = Some true) as Hvalid by (vm_compute; reflexivity).
  assert (Demo.storage_at (SE:=Demo.KE) (SS:=Demo.KS) (SV:=Demo.KV) 0
            (Demo.chunked_after Demo.refilled)
          ∈ Reg.storages (Demo.chunked_after Demo.refilled)) as HA.
  { vm_compute. apply list_elem_of_here. }
  assert (Demo.storage_at (SE:=Demo.KE) (SS:=Demo.KS) (SV:=Demo.KV) 1
            (Demo.chunked_after Demo.refilled)
          ∈ Reg.storages (Demo.chunked_after Demo.refilled)) as HB.
  { vm_compute. apply list_elem_of_further, list_elem_of_here. }
  do 7 (split; [assumption|]).
  pose proof (@storages_stay_aligned Z _ _ _ Demo.KE Demo.KS Demo.KV LE LS LV 0 2
                _ Demo.e0 _ _ Hreach Hvalid HA HB) as (Hslot & _ & _ & _ & _ & Hsize & _).
  split; [exact Hslot|exact Hsize].
Defined.

Lemma chunked_reachable ops r :
  Reg.run (SE:=Demo.KE) (SS:=Demo.KS) (SV:=Demo.KV) 0 ops
    (Reg.new_registry (SE:=Demo.KE) (SS:=Demo.KS) (SV:=Demo.KV) 2) = Some r →
  Reg.reachable (SE:=Demo.KE) (SS:=Demo.KS) (SV:=Demo.KV) 0 2 r.
Proof. apply run_reachable, Reg.reachable_new. Qed.

Lemma contiguous_reachable ops r :
  Reg.run (SE:=Demo.VE) (SS:=Demo.VS) (SV:=Demo.VV) 0 ops
    (Reg.new_registry (SE:=Demo.VE) (SS:=Demo.VS) (SV:=Demo.VV) 2) = Some r →
  Reg.reachable (SE:=Demo.VE) (SS:=Demo.VS) (SV:=Demo.VV) 0 2 r.
Proof. apply run_reachable, Reg.reachable_new. Qed.

Lemma destroy_then_create_reuses_index_witness :
  @StorageLaws Entity _ Demo.KE
  ∧ @StorageLaws Z _ Demo.KS
  ∧ @StorageLaws Z _ Demo.KV
  ∧ Reg.reachable (SE:=Demo.KE) (SS:=Demo.KS) (SV:=Demo.KV) 0 2
      (Demo.chunked_after Demo.three_created)
  ∧ Reg.DestroyEntity (SE:=Demo.KE) (SS:=Demo.KS) (SV:=Demo.KV) Demo.e1
      (Demo.chunked_after Demo.three_created)
    = Ok tt (Demo.chunked_after
               (Demo.three_created ++ [Reg.OpDestroyEntity Demo.e1]))
  ∧ Reg.IsValidEntity (SE:=Demo.KE)
      (Demo.chunked_after (Demo.three_created ++ [Reg.OpDestroyEntity Demo.e1]))
      Demo.e1 = Some false
  ∧ ∃ e' r2,
      Reg.CreateEntity (SE:=Demo.KE) (SS:=Demo.KS) (SV:=Demo.KV) 0
        (Demo.chunked_after (Demo.three_created ++ [Reg.OpDestroyEntity Demo.e1]))
      = Ok e' r2
      ∧ EntityToIndex e' = EntityToIndex Demo.e1
      ∧ EntityToVersion e'
        = (EntityToVersion Demo.e1 + 1) mod 2 ^ EntityTraits.VERSION_BITS
      ∧ Reg.IsValidEntity (SE:=Demo.KE) r2 e' = Some true.
Proof.
  pose proof (chunked_laws 1 true NullEntity) as LE.
  pose proof (chunked_laws 1 true 0) as LS.
  pose proof (chunked_laws 1 false 0) as LV.
  assert (Reg.reachable (SE:=Demo.KE) (SS:=Demo.KS) (SV:=Demo.KV) 0 2
            (Demo.chunked_after Demo.three_created)) as Hreach.
  { apply (chunked_reachable Demo.three_created). vm_compute. reflexivity. }
  assert (Reg.DestroyEntity (SE:=Demo.KE) (SS:=Demo.KS) (SV:=Demo.KV) Demo.e1
            (Demo.chunked_after Demo.three_created)
          = Ok tt (Demo.chunked_after
                     (Demo.three_created ++ [Reg.OpDestroyEntity Demo.e1])))
    as Hdestroy by (vm_compute; reflexivity).
  do 5 (split; [assumption|]).
  exact (@destroy_then_create_reuses_index Z _ _ _ Demo.KE Demo.KS Demo.KV LE LS LV
           0 2 _ Demo.e1 _ Hreach Hdestroy).
Defined.

(** In chunked mode the table is read through [CA.size] and
  [CA.index]. *)
Lemma chunked_table_reads
    (r : Reg.Registry (CE:=ChunkedArray Entity) (CS:=ChunkedArray Z)
           (CV:=ChunkedArray Z)) (e : Entity) :
  (∃ b,
    Reg.IsValidEntity (SE:=Demo.KE) r e = Some b
    ∧ (e = NullEntity → b = false)
    ∧ (st_size (Storage:=Demo.KE) (Reg.entities r) ≤ EntityToIndex e → b = false)
    ∧ (∀ cur, st_get (Storage:=Demo.KE) (Reg.entities r) (EntityToIndex e) = Some cur →
              cur ≠ e → b = false)
    ∧ (e ≠ NullEntity → EntityToIndex e < st_size (Storage:=Demo.KE) (Reg.entities r) →
       (∃ cur, st_get (Storage:=Demo.KE) (Reg.entities r) (EntityToIndex e) = Some cur)
       ∧ (st_get (Storage:=Demo.KE) (Reg.entities r) (EntityToIndex e) = Some e
          → b = true))) →
  ∃ b,
    Reg.IsValidEntity (SE:=Demo.KE) r e = Some b
    ∧ (e = NullEntity → b = false)
    ∧ (CA.size (Reg.entities r) ≤ EntityToIndex e → b = false)
    ∧ (∀ cur, CA.index 1 (Reg.entities r) (EntityToIndex e) = Some cur →
              cur ≠ e → b = false)
    ∧ (e ≠ NullEntity → EntityToIndex e < CA.size (Reg.entities r) →
       (∃ cur, CA.index 1 (Reg.entities r) (EntityToIndex e) = Some cur)
       ∧ (CA.index 1 (Reg.entities r) (EntityToIndex e) = Some e → b = true)).
Proof. intros H. exact H. Qed.

Lemma IsValidEntity_cases_witness :
  @StorageLaws Entity _ Demo.KE
  ∧ @StorageLaws Z _ Demo.KS
  ∧ @StorageLaws Z _ Demo.KV
  ∧ Reg.reachable (SE:=Demo.KE) (SS:=Demo.KS) (SV:=Demo.KV) 0 2
      (Demo.chunked_after Demo.one_destroyed)
  ∧ ∃ b,
      Reg.IsValidEntity (SE:=Demo.KE) (Demo.chunked_after Demo.one_destroyed) Demo.e1
      = Some b
      ∧ (Demo.e1 = NullEntity → b = false)
      ∧ (CA.size (Reg.entities (Demo.chunked_after Demo.one_destroyed))
           ≤ EntityToIndex Demo.e1 → b = false)
      ∧ (∀ cur,
           CA.index 1 (Reg.entities (Demo.chunked_after Demo.one_destroyed))
             (EntityToIndex Demo.e1) = Some cur →
           cur ≠ Demo.e1 → b = false)
      ∧ (Demo.e1 ≠ NullEntity →
         EntityToIndex Demo.e1
           < CA.size (Reg.entities (Demo.chunked_after Demo.one_destroyed)) →
         (∃ cur,
            CA.index 1 (Reg.entities (Demo.chunked_after Demo.one_destroyed))
              (EntityToIndex Demo.e1) = Some cur)
         ∧ (CA.index 1 (Reg.entities (Demo.chunked_after Demo.one_destroyed))
              (EntityToIndex Demo.e1) = Some Demo.e1 → b = true)).
Proof.
  pose proof (chunked_laws 1 true NullEntity) as LE.
  pose proof (chunked_laws 1 true 0) as LS.
  pose proof (chunked_laws 1 false 0) as LV.
  assert (Reg.reachable (SE:=Demo.KE) (SS:=Demo.KS) (SV:=Demo.KV) 0 2
            (Demo.chunked_after Demo.one_destroyed)) as Hreach.
  { apply (chunked_reachable Demo.one_destroyed). vm_compute. reflexivity. }
  do 4 (split; [assumption|]).
  exact (chunked_table_reads _ _
           (@IsValidEntity_cases Z _ _ _ Demo.KE Demo.KS Demo.KV LE LS LV
              0 2 _ Demo.e1 Hreach)).
Defined.

Lemma double_destroy_rejected_witness :
  @StorageLaws Entity _ Demo.VE
  ∧ @StorageLaws Z _ Demo.VS
  ∧ @StorageLaws Z _ Demo.VV
  ∧ Reg.reachable (SE:=Demo.VE) (SS:=Demo.VS) (SV:=Demo.VV) 0 2
      (Demo.contiguous_after Demo.three_created)
  ∧ Reg.DestroyEntity (SE:=Demo.VE) (SS:=Demo.VS) (SV:=Demo.VV) Demo.e1
      (Demo.contiguous_after Demo.three_created)
    = Ok tt (Demo.contiguous_after
               (Demo.three_created ++ [Reg.OpDestroyEntity Demo.e1]))
  ∧ Reg.DestroyEntity (SE:=Demo.VE) (SS:=Demo.VS) (SV:=Demo.VV) Demo.e1
      (Demo.contiguous_after (Demo.three_created ++ [Reg.OpDestroyEntity Demo.e1]))
    = Throw InvalidEntityStale
        (Demo.contiguous_after (Demo.three_created ++ [Reg.OpDestroyEntity Demo.e1]))
  ∧ is_invalid_entity InvalidEntityStale = true.
Proof.
  pose proof (vector_laws NullEntity) as LE.
  pose proof (vector_laws 0) as LS.
  assert (Reg.reachable (SE:=Demo.VE) (SS:=Demo.VS) (SV:=Demo.VV) 0 2
            (Demo.contiguous_after Demo.three_created)) as Hreach.
  { apply (contiguous_reachable Demo.three_created). vm_compute. reflexivity. }
  assert (Reg.DestroyEntity (SE:=Demo.VE) (SS:=Demo.VS) (SV:=Demo.VV) Demo.e1
            (Demo.contiguous_after Demo.three_created)
          = Ok tt (Demo.contiguous_after
                     (Demo.three_created ++ [Reg.OpDestroyEntity Demo.e1])))
    as Hdestroy by (vm_compute; reflexivity).
  split; [exact LE|]. split; [exact LS|]. split; [exact LS|].
  do 2 (split; [assumption|]).
  exact (@double_destroy_rejected Z _ _ _ Demo.VE Demo.VS Demo.VV LE LS LS
           0 2 _ Demo.e1 _ Hreach Hdestroy).
Defined.

Lemma invalid_entity_error_atomic_witness :
  @StorageLaws Entity _ Demo.VE
  ∧ @StorageLaws Z _ Demo.VS
  ∧ @StorageLaws Z _ Demo.VV
  ∧ Reg.reachable (SE:=Demo.VE) (SS:=Demo.VS) (SV:=Demo.VV) 0 2
      (Demo.contiguous_after Demo.one_destroyed)
  ∧ Reg.IsValidEntity (SE:=Demo.VE) (Demo.contiguous_after Demo.one_destroyed)
      Demo.e1 = Some false
  ∧ (∃ err,
       Reg.DestroyEntity (SE:=Demo.VE) (SS:=Demo.VS) (SV:=Demo.VV) Demo.e1
         (Demo.contiguous_after Demo.one_destroyed)
       = Throw err (Demo.contiguous_after Demo.one_destroyed)
       ∧ is_invalid_entity err = true)
  ∧ (∃ err,
       Reg.SetSafe (SE:=Demo.VE) (SS:=Demo.VS) (SV:=Demo.VV) 1 Demo.e1 5
         (Demo.contiguous_after Demo.one_destroyed)
       = Throw err (Demo.contiguous_after Demo.one_destroyed)
       ∧ is_invalid_entity err = true).
Proof.
  pose proof (vector_laws NullEntity) as LE.
  pose proof (vector_laws 0) as LS.
  assert (Reg.reachable (SE:=Demo.VE) (SS:=Demo.VS) (SV:=Demo.VV) 0 2
            (Demo.contiguous_after Demo.one_destroyed)) as Hreach.
  { apply (contiguous_reachable Demo.one_destroyed). vm_compute. reflexivity. }
  assert (Reg.IsValidEntity (SE:=Demo.VE) (Demo.contiguous_after Demo.one_destroyed)
            Demo.e1 = Some false) as Hstale by (vm_compute; reflexivity).
  split; [exact LE|]. split; [exact LS|]. split; [exact LS|].
  do 2 (split; [assumption|]).
  exact (@invalid_entity_error_atomic Z _ _ _ Demo.VE Demo.VS Demo.VV LE LS LS
           0 2 _ Demo.e1 1%nat 5 Hreach Hstale).
Defined.

Lemma CreateEntity_returns_new_handle_witness :
  @StorageLaws Entity _ Demo.KE
  ∧ @StorageLaws Z _ Demo.KS
  ∧ @StorageLaws Z _ Demo.KV
  ∧ Reg.reachable (SE:=Demo.KE) (SS:=Demo.KS) (SV:=Demo.KV) 0 2
      (Demo.chunked_after Demo.one_destroyed)
  ∧ Reg.CreateEntity (SE:=Demo.KE) (SS:=Demo.KS) (SV:=Demo.KV) 0
      (Demo.chunked_after Demo.one_destroyed)
    ≠ Throw TooManyEntities (Demo.chunked_after Demo.one_destroyed)
  ∧ ∃ e r',
      Reg.CreateEntity (SE:=Demo.KE) (SS:=Demo.KS) (SV:=Demo.KV) 0
        (Demo.chunked_after Demo.one_destroyed) = Ok e r'
      ∧ e ≠ NullEntity
      ∧ EntityToIndex e < EntityTraits.INDEX_MASK
      ∧ Reg.IsValidEntity (SE:=Demo.KE) r' e = Some true
      ∧ ∀ h,
          Reg.IsValidEntity (SE:=Demo.KE) (Demo.chunked_after Demo.one_destroyed) h
          = Some true →
          h ≠ e ∧ Reg.IsValidEntity (SE:=Demo.KE) r' h = Some true.
Proof.
  pose proof (chunked_laws 1 true NullEntity) as LE.
  pose proof (chunked_laws 1 true 0) as LS.
  pose proof (chunked_laws 1 false 0) as LV.
  assert (Reg.reachable (SE:=Demo.KE) (SS:=Demo.KS) (SV:=Demo.KV) 0 2
            (Demo.chunked_after Demo.one_destroyed)) as Hreach.
  { apply (chunked_reachable Demo.one_destroyed). vm_compute. reflexivity. }
  assert (Reg.CreateEntity (SE:=Demo.KE) (SS:=Demo.KS) (SV:=Demo.KV) 0
            (Demo.chunked_after Demo.one_destroyed)
          ≠ Throw TooManyEntities (Demo.chunked_after Demo.one_destroyed)) as Hcap.
  { vm_compute. discriminate. }
  do 5 (split; [assumption|]).
  exact (@CreateEntity_returns_new_handle Z _ _ _ Demo.KE Demo.KS Demo.KV LE LS LV
           0 2 _ Hreach Hcap).
Defined.

(** * Further properties of the chunked array *)

(** ** Chunk addressing *)

(** X1: [ChunkIndex] and [OffsetIndex] split a global index into a chunk
  number and an offset below [CHUNK_SIZE] from which the index is
  recovered, and they recover the chunk number and the offset from
  [chunk * CHUNK_SIZE + offset]. *)
Theorem chunk_position_roundtrip (LOG2 : nat) (g c o : Z) :
  0 ≤ g → 0 ≤ o < ChunkHelper.CHUNK_SIZE LOG2 →
  (0 ≤ ChunkHelper.ChunkIndex LOG2 g
   ∧ 0 ≤ ChunkHelper.OffsetIndex LOG2 g < ChunkHelper.CHUNK_SIZE LOG2
   ∧ ChunkHelper.ChunkIndex LOG2 g * ChunkHelper.CHUNK_SIZE LOG2
     + ChunkHelper.OffsetIndex LOG2 g = g)
  ∧ ChunkHelper.ChunkIndex LOG2 (c * ChunkHelper.CHUNK_SIZE LOG2 + o) = c
  ∧ ChunkHelper.OffsetIndex LOG2 (c * ChunkHelper.CHUNK_SIZE LOG2 + o) = o.
Proof.
  intros Hg Ho. split; [split; [|split]|split].
  - by apply ChunkIndex_nonneg.
  - apply OffsetIndex_range.
  - symmetry. apply index_split.
  - by apply ChunkIndex_compose.
  - by apply OffsetIndex_compose.
Qed.

Lemma chunk_position_roundtrip_witness :
  0 ≤ 777 ∧ 0 ≤ 9 < ChunkHelper.CHUNK_SIZE 8
  ∧ (0 ≤ ChunkHelper.ChunkIndex 8 777
     ∧ 0 ≤ ChunkHelper.OffsetIndex 8 777 < ChunkHelper.CHUNK_SIZE 8
     ∧ ChunkHelper.ChunkIndex 8 777 * ChunkHelper.CHUNK_SIZE 8
       + ChunkHelper.OffsetIndex 8 777 = 777)
  ∧ ChunkHelper.ChunkIndex 8 (3 * ChunkHelper.CHUNK_SIZE 8 + 9) = 3
  ∧ ChunkHelper.OffsetIndex 8 (3 * ChunkHelper.CHUNK_SIZE 8 + 9) = 9.
Proof.
  assert (0 ≤ 777) as Hg by lia.
  assert (0 ≤ 9 < ChunkHelper.CHUNK_SIZE 8) as Ho
    by (vm_compute; split; [discriminate|reflexivity]).
  split; [exact Hg|]. split; [exact Ho|].
  exact (chunk_position_roundtrip 8 777 3 9 Hg Ho).
Defined.

(** ** The size always agrees with the vector's *)

Section SizeAgreement.
Context {T : Type}.
Variable LOG2 : nat.
Variable tr : bool.
Implicit Types (a : ChunkedArray T) (v : list T).

Lemma reserve_elemCount n a : elemCount (CA.reserve LOG2 n a) = elemCount a.
Proof.
  unfold CA.reserve. case_bool_decide; [done|].
  by rewrite update_write_ptr_elemCount.
Qed.








End SizeAgreement.



(** ** Sequences that only grow behave like the vector *)

Section GrowOnly.
Context {T : Type}.
Variable LOG2 : nat.
Variable tr : bool.
Implicit Types (a : ChunkedArray T) (l v : list T).






End GrowOnly.



(** ** Iterators over an array without spare chunks *)

Lemma signed64_small x : 0 ≤ x < 2 ^ 63 → signed64 x = x.
Proof. intros. unfold signed64. by rewrite decide_True by lia. Qed.

Lemma drop_lookup_cons {A} (l : list A) (i : nat) (x : A) :
  l !! i = Some x → drop i l = x :: drop (S i) l.
Proof.
  revert i. induction l as [|y l IH]; intros [|i]; simpl; try done.
  - by intros [= ->].
  - apply IH.
Qed.

Section IteratorFacts.
Context {T : Type}.
Variable LOG2 : nat.
Hypothesis Hlog : (LOG2 < 63)%nat.
Implicit Types (a : ChunkedArray T) (l : list T).

Lemma csize_small : csize LOG2 < 2 ^ 63.
Proof.
  unfold ChunkHelper.CHUNK_SIZE. apply Z.pow_lt_mono_r; lia.
Qed.

(** The chunk count of an array without spare chunks. *)
Lemma models_shape a l :
  CA.models LOG2 a l →
  elemCount a = zlen l
  ∧ zlen l ≤ zlen (chunks a) * csize LOG2
  ∧ zlen (chunks a) * csize LOG2 < zlen l + csize LOG2.
Proof.
  intros (((_ & Hsz & _) & Htight & _) & He & _).
  unfold CA.chunk_count in *. lia.
Qed.

Lemma elems_in_chunk_models a l ci :
  CA.models LOG2 a l → 0 ≤ ci < zlen (chunks a) →
  CA.elems_in_chunk LOG2 a ci = Z.min (csize LOG2) (zlen l - ci * csize LOG2)
  ∧ 0 < Z.min (csize LOG2) (zlen l - ci * csize LOG2).
Proof.
  intros (He & Hfit & Htight)%models_shape Hci.
  pose proof (CHUNK_SIZE_pos LOG2) as Hpos. pose proof csize_small as Hsmall.
  unfold CA.elems_in_chunk, CA.chunk_count, CA.size. rewrite He.
  case_bool_decide as Hlast.
  - subst ci. rewrite wrap64_small by nia. split; nia.
  - split; nia.
Qed.

(** The iterator [Iterator(arr, i)] in closed form. *)
Lemma make_iterator_models a l i :
  CA.models LOG2 a l → 0 ≤ i →
  CA.make_iterator LOG2 a i
  = if bool_decide (i < zlen l)
    then CA.mkIterator (Some (cidx LOG2 i, coff LOG2 i))
           (Some (cidx LOG2 i,
                  Z.min (csize LOG2) (zlen l - cidx LOG2 i * csize LOG2)))
           (cidx LOG2 i)
    else CA.mkIterator None None (zlen (chunks a)).
Proof.
  intros Hm Hi. pose proof (models_shape a l Hm) as (He & Hfit & Htight).
  pose proof (CHUNK_SIZE_pos LOG2) as Hpos. pose proof csize_small as Hsmall.
  unfold CA.make_iterator, CA.size. rewrite He.
  case_bool_decide as Hlt; [|done].
  pose proof (OffsetIndex_range LOG2 i) as Hoff.
  assert (0 ≤ cidx LOG2 i < zlen (chunks a)) as Hci.
  { split; [by apply ChunkIndex_nonneg|]. apply ChunkIndex_lt_iff. lia. }
  destruct (elems_in_chunk_models a l (cidx LOG2 i) Hm Hci) as [-> Hmin].
  unfold CA.get_chunk_ptr, ptr_add.
  rewrite !signed64_small by lia. by rewrite !Z.add_0_l.
Qed.

Lemma next_position i :
  0 ≤ i →
  (coff LOG2 i + 1 < csize LOG2 →
   cidx LOG2 (i + 1) = cidx LOG2 i ∧ coff LOG2 (i + 1) = coff LOG2 i + 1)
  ∧ (coff LOG2 i + 1 = csize LOG2 →
     cidx LOG2 (i + 1) = cidx LOG2 i + 1 ∧ coff LOG2 (i + 1) = 0).
Proof.
  intros Hi. pose proof (index_split LOG2 i) as Hsplit.
  pose proof (OffsetIndex_range LOG2 i) as Hoff.
  pose proof (CHUNK_SIZE_pos LOG2) as Hpos.
  split; intros Ho.
  - assert (i + 1 = cidx LOG2 i * csize LOG2 + (coff LOG2 i + 1)) as -> by lia.
    rewrite ChunkIndex_compose, OffsetIndex_compose by lia. done.
  - assert (i + 1 = (cidx LOG2 i + 1) * csize LOG2 + 0) as -> by lia.
    rewrite ChunkIndex_compose, OffsetIndex_compose by lia. done.
Qed.

Lemma incr_models a l i :
  CA.models LOG2 a l → 0 ≤ i < zlen l →
  CA.incr LOG2 a (CA.make_iterator LOG2 a i) = CA.make_iterator LOG2 a (i + 1).
Proof.
  intros Hm Hi. pose proof (models_shape a l Hm) as (He & Hfit & Htight).
  pose proof (CHUNK_SIZE_pos LOG2) as Hpos. pose proof csize_small as Hsmall.
  pose proof (index_split LOG2 i) as Hsplit.
  pose proof (OffsetIndex_range LOG2 i) as Hoff.
  destruct (next_position i) as [Hsame Hnext]; [lia|].
  assert (0 ≤ cidx LOG2 i < zlen (chunks a)) as Hci.
  { split; [apply ChunkIndex_nonneg; lia|]. apply ChunkIndex_lt_iff. lia. }
  rewrite !(make_iterator_models a l) by (done || lia).
  rewrite (bool_decide_true (i < zlen l)) by lia.
  unfold CA.incr. cbn [CA.current CA.chunk_end CA.chunk_index ptr_add].
  rewrite signed64_1. case_bool_decide as Hend.
  - injection Hend as Hend. unfold CA.reload_chunk, CA.chunk_count.
    cbn [CA.current CA.chunk_end CA.chunk_index].
    case_bool_decide as Hmore.
    + assert (coff LOG2 i + 1 = csize LOG2) as Ho by nia.
      destruct (Hnext Ho) as [Hc' Ho'].
      rewrite bool_decide_true by nia. rewrite Hc', Ho'.
      destruct (elems_in_chunk_models a l (cidx LOG2 i + 1) Hm) as [-> Hmin]; [lia|].
      unfold CA.get_chunk_ptr, ptr_add.
      rewrite signed64_small by lia. by rewrite Z.add_0_l.
    + assert (cidx LOG2 i = zlen (chunks a) - 1) as Hlast by lia.
      assert (zlen l ≤ i + 1) as Hn.
      { destruct (Z.min_spec (csize LOG2) (zlen l - cidx LOG2 i * csize LOG2))
          as [[? Hmin]|[? Hmin]]; rewrite Hmin in Hend; nia. }
      rewrite bool_decide_false by lia. f_equal. lia.
  - assert (coff LOG2 i + 1
            ≠ Z.min (csize LOG2) (zlen l - cidx LOG2 i * csize LOG2)) as Hne
      by (intros Heq; apply Hend; by rewrite Heq).
    assert (coff LOG2 i + 1 < csize LOG2) as Ho by lia.
    destruct (Hsame Ho) as [Hc' Ho'].
    rewrite bool_decide_true by lia. by rewrite Hc', Ho'.
Qed.

Lemma deref_models a l i :
  CA.models LOG2 a l → 0 ≤ i < zlen l →
  CA.deref a (CA.make_iterator LOG2 a i) = zget l i.
Proof.
  intros Hm Hi. rewrite (make_iterator_models a l) by (done || lia).
  rewrite bool_decide_true by lia.
  destruct Hm as (_ & _ & Hl). rewrite <- Hl by done. done.
Qed.

Lemma iter_eq_end_models a l i :
  CA.models LOG2 a l → 0 ≤ i ≤ zlen l →
  CA.iter_eq (CA.make_iterator LOG2 a i) (CA.end_ LOG2 a)
  = bool_decide (i = zlen l).
Proof.
  intros Hm Hi. pose proof (models_shape a l Hm) as (He & _).
  unfold CA.end_. rewrite He.
  rewrite !(make_iterator_models a l) by (done || lia).
  rewrite (bool_decide_false (zlen l < zlen l)) by lia.
  unfold CA.iter_eq. destruct (decide (i < zlen l)) as [Hlt|Hlt].
  - rewrite (bool_decide_true (i < zlen l)) by done. cbn [CA.current].
    rewrite (bool_decide_false (i = zlen l)) by lia. by apply bool_decide_eq_false.
  - rewrite (bool_decide_false (i < zlen l)) by done. cbn [CA.current].
    rewrite (bool_decide_true (i = zlen l)) by lia. by apply bool_decide_eq_true.
Qed.

Lemma iterate_from_models a l fuel i :
  CA.models LOG2 a l → 0 ≤ i ≤ zlen l → (Z.to_nat (zlen l - i) ≤ fuel)%nat →
  CA.iterate_from LOG2 fuel a (CA.make_iterator LOG2 a i)
  = Some (drop (Z.to_nat i) l).
Proof.
  intros Hm. revert i. induction fuel as [|fuel IH]; intros i Hi Hfuel.
  - cbn [CA.iterate_from]. rewrite (iter_eq_end_models a l) by done.
    rewrite bool_decide_true by lia.
    by rewrite drop_ge by (unfold zlen in *; lia).
  - cbn [CA.iterate_from]. rewrite (iter_eq_end_models a l) by done.
    case_bool_decide as Hend.
    + by rewrite drop_ge by (unfold zlen in *; lia).
    + rewrite (deref_models a l), (incr_models a l) by (done || lia).
      rewrite IH by lia.
      destruct (zget_in_range l i) as [x Hx]; [lia|]. rewrite Hx.
      cbn [mbind option_bind]. f_equal.
      unfold zget in Hx. rewrite decide_True in Hx by lia.
      rewrite (drop_lookup_cons l (Z.to_nat i) x Hx).
      by replace (Z.to_nat (i + 1)) with (S (Z.to_nat i)) by lia.
Qed.
End IteratorFacts.

(** The array of 1, 2, 3 in chunks of two holds the vector [1; 2; 3]. *)
Lemma three_models (tr : bool) : CA.models 1 (Scenario.three tr) [1; 2; 3].
Proof.
  assert (Scenario.three tr = Scenario.three true
          ∨ Scenario.three tr = Scenario.three false) as [-> | ->]
    by (destruct tr; auto).
  all: split; [split; [split; [|split]|split; [|split]]|split].
  all: try (right; exists 1, 1; vm_compute; repeat split; discriminate).
  all: try (vm_compute; done).
  all: try (repeat (constructor; [reflexivity|]); constructor).
  all: intros i Hi; assert (i = 0 ∨ i = 1 ∨ i = 2) as [-> | [-> | ->]]
         by (unfold zlen in Hi; cbn [length] in Hi; lia); reflexivity.
Qed.

(** X4: on an array without spare chunks, the loop
  [for (it = begin(); it != end(); ++it)] visits exactly the elements, in
  index order, and stops. *)
Theorem iteration_visits_elements_in_order {T : Type} (LOG2 : nat)
    (a : ChunkedArray T) (l : list T) (fuel : nat) :
  (LOG2 < 63)%nat →
  CA.models LOG2 a l →
  (length l ≤ fuel)%nat →
  CA.iterate LOG2 fuel a = Some l.
Proof.
  intros Hlog Hm Hfuel. unfold CA.iterate, CA.begin_.
  rewrite (iterate_from_models LOG2 Hlog a l) by (done || unfold zlen; lia).
  done.
Qed.

Lemma iteration_visits_elements_in_order_witness :
  (1 < 63)%nat
  ∧ CA.models 1 (Scenario.three false) [1; 2; 3]
  ∧ (length [1; 2; 3] ≤ 5)%nat
  ∧ CA.iterate 1 5 (Scenario.three false) = Some [1; 2; 3].
Proof.
  assert (1 < 63)%nat as Hlog by lia.
  assert (length [1; 2; 3] ≤ 5)%nat as Hfuel by (cbn [length]; lia).
  split; [exact Hlog|]. split; [exact (three_models false)|]. split; [exact Hfuel|].
  exact (iteration_visits_elements_in_order 1 (Scenario.three false) [1; 2; 3] 5
           Hlog (three_models false) Hfuel).
Defined.

(** ** Random access through iterators *)

Section IteratorRandomAccess.
Context {T : Type}.
Variable LOG2 : nat.
Hypothesis Hlog : (LOG2 < 63)%nat.
Implicit Types (a : ChunkedArray T) (l : list T).

Lemma get_index_models a l i :
  CA.models LOG2 a l → zlen l < 2 ^ 63 → 0 ≤ i ≤ zlen l →
  CA.get_index LOG2 a (CA.make_iterator LOG2 a i) = Some i.
Proof.
  intros Hm Hsmall Hi. pose proof (models_shape LOG2 Hlog a l Hm) as (He & _).
  rewrite (make_iterator_models LOG2 Hlog a l) by (done || lia).
  unfold CA.get_index. case_bool_decide as Hlt; cbn [CA.current CA.chunk_index].
  - rewrite bool_decide_true by done.
    pose proof (index_split LOG2 i) as Hsplit.
    pose proof (OffsetIndex_range LOG2 i) as Hoff.
    pose proof (csize_small LOG2 Hlog).
    rewrite (wrap64_small (coff LOG2 i)) by lia.
    rewrite <- Hsplit. by rewrite wrap64_small by lia.
  - unfold CA.size. f_equal. lia.
Qed.

Lemma reload_chunk_from_index_make a i :
  CA.reload_chunk_from_index LOG2 a i = CA.make_iterator LOG2 a i.
Proof. done. Qed.

Lemma advance_models a l i k :
  CA.models LOG2 a l → zlen l < 2 ^ 63 → 0 ≤ i ≤ zlen l → 0 ≤ i + k ≤ zlen l →
  CA.advance LOG2 a (CA.make_iterator LOG2 a i) k
  = Some (CA.make_iterator LOG2 a (i + k)).
Proof.
  intros Hm Hsmall Hi Hk. unfold CA.advance. case_bool_decide as Hz.
  - subst k. by rewrite Z.add_0_r.
  - rewrite (get_index_models a l) by done. cbn [mbind option_bind].
    rewrite signed64_small, wrap64_small by lia. done.
Qed.

Lemma retreat_models a l i k :
  CA.models LOG2 a l → zlen l < 2 ^ 63 → 0 ≤ i ≤ zlen l → 0 ≤ i - k ≤ zlen l →
  CA.retreat LOG2 a (CA.make_iterator LOG2 a i) k
  = Some (CA.make_iterator LOG2 a (i - k)).
Proof.
  intros Hm Hsmall Hi Hk. unfold CA.retreat. case_bool_decide as Hz.
  - subst k. by rewrite Z.sub_0_r.
  - rewrite (get_index_models a l) by done. cbn [mbind option_bind].
    rewrite signed64_small, wrap64_small by lia. done.
Qed.

Lemma decr_models a l i :
  CA.models LOG2 a l → 0 ≤ i < zlen l →
  CA.decr LOG2 a (CA.make_iterator LOG2 a (i + 1))
  = Some (CA.make_iterator LOG2 a i).
Proof.
  intros Hm Hi. pose proof (models_shape LOG2 Hlog a l Hm) as (He & Hfit & Htight).
  pose proof (CHUNK_SIZE_pos LOG2) as Hpos.
  pose proof (csize_small LOG2 Hlog) as Hsmall.
  pose proof (index_split LOG2 i) as Hsplit.
  pose proof (OffsetIndex_range LOG2 i) as Hoff.
  destruct (next_position LOG2 Hlog i) as [Hsame Hnext]; [lia|].
  assert (0 ≤ cidx LOG2 i < zlen (chunks a)) as Hci.
  { split; [apply ChunkIndex_nonneg; lia|]. apply ChunkIndex_lt_iff. lia. }
  destruct (elems_in_chunk_models LOG2 Hlog a l (cidx LOG2 i) Hm Hci) as [Hel Hmin].
  rewrite !(make_iterator_models LOG2 Hlog a l) by (done || lia).
  rewrite (bool_decide_true (i < zlen l)) by lia.
  destruct (decide (i + 1 < zlen l)) as [Hin|Hin];
    [rewrite (bool_decide_true (i + 1 < zlen l)) by done
    |rewrite (bool_decide_false (i + 1 < zlen l)) by done];
    unfold CA.decr; cbn [CA.current CA.chunk_end CA.chunk_index].
  - (* inside the array *)
    unfold CA.get_chunk_ptr. case_bool_decide as Hstart.
    + injection Hstart as Hstart.
      assert (coff LOG2 i + 1 = csize LOG2) as Ho.
      { destruct (decide (coff LOG2 i + 1 < csize LOG2)) as [Ho|]; [|lia].
        destruct (Hsame Ho). lia. }
      destruct (Hnext Ho) as [Hc' Ho']. rewrite Hc'. clear Hsame Hnext.
      rewrite bool_decide_true by lia.
      unfold CA.reload_chunk, CA.chunk_count. cbn [CA.chunk_index].
      rewrite bool_decide_true by lia. cbn [CA.chunk_end CA.chunk_index].
      replace (cidx LOG2 i + 1 - 1) with (cidx LOG2 i) by lia.
      rewrite Hel. unfold CA.get_chunk_ptr, ptr_add, ptr_offset.
      rewrite signed64_small by lia. rewrite Z.add_0_l.
      repeat f_equal; lia.
    + assert (coff LOG2 (i + 1) ≠ 0) as Hne by (intros Heq; apply Hstart; by rewrite Heq).
      assert (coff LOG2 i + 1 < csize LOG2) as Ho.
      { destruct (decide (coff LOG2 i + 1 = csize LOG2)) as [Ho|]; [|lia].
        destruct (Hnext Ho). lia. }
      destruct (Hsame Ho) as [Hc' Ho']. rewrite Hc', Ho'. clear Hsame Hnext.
      unfold ptr_offset. repeat f_equal; lia.
  - (* from end() *)
    clear Hsame Hnext. assert (i + 1 = zlen l) as Hn by lia.
    assert (cidx LOG2 i = zlen (chunks a) - 1) as Hlast.
    { assert (zlen (chunks a) - 1 ≤ cidx LOG2 i); [|lia].
      apply ChunkIndex_le_iff. nia. }
    unfold CA.chunk_count. rewrite bool_decide_true by lia.
    unfold CA.reload_chunk, CA.chunk_count. cbn [CA.chunk_index].
    rewrite bool_decide_true by lia. cbn [CA.chunk_end CA.chunk_index].
    rewrite <- Hlast, Hel. unfold CA.get_chunk_ptr, ptr_add, ptr_offset.
    rewrite signed64_small by lia. rewrite Z.add_0_l.
    repeat f_equal; lia.
Qed.
End IteratorRandomAccess.

(** X5: on an array without spare chunks, [begin()] is the iterator at
  index 0 and [end()] the one at [size()]; the iterator at an index below
  the size dereferences to that element, [++] takes it to the iterator
  at the next index ([end()] after the last), and [--] takes that one
  back. *)
Theorem iterator_increment_decrement_inverse {T : Type} (LOG2 : nat)
    (a : ChunkedArray T) (l : list T) (i : Z) :
  (LOG2 < 63)%nat →
  CA.models LOG2 a l →
  0 ≤ i < zlen l →
  CA.begin_ LOG2 a = CA.make_iterator LOG2 a 0
  ∧ CA.end_ LOG2 a = CA.make_iterator LOG2 a (zlen l)
  ∧ CA.deref a (CA.make_iterator LOG2 a i) = zget l i
  ∧ CA.incr LOG2 a (CA.make_iterator LOG2 a i) = CA.make_iterator LOG2 a (i + 1)
  ∧ CA.decr LOG2 a (CA.make_iterator LOG2 a (i + 1))
    = Some (CA.make_iterator LOG2 a i).
Proof.
  intros Hlog Hm Hi. split; [done|]. split.
  { unfold CA.end_. by destruct Hm as (_ & -> & _). }
  split; [by apply deref_models|].
  split; [by apply (incr_models LOG2 Hlog a l)|].
  by apply (decr_models LOG2 Hlog a l).
Qed.

Lemma iterator_increment_decrement_inverse_witness :
  (1 < 63)%nat
  ∧ CA.models 1 (Scenario.three false) [1; 2; 3]
  ∧ 0 ≤ 1 < zlen [1; 2; 3]
  ∧ CA.begin_ 1 (Scenario.three false) = CA.make_iterator 1 (Scenario.three false) 0
  ∧ CA.end_ 1 (Scenario.three false)
    = CA.make_iterator 1 (Scenario.three false) (zlen [1; 2; 3])
  ∧ CA.deref (Scenario.three false) (CA.make_iterator 1 (Scenario.three false) 1)
    = zget [1; 2; 3] 1
  ∧ CA.incr 1 (Scenario.three false) (CA.make_iterator 1 (Scenario.three false) 1)
    = CA.make_iterator 1 (Scenario.three false) (1 + 1)
  ∧ CA.decr 1 (Scenario.three false)
      (CA.make_iterator 1 (Scenario.three false) (1 + 1))
    = Some (CA.make_iterator 1 (Scenario.three false) 1).
Proof.
  assert (1 < 63)%nat as Hlog by lia.
  assert (0 ≤ 1 < zlen [1; 2; 3]) as Hi by (vm_compute; split; [discriminate|reflexivity]).
  split; [exact Hlog|]. split; [exact (three_models false)|]. split; [exact Hi|].
  exact (iterator_increment_decrement_inverse 1 (Scenario.three false) [1; 2; 3] 1
           Hlog (three_models false) Hi).
Defined.

(** X6: on an array without spare chunks and of a size a [ptrdiff_t]
  holds, the iterator at index [i] reports [i] as its index, [it + (j - i)]
  and [it += j - i] give the iterator at [j], [-=] undoes that, the
  difference of the iterators at [j] and [i] is [j - i], [<] compares the
  indices, and [it[j - i]] reads element [j]. *)
Theorem iterator_random_access {T : Type} (LOG2 : nat)
    (a : ChunkedArray T) (l : list T) (i j : Z) :
  (LOG2 < 63)%nat →
  CA.models LOG2 a l →
  zlen l < 2 ^ 63 →
  0 ≤ i ≤ zlen l → 0 ≤ j ≤ zlen l →
  CA.get_index LOG2 a (CA.make_iterator LOG2 a i) = Some i
  ∧ CA.advance LOG2 a (CA.make_iterator LOG2 a i) (j - i)
    = Some (CA.make_iterator LOG2 a j)
  ∧ CA.retreat LOG2 a (CA.make_iterator LOG2 a j) (j - i)
    = Some (CA.make_iterator LOG2 a i)
  ∧ CA.distance LOG2 a (CA.make_iterator LOG2 a j) (CA.make_iterator LOG2 a i)
    = Some (j - i)
  ∧ CA.iter_lt LOG2 a (CA.make_iterator LOG2 a i) (CA.make_iterator LOG2 a j)
    = Some (bool_decide (i < j))
  ∧ (j < zlen l →
     CA.iter_index LOG2 a (CA.make_iterator LOG2 a i) (j - i) = zget l j).
Proof.
  intros Hlog Hm Hsmall Hi Hj.
  pose proof (get_index_models LOG2 Hlog a l i Hm Hsmall Hi) as Hgi.
  pose proof (get_index_models LOG2 Hlog a l j Hm Hsmall Hj) as Hgj.
  split; [done|]. split.
  { rewrite (advance_models LOG2 Hlog a l) by (done || lia).
    by replace (i + (j - i)) with j by lia. }
  split.
  { rewrite (retreat_models LOG2 Hlog a l) by (done || lia).
    by replace (j - (j - i)) with i by lia. }
  split.
  { unfold CA.distance. rewrite Hgi, Hgj. cbn [mbind option_bind].
    by rewrite !signed64_small by lia. }
  split.
  { unfold CA.iter_lt. by rewrite Hgi, Hgj. }
  intros Hlt. unfold CA.iter_index. rewrite Hgi. cbn [mbind option_bind].
  rewrite signed64_small by lia. replace (i + (j - i)) with j by lia.
  rewrite wrap64_small by lia. destruct Hm as (_ & _ & Hl). apply Hl. lia.
Qed.

Lemma iterator_random_access_witness :
  (1 < 63)%nat
  ∧ CA.models 1 (Scenario.three false) [1; 2; 3]
  ∧ zlen [1; 2; 3] < 2 ^ 63
  ∧ 0 ≤ 0 ≤ zlen [1; 2; 3]
  ∧ 0 ≤ 2 ≤ zlen [1; 2; 3]
  ∧ CA.get_index 1 (Scenario.three false)
      (CA.make_iterator 1 (Scenario.three false) 0) = Some 0
  ∧ CA.advance 1 (Scenario.three false)
      (CA.make_iterator 1 (Scenario.three false) 0) (2 - 0)
    = Some (CA.make_iterator 1 (Scenario.three false) 2)
  ∧ CA.retreat 1 (Scenario.three false)
      (CA.make_iterator 1 (Scenario.three false) 2) (2 - 0)
    = Some (CA.make_iterator 1 (Scenario.three false) 0)
  ∧ CA.distance 1 (Scenario.three false)
      (CA.make_iterator 1 (Scenario.three false) 2)
      (CA.make_iterator 1 (Scenario.three false) 0)
    = Some (2 - 0)
  ∧ CA.iter_lt 1 (Scenario.three false)
      (CA.make_iterator 1 (Scenario.three false) 0)
      (CA.make_iterator 1 (Scenario.three false) 2)
    = Some (bool_decide (0 < 2))
  ∧ (2 < zlen [1; 2; 3] →
     CA.iter_index 1 (Scenario.three false)
       (CA.make_iterator 1 (Scenario.three false) 0) (2 - 0)
     = zget [1; 2; 3] 2).
Proof.
  assert (1 < 63)%nat as Hlog by lia.
  assert (zlen [1; 2; 3] < 2 ^ 63) as Hsmall by (vm_compute; reflexivity).
  assert (0 ≤ 0 ≤ zlen [1; 2; 3]) as Hi by (vm_compute; split; discriminate).
  assert (0 ≤ 2 ≤ zlen [1; 2; 3]) as Hj by (vm_compute; split; discriminate).
  split; [exact Hlog|]. split; [exact (three_models false)|].
  split; [exact Hsmall|]. split; [exact Hi|]. split; [exact Hj|].
  exact (iterator_random_access 1 (Scenario.three false) [1; 2; 3] 0 2
           Hlog (three_models false) Hsmall Hi Hj).
Defined.

(** ** Arrays that may have spare chunks *)

Lemma zget_take {A} (l : list A) (k i : Z) :
  i < k → zget (take (Z.to_nat k) l) i = zget l i.
Proof.
  intros Hik. unfold zget. case_decide; [|done].
  apply lookup_take_lt. lia.
Qed.

Section Holds.
Context {T : Type}.
Variable LOG2 : nat.
Variable tr : bool.
Implicit Types (a : ChunkedArray T) (l : list T).

Lemma models_holds a l : CA.models LOG2 a l → CA.holds LOG2 a l.
Proof. by intros ((Hwf & _) & He & Hl). Qed.

Lemma holds_pop_back a l x :
  CA.holds LOG2 a (l ++ [x]) →
  ∃ a', CA.pop_back LOG2 tr a = Some a'
        ∧ CA.holds LOG2 a' l
        ∧ CA.back LOG2 a = Some x
        ∧ CA.chunk_count a' = CA.chunk_count a.
Proof.
  intros (Hwf & He & Hl). rewrite zlen_app in He, Hl.
  change (zlen [x]) with 1 in He, Hl. pose proof (zlen_nonneg l) as Hnn.
  assert (0 < elemCount a) as Hpos by lia.
  destruct (pop_back_ok LOG2 tr a Hwf Hpos) as [a' Ha'].
  destruct (well_formed_pop_back LOG2 tr a a' Hwf Ha') as [Hwf' He'].
  exists a'. split; [done|]. split; [split; [done|split; [lia|]]|split].
  - intros i Hi. rewrite <- (zget_app_l l [x]) by lia. rewrite <- Hl by lia.
    unfold CA.pop_back in Ha'. rewrite bool_decide_true in Ha' by done.
    cbn [elemCount CA.set_elemCount] in Ha'.
    destruct (CA.destroy_at _ _ _ _) as [a2|] eqn:Hd; [|done].
    injection Ha' as <-. rewrite !index_slot_of, update_write_ptr_slot_of.
    unfold CA.destroy_at in Hd. cbn [chunks CA.set_elemCount] in Hd.
    destruct (CA.slot_at _ _ _) as [s|]; [|done].
    destruct tr; injection Hd as <-; [done|].
    unfold CA.slot_of. cbn [chunks]. rewrite slot_write_other; [done|].
    intros [= Hc Ho]. assert (elemCount a - 1 = i) by (by eapply position_inj). lia.
  - unfold CA.back. rewrite bool_decide_true by done.
    rewrite Hl by lia. replace (elemCount a - 1) with (zlen l) by lia.
    by rewrite zget_app_r, Z.sub_diag by lia.
  - unfold CA.pop_back in Ha'. rewrite bool_decide_true in Ha' by done.
    destruct (CA.destroy_at _ _ _ _) as [a2|] eqn:Hd; [|done].
    injection Ha' as <-. apply (destroy_at_preserves LOG2) in Hd as (_ & Hz & _).
    unfold CA.chunk_count. by rewrite update_write_ptr_chunks, Hz.
Qed.

Lemma clear_models a :
  CA.well_formed LOG2 a →
  ∃ a', CA.clear LOG2 tr a = Some a' ∧ CA.models LOG2 a' [] ∧ chunks a' = [].
Proof.
  intros Hwf.
  destruct (well_formed_clear LOG2 tr a Hwf) as (a' & Ha' & Hwf' & He' & Hc').
  exists a'. split; [done|]. split; [|done].
  pose proof (CHUNK_SIZE_pos LOG2).
  split; [|split; [done|]].
  - split; [done|]. unfold CA.chunk_count, zlen. rewrite He', Hc'.
    cbn [length]. split; [lia|]. split; [|lia].
    intros _. unfold CA.clear in Ha'.
    destruct (CA.destroy_elements _ _ _ _ _); [|done].
    by injection Ha' as <-.
  - intros i Hi. unfold zlen in Hi. cbn [length] in Hi. lia.
Qed.

Lemma holds_shrink_to_fit a l :
  CA.holds LOG2 a l →
  ∃ a', CA.shrink_to_fit LOG2 tr a = Some a' ∧ CA.models LOG2 a' l.
Proof.
  intros (Hwf & He & Hl). unfold CA.shrink_to_fit. case_bool_decide as Hz.
  - assert (l = []) as ->.
    { destruct l; [done|]. unfold zlen in He. cbn [length] in He. lia. }
    destruct (clear_models a Hwf) as (a' & -> & Hm & _). by exists a'.
  - eexists. split; [done|].
    pose proof Hwf as (Hf & Hsz & _). unfold CA.chunk_count in *.
    pose proof (CHUNK_SIZE_pos LOG2) as Hpos.
    set (k := cidx LOG2 (elemCount a - 1) + 1).
    assert (cidx LOG2 (elemCount a - 1) < zlen (chunks a)) as Hlt
      by (apply ChunkIndex_lt_iff; lia).
    assert (0 ≤ cidx LOG2 (elemCount a - 1)) by (apply ChunkIndex_nonneg; lia).
    assert (CA.chunks_resize k (chunks a) = take (Z.to_nat k) (chunks a)) as Hres.
    { unfold CA.chunks_resize.
      replace (Z.to_nat (k - zlen (chunks a))) with 0%nat by lia.
      apply app_nil_r. }
    assert (zlen (take (Z.to_nat k) (chunks a)) = k) as Hzk.
    { unfold zlen in *. rewrite length_take. lia. }
    assert ((k - 1) * csize LOG2 ≤ elemCount a - 1) as Hlow.
    { apply ChunkIndex_le_iff. unfold k. lia. }
    assert (elemCount a - 1 < k * csize LOG2) as Hhigh.
    { apply ChunkIndex_lt_iff. unfold k. lia. }
    rewrite Hres. split; [split; [|split]|split].
    + apply well_formed_update_write_ptr; cbn [chunks elemCount CA.set_chunks].
      * by apply Forall_take.
      * rewrite Hzk. lia.
    + unfold CA.chunk_count.
      rewrite update_write_ptr_chunks, update_write_ptr_elemCount.
      cbn [chunks elemCount CA.set_chunks]. rewrite Hzk. lia.
    + unfold CA.chunk_count.
      rewrite update_write_ptr_chunks, update_write_ptr_elemCount.
      cbn [chunks elemCount CA.set_chunks].
      pose proof (update_write_ptr_at_end LOG2
                    (CA.set_chunks (take (Z.to_nat k) (chunks a)) a)) as Hend.
      cbn [chunks elemCount CA.set_chunks] in Hend. apply Hend. lia.
    + by rewrite update_write_ptr_elemCount.
    + intros i Hi. rewrite <- Hl by done.
      rewrite !index_slot_of, update_write_ptr_slot_of.
      unfold CA.slot_of, CA.slot_at. cbn [chunks CA.set_chunks].
      rewrite zget_take; [done|]. apply ChunkIndex_lt_iff. lia.
Qed.

Lemma holds_reserve a l n :
  CA.holds LOG2 a l →
  CA.holds LOG2 (CA.reserve LOG2 n a) l
  ∧ (0 ≤ n → n ≤ CA.chunk_count (CA.reserve LOG2 n a) * csize LOG2)
  ∧ CA.chunk_count a ≤ CA.chunk_count (CA.reserve LOG2 n a).
Proof.
  intros (Hwf & He & Hl). pose proof (CHUNK_SIZE_pos LOG2) as Hpos.
  pose proof (zlen_nonneg (chunks a)) as Hznn.
  split; [split; [by apply well_formed_reserve|split]|].
  - by rewrite reserve_elemCount.
  - intros i Hi. rewrite <- Hl by done. unfold CA.reserve.
    case_bool_decide; [done|].
    rewrite !index_slot_of, update_write_ptr_slot_of.
    unfold CA.slot_of. cbn [chunks CA.set_chunks].
    rewrite grow_chunks_slot_at; [done|]. destruct Hwf as (_ & Hsz & _).
    unfold CA.chunk_count in Hsz. apply ChunkIndex_lt_iff. lia.
  - unfold CA.reserve, CA.chunk_count. case_bool_decide as Hz.
    + split; [nia|lia].
    + rewrite update_write_ptr_chunks. cbn [chunks CA.set_chunks].
      rewrite grow_chunks_zlen. split; [|lia]. intros Hn.
      assert (n - 1 < (cidx LOG2 (n - 1) + 1) * csize LOG2)
        by (apply ChunkIndex_lt_iff; lia).
      nia.
Qed.
End Holds.

(** The array left by three pushes and two pops holds the vector [1]. *)
Lemma one_left_holds (tr : bool) : CA.holds 1 (Scenario.one_left tr) [1].
Proof.
  assert (Scenario.one_left tr = Scenario.one_left true
          ∨ Scenario.one_left tr = Scenario.one_left false) as [-> | ->]
    by (destruct tr; auto).
  all: split; [split; [|split]|split].
  1, 6: vm_compute; repeat (constructor; [reflexivity|]); constructor.
  1, 5: vm_compute; done.
  1, 4: right; exists 0, 1; vm_compute; repeat split; discriminate.
  1, 3: reflexivity.
  all: intros i Hi; assert (i = 0) as ->
         by (unfold zlen in Hi; cbn [length] in Hi; lia); reflexivity.
Qed.

(** X7: in any state the public operations can have built whose first
  [size()] slots hold the elements of a non-empty vector, [back()] reads
  the last element, and [pop_back()] returns, takes the size down by one,
  leaves every other element readable with its value, and releases no
  chunk. *)
Theorem pop_back_removes_last {T : Type} (LOG2 : nat)
    (trivially_destructible : bool) (a : ChunkedArray T) (l : list T) (x : T) :
  CA.holds LOG2 a (l ++ [x]) →
  CA.back LOG2 a = Some x
  ∧ ∃ a',
      CA.pop_back LOG2 trivially_destructible a = Some a'
      ∧ CA.size a' = zlen l
      ∧ (∀ i, 0 ≤ i < zlen l → CA.index LOG2 a' i = zget l i)
      ∧ CA.well_formed LOG2 a'
      ∧ CA.chunk_count a' = CA.chunk_count a.
Proof.
  intros Hh.
  destruct (holds_pop_back LOG2 trivially_destructible a l x Hh)
    as (a' & Ha' & (Hwf' & He' & Hl') & Hback & Hcc).
  split; [done|]. by exists a'.
Qed.

Lemma pop_back_removes_last_witness :
  CA.holds 1 (Scenario.three false) ([1; 2] ++ [3])
  ∧ CA.back 1 (Scenario.three false) = Some 3
  ∧ ∃ a',
      CA.pop_back 1 false (Scenario.three false) = Some a'
      ∧ CA.size a' = zlen [1; 2]
      ∧ (∀ i, 0 ≤ i < zlen [1; 2] → CA.index 1 a' i = zget [1; 2] i)
      ∧ CA.well_formed 1 a'
      ∧ CA.chunk_count a' = CA.chunk_count (Scenario.three false).
Proof.
  assert (CA.holds 1 (Scenario.three false) ([1; 2] ++ [3])) as Hh
    by exact (models_holds 1 _ _ (three_models false)).
  split; [exact Hh|].
  exact (pop_back_removes_last 1 false (Scenario.three false) [1; 2] 3 Hh).
Defined.

(** X8: on an array without spare chunks, [emplace_back(x)] followed by
  [pop_back()] returns to the size before, with [back()] reading [x] in
  between and every element as it was afterwards. *)
Theorem push_then_pop_restores {T : Type} (LOG2 : nat)
    (trivially_destructible : bool) (a : ChunkedArray T) (l : list T) (x : T) :
  CA.models LOG2 a l →
  ∃ a1 a2,
    CA.emplace_back LOG2 x a = Some a1
    ∧ CA.size a1 = CA.size a + 1
    ∧ CA.back LOG2 a1 = Some x
    ∧ CA.pop_back LOG2 trivially_destructible a1 = Some a2
    ∧ CA.size a2 = CA.size a
    ∧ ∀ i, 0 ≤ i < CA.size a → CA.index LOG2 a2 i = CA.index LOG2 a i.
Proof.
  intros Hm. pose proof Hm as (_ & He & Hl).
  destruct (chunked_models_emplace_back LOG2 a l x Hm) as (a1 & Ha1 & Hm1).
  pose proof Hm1 as (_ & He1 & _).
  destruct (holds_pop_back LOG2 trivially_destructible a1 l x
              (models_holds LOG2 a1 _ Hm1))
    as (a2 & Ha2 & (_ & He2 & Hl2) & Hback & _).
  exists a1, a2. unfold CA.size. rewrite zlen_app in He1.
  change (zlen [x]) with 1 in He1.
  repeat split; try done; try lia.
  intros i Hi. rewrite Hl2, Hl by lia. done.
Qed.

Lemma push_then_pop_restores_witness :
  CA.models 1 (Scenario.three false) [1; 2; 3]
  ∧ ∃ a1 a2,
      CA.emplace_back 1 4 (Scenario.three false) = Some a1
      ∧ CA.size a1 = CA.size (Scenario.three false) + 1
      ∧ CA.back 1 a1 = Some 4
      ∧ CA.pop_back 1 false a1 = Some a2
      ∧ CA.size a2 = CA.size (Scenario.three false)
      ∧ ∀ i, 0 ≤ i < CA.size (Scenario.three false) →
             CA.index 1 a2 i = CA.index 1 (Scenario.three false) i.
Proof.
  split; [exact (three_models false)|].
  exact (push_then_pop_restores 1 false (Scenario.three false) [1; 2; 3] 4
           (three_models false)).
Defined.

(** X9: [shrink_to_fit()] run in any state the public operations can
  have built whose first [size()] slots hold the elements returns, keeps
  the size and every element, and leaves no allocated chunk behind the
  last element; a following [emplace_back] then appends as a vector
  would.  An empty array is cleared. *)
Theorem shrink_to_fit_restores_vector {T : Type} (LOG2 : nat)
    (trivially_destructible : bool) (a : ChunkedArray T) (l : list T) :
  CA.holds LOG2 a l →
  ∃ a',
    CA.shrink_to_fit LOG2 trivially_destructible a = Some a'
    ∧ CA.size a' = zlen l
    ∧ (∀ i, 0 ≤ i < zlen l → CA.index LOG2 a' i = zget l i)
    ∧ CA.chunk_count a' * csize LOG2 < zlen l + csize LOG2
    ∧ CA.models LOG2 a' l
    ∧ ∀ x, ∃ a'',
        CA.emplace_back LOG2 x a' = Some a''
        ∧ CA.size a'' = zlen l + 1
        ∧ ∀ i, 0 ≤ i < zlen l + 1 → CA.index LOG2 a'' i = zget (l ++ [x]) i.
Proof.
  intros Hh.
  destruct (holds_shrink_to_fit LOG2 trivially_destructible a l Hh)
    as (a' & Ha' & Hm').
  exists a'. split; [done|]. pose proof Hm' as ((_ & Ht & _) & He & Hl).
  split; [done|]. split; [done|]. split; [unfold CA.size in *; lia|].
  split; [done|]. intros x.
  destruct (chunked_models_emplace_back LOG2 a' l x Hm') as (a'' & Ha'' & Hm'').
  exists a''. split; [done|]. destruct Hm'' as (_ & He'' & Hl'').
  rewrite zlen_app in He'', Hl''. change (zlen [x]) with 1 in He'', Hl''.
  by split.
Qed.

Lemma shrink_to_fit_restores_vector_witness :
  CA.holds 1 (Scenario.one_left false) [1]
  ∧ ∃ a',
      CA.shrink_to_fit 1 false (Scenario.one_left false) = Some a'
      ∧ CA.size a' = zlen [1]
      ∧ (∀ i, 0 ≤ i < zlen [1] → CA.index 1 a' i = zget [1] i)
      ∧ CA.chunk_count a' * csize 1 < zlen [1] + csize 1
      ∧ CA.models 1 a' [1]
      ∧ ∀ x, ∃ a'',
          CA.emplace_back 1 x a' = Some a''
          ∧ CA.size a'' = zlen [1] + 1
          ∧ ∀ i, 0 ≤ i < zlen [1] + 1 → CA.index 1 a'' i = zget ([1] ++ [x]) i.
Proof.
  split; [exact (one_left_holds false)|].
  exact (shrink_to_fit_restores_vector 1 false (Scenario.one_left false) [1]
           (one_left_holds false)).
Defined.

(** X10: [reserve(n)] changes neither the size nor any element, and
  afterwards the allocated chunks have room for [n] elements; it never
  releases a chunk. *)
Theorem reserve_keeps_elements {T : Type} (LOG2 : nat)
    (a : ChunkedArray T) (l : list T) (n : Z) :
  CA.holds LOG2 a l →
  0 ≤ n →
  CA.size (CA.reserve LOG2 n a) = zlen l
  ∧ (∀ i, 0 ≤ i < zlen l → CA.index LOG2 (CA.reserve LOG2 n a) i = zget l i)
  ∧ CA.well_formed LOG2 (CA.reserve LOG2 n a)
  ∧ n ≤ CA.chunk_count (CA.reserve LOG2 n a) * csize LOG2
  ∧ CA.chunk_count a ≤ CA.chunk_count (CA.reserve LOG2 n a).
Proof.
  intros Hh Hn.
  destruct (holds_reserve LOG2 a l n Hh) as ((Hwf & He & Hl) & Hcap & Hcc).
  split; [done|]. split; [done|]. split; [done|]. split; [by apply Hcap|done].
Qed.

Lemma reserve_keeps_elements_witness :
  CA.holds 1 (Scenario.one_left false) [1]
  ∧ 0 ≤ 7
  ∧ CA.size (CA.reserve 1 7 (Scenario.one_left false)) = zlen [1]
  ∧ (∀ i, 0 ≤ i < zlen [1] →
          CA.index 1 (CA.reserve 1 7 (Scenario.one_left false)) i = zget [1] i)
  ∧ CA.well_formed 1 (CA.reserve 1 7 (Scenario.one_left false))
  ∧ 7 ≤ CA.chunk_count (CA.reserve 1 7 (Scenario.one_left false)) * csize 1
  ∧ CA.chunk_count (Scenario.one_left false)
    ≤ CA.chunk_count (CA.reserve 1 7 (Scenario.one_left false)).
Proof.
  assert (0 ≤ 7) as Hn by lia.
  split; [exact (one_left_holds false)|]. split; [exact Hn|].
  exact (reserve_keeps_elements 1 (Scenario.one_left false) [1] 7
           (one_left_holds false) Hn).
Defined.

(** ** Chunk spans *)

Lemma mapM_seqZ_spec {B} (f g : Z → option B) (len : Z) :
  0 ≤ len →
  (∀ k, 0 ≤ k < len → f k = g k ∧ is_Some (g k)) →
  ∃ vs, mapM f (seqZ 0 len) = Some vs
        ∧ zlen vs = len
        ∧ ∀ k, 0 ≤ k < len → zget vs k = g k.
Proof.
  intros Hlen Hf.
  assert (is_Some (mapM f (seqZ 0 len))) as [vs Hvs].
  { apply mapM_is_Some, Forall_forall. intros k [? ?]%elem_of_seqZ.
    destruct (Hf k) as [Hfk Hs]; [lia|]. unfold compose. by rewrite Hfk. }
  exists vs. split; [done|]. apply mapM_Some in Hvs.
  pose proof (Forall2_length _ _ _ Hvs) as Hl. rewrite length_seqZ in Hl.
  split; [unfold zlen; lia|].
  intros k Hk. unfold zget. rewrite decide_True by lia.
  destruct (lookup_lt_is_Some_2 vs (Z.to_nat k)) as [y Hy]; [lia|].
  assert (seqZ 0 len !! Z.to_nat k = Some k) as Hseq.
  { apply lookup_seqZ. lia. }
  pose proof (Forall2_lookup_lr _ _ _ _ _ _ Hvs Hseq Hy) as Hfk.
  destruct (Hf k Hk) as [Hfg _]. by rewrite Hy, <- Hfg.
Qed.

Section ChunkSpans.
Context {T : Type}.
Variable LOG2 : nat.
Implicit Types (a : ChunkedArray T) (l : list T).

Lemma read_ptr_index a ci k :
  0 ≤ k < csize LOG2 →
  CA.read_ptr a (ptr_offset (CA.get_chunk_ptr ci) k)
  = CA.index LOG2 a (ci * csize LOG2 + k).
Proof.
  intros Hk. unfold CA.read_ptr, CA.get_chunk_ptr, ptr_offset, CA.index.
  by rewrite ChunkIndex_compose, OffsetIndex_compose, Z.add_0_l by done.
Qed.

Lemma tight_shape a l :
  CA.models LOG2 a l →
  elemCount a = zlen l
  ∧ zlen l ≤ zlen (chunks a) * csize LOG2
  ∧ zlen (chunks a) * csize LOG2 < zlen l + csize LOG2.
Proof.
  intros (((_ & Hsz & _) & Htight & _) & He & _).
  unfold CA.chunk_count in *. lia.
Qed.

Lemma GetChunkSpan_models a l ci :
  CA.models LOG2 a l → zlen l < 2 ^ 64 → 0 ≤ ci →
  CA.GetChunkSpan LOG2 a ci
  = (if bool_decide (CA.chunk_count a ≤ ci) then None else CA.get_chunk_ptr ci,
     Z.max 0 (Z.min (csize LOG2) (zlen l - ci * csize LOG2))).
Proof.
  intros (He & Hfit & Htight)%tight_shape Hsmall Hci.
  pose proof (CHUNK_SIZE_pos LOG2) as Hpos. pose proof (zlen_nonneg l) as Hnn.
  unfold CA.GetChunkSpan, CA.chunk_count. case_bool_decide as Hout.
  - f_equal. nia.
  - case_bool_decide as Hlast.
    + f_equal. subst ci. rewrite He.
      rewrite (wrap64_small (_ * _)) by nia. rewrite wrap64_small by nia. nia.
    + f_equal. nia.
Qed.
End ChunkSpans.

(** X11: on an array without spare chunks, the span [GetChunkSpan(c)]
  covers exactly the elements with indices [c * CHUNK_SIZE] up to the
  next chunk boundary or the size, in order; it is the empty span for a
  chunk number at or past [chunk_count()]. *)
Theorem chunk_span_elements {T : Type} (LOG2 : nat)
    (a : ChunkedArray T) (l : list T) (c : Z) :
  CA.models LOG2 a l →
  zlen l < 2 ^ 64 →
  0 ≤ c →
  ∃ vs,
    CA.read_span a (CA.GetChunkSpan LOG2 a c) = Some vs
    ∧ zlen vs = Z.max 0 (Z.min (csize LOG2) (zlen l - c * csize LOG2))
    ∧ (∀ k, 0 ≤ k < zlen vs → zget vs k = zget l (c * csize LOG2 + k))
    ∧ (CA.chunk_count a ≤ c → CA.GetChunkSpan LOG2 a c = (None, 0)).
Proof.
  intros Hm Hsmall Hc. pose proof (tight_shape LOG2 a l Hm) as (He & Hfit & Htight).
  pose proof (CHUNK_SIZE_pos LOG2) as Hpos. pose proof (zlen_nonneg l) as Hnn.
  rewrite (GetChunkSpan_models LOG2 a l c Hm Hsmall Hc).
  set (len := Z.max 0 (Z.min (csize LOG2) (zlen l - c * csize LOG2))).
  unfold CA.read_span. cbn [fst snd]. unfold CA.chunk_count.
  case_bool_decide as Hout.
  - assert (len = 0) as -> by (unfold len; nia).
    exists []. repeat split; try done. intros k Hk. unfold zlen in Hk.
    cbn [length] in Hk. lia.
  - destruct (mapM_seqZ_spec
                (λ k, CA.read_ptr a (ptr_offset (CA.get_chunk_ptr c) k))
                (λ k, zget l (c * csize LOG2 + k)) len)
      as (vs & Hvs & Hlen & Hget); [unfold len; lia| |].
    { intros k Hk. assert (0 ≤ k < csize LOG2) as Hk' by (unfold len in Hk; lia).
      rewrite (read_ptr_index LOG2) by done.
      destruct Hm as (_ & _ & Hl).
      assert (0 ≤ c * csize LOG2 + k < zlen l) as Hr by (unfold len in Hk; nia).
      split; [by apply Hl|by apply zget_in_range]. }
    exists vs. split; [done|]. split; [done|]. split; [|lia].
    intros k Hk. apply Hget. lia.
Qed.

Lemma chunk_span_elements_witness :
  CA.models 1 (Scenario.three false) [1; 2; 3]
  ∧ zlen [1; 2; 3] < 2 ^ 64
  ∧ 0 ≤ 1
  ∧ ∃ vs,
      CA.read_span (Scenario.three false) (CA.GetChunkSpan 1 (Scenario.three false) 1)
      = Some vs
      ∧ zlen vs = Z.max 0 (Z.min (csize 1) (zlen [1; 2; 3] - 1 * csize 1))
      ∧ (∀ k, 0 ≤ k < zlen vs → zget vs k = zget [1; 2; 3] (1 * csize 1 + k))
      ∧ (CA.chunk_count (Scenario.three false) ≤ 1 →
         CA.GetChunkSpan 1 (Scenario.three false) 1 = (None, 0)).
Proof.
  assert (zlen [1; 2; 3] < 2 ^ 64) as Hsmall by (vm_compute; reflexivity).
  assert (0 ≤ 1) as Hc by lia.
  split; [exact (three_models false)|]. split; [exact Hsmall|]. split; [exact Hc|].
  exact (chunk_span_elements 1 (Scenario.three false) [1; 2; 3] 1
           (three_models false) Hsmall Hc).
Defined.

(** * Further properties of the registry *)

Section RegistryExtras.
Context {V CE CS CV : Type}.
Context {SE : Storage Entity CE} {SS : Storage Z CS} {SV : Storage V CV}.
Hypothesis LE : StorageLaws Entity CE.
Hypothesis LS : StorageLaws Z CS.
Hypothesis LV : StorageLaws V CV.
Variable dc : V.
Implicit Types (r : Reg.Registry (CE:=CE) (CS:=CS) (CV:=CV)).
Implicit Types (es : list Entity) (fl : list Z) (dense : CE) (sparse : CS).
Implicit Types (e h : Entity).

(** What [CreateEntity] does in a described state. *)
Lemma CreateEntity_describes es fl dense sparse r :
  Reg.describes es fl dense sparse r →
  (zlen es - zlen fl = EntityTraits.INVALID_INDEX
   ∧ Reg.CreateEntity dc r = Throw TooManyEntities r)
  ∨ (zlen es - zlen fl < EntityTraits.INVALID_INDEX
     ∧ ∃ e r' es' fl' dense' sparse',
         Reg.CreateEntity dc r = Ok e r'
         ∧ Reg.describes es' fl' dense' sparse' r'
         ∧ zlen es' - zlen fl' = zlen es - zlen fl + 1).
Proof.
  intros Hd. pose proof (describes_free_fits _ _ _ _ _ Hd) as Hfit.
  pose proof Hd as (_ & Hlen & _).
  destruct fl as [|i fl].
  - change (zlen (@nil Z)) with 0 in *.
    destruct (decide (zlen es < EntityTraits.INVALID_INDEX)) as [Hroom|Hfull].
    + right. split; [lia|].
      destruct (CreateEntity_fresh LE LS LV dc _ _ _ _ Hd Hroom)
        as (r' & d' & sp' & Hc & Hd').
      eexists _, r', _, _, d', sp'. split; [done|]. split; [done|].
      rewrite zlen_app. change (zlen [_]) with 1. change (zlen (@nil Z)) with 0. lia.
    + left. split; [lia|]. apply (CreateEntity_full LE dc _ _ _ _ Hd). lia.
  - right.
    destruct (CreateEntity_reuse LE LS LV dc _ _ _ _ _ _ Hd)
      as (head & r' & d' & sp' & Hhead & _ & Hc & Hd').
    assert (zlen (i :: fl) = zlen fl + 1) as Hcons
      by (unfold zlen; cbn [length]; lia).
    rewrite Hcons in *. pose proof (zlen_nonneg fl).
    split; [lia|]. eexists _, r', _, _, d', sp'. split; [done|]. split; [done|].
    rewrite zlen_zset. lia.
Qed.

(** X12: in every state reached by calls that returned or threw,
  [Size()] and [RawSize()] count the live entities: never negative and
  at most [INVALID_INDEX], one more after a [CreateEntity] that returns,
  one less after a [DestroyEntity] that returns, unchanged by [Set], and
  zero after [Clear]. *)
Theorem Size_counts_live_entities (n : nat) r :
  Reg.reachable dc n r →
  0 ≤ Reg.Size r ≤ EntityTraits.INVALID_INDEX
  ∧ Reg.RawSize r = Reg.Size r
  ∧ (∀ e r', Reg.CreateEntity dc r = Ok e r' → Reg.Size r' = Reg.Size r + 1)
  ∧ (∀ e r', Reg.DestroyEntity e r = Ok tt r' → Reg.Size r' = Reg.Size r - 1)
  ∧ (∀ k e v r', Reg.Set_ k e v r = Ok tt r' → Reg.Size r' = Reg.Size r)
  ∧ (∀ r', Reg.Clear r = Ok tt r' → Reg.Size r' = 0).
Proof.
  intros (es & fl & dense & sparse & Hd)%(reachable_inv LE LS LV).
  pose proof (describes_free_fits _ _ _ _ _ Hd) as Hfit.
  pose proof Hd as (_ & Hlen & _).
  rewrite (describes_Size LE _ _ _ _ _ Hd).
  split; [lia|]. split; [by apply (describes_Size LE _ _ _ _ _ Hd)|].
  split; [|split; [|split]].
  - intros e r' Hc.
    destruct (CreateEntity_describes _ _ _ _ _ Hd)
      as [[_ Hthrow]|(_ & e1 & r1 & es' & fl' & d' & sp' & Hc1 & Hd' & Hsz)];
      [congruence|].
    assert (r1 = r') as -> by congruence.
    by rewrite (describes_Size LE _ _ _ _ _ Hd').
  - intros e r' Hdestroy.
    destruct (DestroyEntity_returns LE LS LV _ _ _ _ _ _ _ Hd Hdestroy)
      as (_ & _ & d' & sp' & Hd').
    rewrite (describes_Size LE _ _ _ _ _ Hd'), zlen_zset.
    unfold zlen. cbn [length]. lia.
  - intros k e v r' Hset.
    by rewrite (describes_Size LE _ _ _ _ _
                  (Set_returns LV _ _ _ _ _ _ _ _ _ Hd Hset)).
  - intros r' Hclear.
    destruct (Clear_returns LE LS LV _ _ _ _ _ Hd) as (r1 & d' & sp' & Hc1 & Hd').
    assert (r1 = r') as -> by congruence.
    by rewrite (describes_Size LE _ _ _ _ _ Hd').
Qed.



(** X15: in every state reached by calls that returned or threw,
  [CreateEntity] has no undefined behaviour: it throws the capacity
  error, leaving the registry as it was, exactly when [INVALID_INDEX]
  entities are live, and returns a handle otherwise. *)
Theorem CreateEntity_capacity (n : nat) r :
  Reg.reachable dc n r →
  (Reg.Size r = EntityTraits.INVALID_INDEX
   ∧ Reg.CreateEntity dc r = Throw TooManyEntities r)
  ∨ (Reg.Size r < EntityTraits.INVALID_INDEX
     ∧ ∃ e r', Reg.CreateEntity dc r = Ok e r').
Proof.
  intros (es & fl & dense & sparse & Hd)%(reachable_inv LE LS LV).
  rewrite (describes_Size LE _ _ _ _ _ Hd).
  destruct (CreateEntity_describes _ _ _ _ _ Hd)
    as [[Hfull Hthrow]|(Hroom & e & r' & _ & _ & _ & _ & Hc & _)].
  - by left.
  - right. split; [done|]. by exists e, r'.
Qed.

(** X16: freed slots are reused last in, first out: after two
  [DestroyEntity] calls that return, the next [CreateEntity] returns a
  handle with the index destroyed last, and the one after it the index
  destroyed first. *)
Theorem free_slots_reused_lifo (n : nat) r e1 e2 r1 r2 :
  Reg.reachable dc n r →
  Reg.DestroyEntity e1 r = Ok tt r1 →
  Reg.DestroyEntity e2 r1 = Ok tt r2 →
  ∃ h2 r3 h1 r4,
    Reg.CreateEntity dc r2 = Ok h2 r3
    ∧ EntityToIndex h2 = EntityToIndex e2
    ∧ Reg.CreateEntity dc r3 = Ok h1 r4
    ∧ EntityToIndex h1 = EntityToIndex e1.
Proof.
  intros (es & fl & dense & sparse & Hd)%(reachable_inv LE LS LV) Hd1 Hd2.
  destruct (DestroyEntity_returns LE LS LV _ _ _ _ _ _ _ Hd Hd1)
    as (_ & He1 & d1 & sp1 & Hr1).
  destruct (DestroyEntity_returns LE LS LV _ _ _ _ _ _ _ Hr1 Hd2)
    as (_ & He2 & d2 & sp2 & Hr2).
  destruct (CreateEntity_reuse LE LS LV dc _ _ _ _ _ _ Hr2)
    as (head2 & r3 & d3 & sp3 & _ & _ & Hc3 & Hr3).
  destruct (CreateEntity_reuse LE LS LV dc _ _ _ _ _ _ Hr3)
    as (head1 & r4 & d4 & sp4 & _ & _ & Hc4 & Hr4).
  pose proof (EntityToIndex_range e1). pose proof (EntityToIndex_range e2).
  eexists _, r3, _, r4. split; [done|].
  split; [by rewrite EntityToIndex_Compose, Z.mod_small by lia|].
  split; [done|]. by rewrite EntityToIndex_Compose, Z.mod_small by lia.
Qed.
End RegistryExtras.

(** ** The registry properties at concrete inputs *)

Lemma Size_counts_live_entities_witness :
  @StorageLaws Entity _ Demo.KE
  ∧ @StorageLaws Z _ Demo.KS
  ∧ @StorageLaws Z _ Demo.KV
  ∧ Reg.reachable (SE:=Demo.KE) (SS:=Demo.KS) (SV:=Demo.KV) 0 2
      (Demo.chunked_after Demo.one_destroyed)
  ∧ 0 ≤ Reg.Size (SE:=Demo.KE) (Demo.chunked_after Demo.one_destroyed)
      ≤ EntityTraits.INVALID_INDEX
  ∧ Reg.RawSize (SE:=Demo.KE) (Demo.chunked_after Demo.one_destroyed)
    = Reg.Size (SE:=Demo.KE) (Demo.chunked_after Demo.one_destroyed)
  ∧ (∀ e r',
       Reg.CreateEntity (SE:=Demo.KE) (SS:=Demo.KS) (SV:=Demo.KV) 0
         (Demo.chunked_after Demo.one_destroyed) = Ok e r' →
       Reg.Size (SE:=Demo.KE) r'
       = Reg.Size (SE:=Demo.KE) (Demo.chunked_after Demo.one_destroyed) + 1)
  ∧ (∀ e r',
       Reg.DestroyEntity (SE:=Demo.KE) (SS:=Demo.KS) (SV:=Demo.KV) e
         (Demo.chunked_after Demo.one_destroyed) = Ok tt r' →
       Reg.Size (SE:=Demo.KE) r'
       = Reg.Size (SE:=Demo.KE) (Demo.chunked_after Demo.one_destroyed) - 1)
  ∧ (∀ k e v r',
       Reg.Set_ (SS:=Demo.KS) (SV:=Demo.KV) k e v
         (Demo.chunked_after Demo.one_destroyed) = Ok tt r' →
       Reg.Size (SE:=Demo.KE) r'
       = Reg.Size (SE:=Demo.KE) (Demo.chunked_after Demo.one_destroyed))
  ∧ (∀ r',
       Reg.Clear (SE:=Demo.KE) (SS:=Demo.KS) (SV:=Demo.KV)
         (Demo.chunked_after Demo.one_destroyed) = Ok tt r' →
       Reg.Size (SE:=Demo.KE) r' = 0).
Proof.
  pose proof (chunked_laws 1 true NullEntity) as LE.
  pose proof (chunked_laws 1 true 0) as LS.
  pose proof (chunked_laws 1 false 0) as LV.
  assert (Reg.reachable (SE:=Demo.KE) (SS:=Demo.KS) (SV:=Demo.KV) 0 2
            (Demo.chunked_after Demo.one_destroyed)) as Hreach.
  { apply (chunked_reachable Demo.one_destroyed). vm_compute. reflexivity. }
  do 4 (split; [assumption|]).
  exact (@Size_counts_live_entities Z _ _ _ Demo.KE Demo.KS Demo.KV LE LS LV
           0 2 _ Hreach).
Defined.



Lemma CreateEntity_capacity_witness :
  @StorageLaws Entity _ Demo.KE
  ∧ @StorageLaws Z _ Demo.KS
  ∧ @StorageLaws Z _ Demo.KV
  ∧ Reg.reachable (SE:=Demo.KE) (SS:=Demo.KS) (SV:=Demo.KV) 0 2
      (Demo.chunked_after Demo.one_destroyed)
  ∧ ((Reg.Size (SE:=Demo.KE) (Demo.chunked_after Demo.one_destroyed)
      = EntityTraits.INVALID_INDEX
      ∧ Reg.CreateEntity (SE:=Demo.KE) (SS:=Demo.KS) (SV:=Demo.KV) 0
          (Demo.chunked_after Demo.one_destroyed)
        = Throw TooManyEntities (Demo.chunked_after Demo.one_destroyed))
     ∨ (Reg.Size (SE:=Demo.KE) (Demo.chunked_after Demo.one_destroyed)
        < EntityTraits.INVALID_INDEX
        ∧ ∃ e r',
            Reg.CreateEntity (SE:=Demo.KE) (SS:=Demo.KS) (SV:=Demo.KV) 0
              (Demo.chunked_after Demo.one_destroyed) = Ok e r')).
Proof.
  pose proof (chunked_laws 1 true NullEntity) as LE.
  pose proof (chunked_laws 1 true 0) as LS.
  pose proof (chunked_laws 1 false 0) as LV.
  assert (Reg.reachable (SE:=Demo.KE) (SS:=Demo.KS) (SV:=Demo.KV) 0 2
            (Demo.chunked_after Demo.one_destroyed)) as Hreach.
  { apply (chunked_reachable Demo.one_destroyed). vm_compute. reflexivity. }
  do 4 (split; [assumption|]).
  exact (@CreateEntity_capacity Z _ _ _ Demo.KE Demo.KS Demo.KV LE LS LV
           0 2 _ Hreach).
Defined.

Lemma free_slots_reused_lifo_witness :
  @StorageLaws Entity _ Demo.VE
  ∧ @StorageLaws Z _ Demo.VS
  ∧ @StorageLaws Z _ Demo.VV
  ∧ Reg.reachable (SE:=Demo.VE) (SS:=Demo.VS) (SV:=Demo.VV) 0 2
      (Demo.contiguous_after Demo.three_created)
  ∧ Reg.DestroyEntity (SE:=Demo.VE) (SS:=Demo.VS) (SV:=Demo.VV) Demo.e1
      (Demo.contiguous_after Demo.three_created)
    = Ok tt (Demo.contiguous_after
               (Demo.three_created ++ [Reg.OpDestroyEntity Demo.e1]))
  ∧ Reg.DestroyEntity (SE:=Demo.VE) (SS:=Demo.VS) (SV:=Demo.VV) Demo.e0
      (Demo.contiguous_after (Demo.three_created ++ [Reg.OpDestroyEntity Demo.e1]))
    = Ok tt (Demo.contiguous_after
               (Demo.three_created
                ++ [Reg.OpDestroyEntity Demo.e1; Reg.OpDestroyEntity Demo.e0]))
  ∧ ∃ h2 r3 h1 r4,
      Reg.CreateEntity (SE:=Demo.VE) (SS:=Demo.VS) (SV:=Demo.VV) 0
        (Demo.contiguous_after
           (Demo.three_created
            ++ [Reg.OpDestroyEntity Demo.e1; Reg.OpDestroyEntity Demo.e0]))
      = Ok h2 r3
      ∧ EntityToIndex h2 = EntityToIndex Demo.e0
      ∧ Reg.CreateEntity (SE:=Demo.VE) (SS:=Demo.VS) (SV:=Demo.VV) 0 r3 = Ok h1 r4
      ∧ EntityToIndex h1 = EntityToIndex Demo.e1.
Proof.
  pose proof (vector_laws NullEntity) as LE.
  pose proof (vector_laws 0) as LS.
  assert (Reg.reachable (SE:=Demo.VE) (SS:=Demo.VS) (SV:=Demo.VV) 0 2
            (Demo.contiguous_after Demo.three_created)) as Hreach.
  { apply (contiguous_reachable Demo.three_created). vm_compute. reflexivity. }
  assert (Reg.DestroyEntity (SE:=Demo.VE) (SS:=Demo.VS) (SV:=Demo.VV) Demo.e1
            (Demo.contiguous_after Demo.three_created)
          = Ok tt (Demo.contiguous_after
                     (Demo.three_created ++ [Reg.OpDestroyEntity Demo.e1])))
    as Hd1 by (vm_compute; reflexivity).
  assert (Reg.DestroyEntity (SE:=Demo.VE) (SS:=Demo.VS) (SV:=Demo.VV) Demo.e0
            (Demo.contiguous_after
               (Demo.three_created ++ [Reg.OpDestroyEntity Demo.e1]))
          = Ok tt (Demo.contiguous_after
                     (Demo.three_created
                      ++ [Reg.OpDestroyEntity Demo.e1; Reg.OpDestroyEntity Demo.e0])))
    as Hd2 by (vm_compute; reflexivity).
  split; [exact LE|]. split; [exact LS|]. split; [exact LS|].
  do 3 (split; [assumption|]).
  exact (@free_slots_reused_lifo Z _ _ _ Demo.VE Demo.VS Demo.VV LE LS LS
           0 2 _ Demo.e1 Demo.e0 _ _ Hreach Hd1 Hd2).
Defined.

(** * The sparse sets in contiguous mode *)

Lemma zget_removelast {A} (l : list A) (i : Z) :
  i < zlen l - 1 → zget (take (length l - 1) l) i = zget l i.
Proof.
  intros Hi. unfold zget. case_decide; [|done].
  apply lookup_take_lt. unfold zlen in Hi. lia.
Qed.

Lemma zget_removelast_None {A} (l : list A) (i : Z) :
  zlen l - 1 ≤ i → zget (take (length l - 1) l) i = None.
Proof.
  intros Hi. apply zget_out_of_range. unfold zlen in *.
  rewrite length_take. lia.
Qed.

Lemma zlen_removelast {A} (l : list A) :
  0 < zlen l → zlen (take (length l - 1) l) = zlen l - 1.
Proof. intros Hl. unfold zlen in *. rewrite length_take. lia. Qed.

Lemma zlen_pos_not_nil {A} (l : list A) : 0 < zlen l → l ≠ [].
Proof. intros Hl ->. unfold zlen in Hl. cbn [length] in Hl. lia. Qed.

Section ContigStorage.
Context {V : Type}.
Variable dc : V.
Implicit Types (s : Contig.ComponentStorage V).
Implicit Types (L : Entity → Prop) (e h : Entity).

Lemma Init_vec idx e s :
  0 ≤ idx →
  Reg.Init (SE:=Contig.SE) (SS:=Contig.SS) (SV:=Contig.SV dc) dc idx e s
  = Some (Reg.mkComponentStorage
            (Reg.data s ++ [dc])
            (Reg.slotToEntity s ++ [e])
            (zset (Reg.indexToSlot s
                   ++ replicate (Z.to_nat (idx + 1) - length (Reg.indexToSlot s)) 0)
               idx (wrap32 (zlen (Reg.data s))))).
Proof.
  intros Hidx. unfold Reg.Init, Reg.EnsureSparseSlot.
  cbn [st_size st_emplace_back st_ensure_size st_set Contig.SE Contig.SS Contig.SV
       Vec.storage mbind option_bind].
  unfold Vec.emplace_back, Vec.ensure_size, Vec.resize, Vec.size.
  cbn [mbind option_bind].
  assert ((if bool_decide (zlen (Reg.indexToSlot s) ≤ idx + 1 - 1)
           then Some (take (Z.to_nat (idx + 1)) (Reg.indexToSlot s)
                      ++ replicate (Z.to_nat (idx + 1) - length (Reg.indexToSlot s)) 0)
           else Some (Reg.indexToSlot s))
          = Some (Reg.indexToSlot s
                  ++ replicate (Z.to_nat (idx + 1) - length (Reg.indexToSlot s)) 0))
    as ->.
  { case_bool_decide as Hle.
    - by rewrite take_ge by (unfold zlen in Hle; lia).
    - replace (Z.to_nat (idx + 1) - length (Reg.indexToSlot s))%nat with 0%nat
        by (unfold zlen in Hle; lia).
      by rewrite app_nil_r. }
  cbn [mbind option_bind]. unfold Vec.set.
  rewrite bool_decide_true; [done|].
  rewrite zlen_app, zlen_replicate. unfold zlen. lia.
Qed.

Lemma Get_vec idx s :
  Reg.Get (SS:=Contig.SS) (SV:=Contig.SV dc) idx s
  = slot ← zget (Reg.indexToSlot s) idx; zget (Reg.data s) slot.
Proof. done. Qed.

Lemma Init_ok L s e :
  Contig.storage_ok L s → (∀ h, L h → EntityToIndex h ≠ EntityToIndex e) →
  zlen (Reg.slotToEntity s) < 2 ^ 32 →
  ∃ s',
    Reg.Init (SE:=Contig.SE) (SS:=Contig.SS) (SV:=Contig.SV dc) dc
      (EntityToIndex e) e s = Some s'
    ∧ Contig.storage_ok (λ h, L h ∨ h = e) s'
    ∧ zlen (Reg.slotToEntity s') = zlen (Reg.slotToEntity s) + 1
    ∧ Reg.slotToEntity s' = Reg.slotToEntity s ++ [e]
    ∧ Reg.Get (SS:=Contig.SS) (SV:=Contig.SV dc) (EntityToIndex e) s' = Some dc
    ∧ ∀ h, L h →
        Reg.Get (SS:=Contig.SS) (SV:=Contig.SV dc) (EntityToIndex h) s'
        = Reg.Get (SS:=Contig.SS) (SV:=Contig.SV dc) (EntityToIndex h) s.
Proof.
  intros (Hz & HD & HS) Hfresh Hsmall.
  pose proof (EntityToIndex_range e) as Hir.
  rewrite Init_vec by lia. eexists. split; [done|].
  destruct s as [data dense sparse].
  cbn [Reg.data Reg.slotToEntity Reg.indexToSlot] in *.
  pose proof (zlen_nonneg dense) as Hnn.
  rewrite wrap32_small by lia.
  set (pad := replicate (Z.to_nat (EntityToIndex e + 1) - length sparse) 0).
  assert (EntityToIndex e < zlen (sparse ++ pad)) as Hroom.
  { rewrite zlen_app. unfold pad. rewrite zlen_replicate. unfold zlen. lia. }
  assert (∀ h, L h →
            zget (zset (sparse ++ pad) (EntityToIndex e) (zlen data)) (EntityToIndex h)
            = zget sparse (EntityToIndex h)) as Hold.
  { intros h Hh. destruct (HS h Hh) as (slot & Hsp & _).
    pose proof (zget_Some_range _ _ _ Hsp).
    rewrite zget_zset_ne by (intros Heq; by apply (Hfresh h Hh)).
    by rewrite zget_app_l by lia. }
  unfold Contig.storage_ok. cbn [Reg.data Reg.slotToEntity Reg.indexToSlot].
  split; [split; [|split]|split; [|split; [|split]]].
  - rewrite !zlen_app. change (zlen [dc]) with 1. change (zlen [e]) with 1. lia.
  - intros slot h Hslot.
    destruct (decide (slot < zlen dense)) as [Hlt|Hge].
    + rewrite zget_app_l in Hslot by done.
      destruct (HD slot h Hslot) as [Hh Hsp]. split; [by left|].
      by rewrite Hold.
    + pose proof (zget_Some_range _ _ _ Hslot) as Hr.
      rewrite zlen_app in Hr. change (zlen [e]) with 1 in Hr.
      assert (slot = zlen dense) as -> by lia.
      rewrite zget_app_r, Z.sub_diag in Hslot by lia. injection Hslot as <-.
      split; [by right|]. rewrite Hz. apply zget_zset_eq. lia.
  - intros h [Hh| ->].
    + destruct (HS h Hh) as (slot & Hsp & Hde). exists slot.
      rewrite Hold by done. split; [done|].
      pose proof (zget_Some_range _ _ _ Hde). by rewrite zget_app_l by lia.
    + exists (zlen dense). split; [rewrite Hz; apply zget_zset_eq; lia|].
      by rewrite zget_app_r, Z.sub_diag by lia.
  - rewrite zlen_app. change (zlen [e]) with 1. lia.
  - done.
  - rewrite Get_vec. cbn [Reg.data Reg.indexToSlot].
    rewrite zget_zset_eq by lia. cbn [mbind option_bind].
    by rewrite zget_app_r, Z.sub_diag by lia.
  - intros h Hh. rewrite !Get_vec. cbn [Reg.data Reg.indexToSlot].
    rewrite Hold by done.
    destruct (HS h Hh) as (slot & -> & Hde). cbn [mbind option_bind].
    pose proof (zget_Some_range _ _ _ Hde). by rewrite zget_app_l by lia.
Qed.

Lemma StorageSet_ok L s e v :
  Contig.storage_ok L s → L e →
  ∃ s',
    Reg.StorageSet (SS:=Contig.SS) (SV:=Contig.SV dc) (EntityToIndex e) v s = Some s'
    ∧ Contig.storage_ok L s'
    ∧ Reg.slotToEntity s' = Reg.slotToEntity s
    ∧ Reg.Get (SS:=Contig.SS) (SV:=Contig.SV dc) (EntityToIndex e) s' = Some v
    ∧ ∀ h, L h → h ≠ e →
        Reg.Get (SS:=Contig.SS) (SV:=Contig.SV dc) (EntityToIndex h) s'
        = Reg.Get (SS:=Contig.SS) (SV:=Contig.SV dc) (EntityToIndex h) s.
Proof.
  intros (Hz & HD & HS) He. destruct (HS e He) as (slot & Hsp & Hde).
  pose proof (zget_Some_range _ _ _ Hde) as Hslot.
  destruct s as [data dense sparse].
  cbn [Reg.data Reg.slotToEntity Reg.indexToSlot] in *.
  unfold Reg.StorageSet.
  cbn [st_get st_set Contig.SS Contig.SV Vec.storage Reg.data Reg.slotToEntity
       Reg.indexToSlot].
  unfold Vec.get, Vec.set. rewrite Hsp. cbn [mbind option_bind].
  rewrite bool_decide_true by lia. cbn [mbind option_bind].
  eexists. split; [done|].
  unfold Contig.storage_ok. cbn [Reg.data Reg.slotToEntity Reg.indexToSlot].
  split; [split; [by rewrite zlen_zset|done]|]. split; [done|]. split.
  - rewrite Get_vec. cbn [Reg.data Reg.indexToSlot]. rewrite Hsp.
    cbn [mbind option_bind]. apply zget_zset_eq. lia.
  - intros h Hh Hne. rewrite !Get_vec. cbn [Reg.data Reg.indexToSlot].
    destruct (HS h Hh) as (slot' & -> & Hde'). cbn [mbind option_bind].
    apply zget_zset_ne. intros ->. congruence.
Qed.

Lemma Kill_ok L s e :
  Contig.storage_ok L s → Contig.index_injective L → L e →
  zlen (Reg.slotToEntity s) < 2 ^ 32 →
  ∃ s',
    Reg.Kill (SE:=Contig.SE) (SS:=Contig.SS) (SV:=Contig.SV dc) (EntityToIndex e) s
    = Some s'
    ∧ Contig.storage_ok (λ h, L h ∧ h ≠ e) s'
    ∧ zlen (Reg.slotToEntity s') = zlen (Reg.slotToEntity s) - 1
    ∧ ∀ h, L h → h ≠ e →
        Reg.Get (SS:=Contig.SS) (SV:=Contig.SV dc) (EntityToIndex h) s'
        = Reg.Get (SS:=Contig.SS) (SV:=Contig.SV dc) (EntityToIndex h) s.
Proof.
  intros (Hz & HD & HS) Hinj He Hsmall. destruct (HS e He) as (slot & Hsp & Hde).
  pose proof (zget_Some_range _ _ _ Hde) as Hslot.
  destruct s as [data dense sparse].
  cbn [Reg.data Reg.slotToEntity Reg.indexToSlot] in *.
  assert (data ≠ []) as Hdata by (apply zlen_pos_not_nil; lia).
  assert (dense ≠ []) as Hdense by (apply zlen_pos_not_nil; lia).
  unfold Reg.Kill.
  cbn [st_get st_set st_size st_pop_back Contig.SE Contig.SS Contig.SV Vec.storage
       Reg.data Reg.slotToEntity Reg.indexToSlot].
  unfold Vec.get, Vec.size. rewrite Hsp. cbn [mbind option_bind].
  rewrite wrap64_small by lia. rewrite Hz.
  case_bool_decide as Hlast.
  - (* the killed entity sits in the last slot *)
    cbn [mbind option_bind Reg.data Reg.slotToEntity Reg.indexToSlot].
    unfold Vec.pop_back. rewrite !bool_decide_false by done.
    cbn [mbind option_bind]. eexists. split; [done|].
    unfold Contig.storage_ok. cbn [Reg.data Reg.slotToEntity Reg.indexToSlot].
    split; [split; [|split]|split].
    + rewrite !zlen_removelast by lia. lia.
    + intros slot' h Hslot'.
      pose proof (zget_Some_range _ _ _ Hslot') as Hr.
      rewrite zlen_removelast in Hr by lia.
      rewrite zget_removelast in Hslot' by lia.
      destruct (HD _ _ Hslot') as [Hh Hsp']. split; [|done]. split; [done|].
      intros ->. rewrite Hsp in Hsp'. injection Hsp' as <-. lia.
    + intros h [Hh Hne]. destruct (HS h Hh) as (slot' & Hsp' & Hde').
      exists slot'. split; [done|].
      pose proof (zget_Some_range _ _ _ Hde') as Hr.
      rewrite zget_removelast; [done|].
      destruct (decide (slot' = zlen dense - 1)) as [->|]; [|lia].
      exfalso. apply Hne. rewrite <- Hlast in Hde'. congruence.
    + rewrite zlen_removelast by lia. done.
    + intros h Hh Hne. rewrite !Get_vec. cbn [Reg.data Reg.indexToSlot].
      destruct (HS h Hh) as (slot' & Hsp' & Hde'). rewrite Hsp'.
      cbn [mbind option_bind].
      pose proof (zget_Some_range _ _ _ Hde') as Hr.
      apply zget_removelast.
      destruct (decide (slot' = zlen dense - 1)) as [->|]; [|lia].
      exfalso. apply Hne. rewrite <- Hlast in Hde'. congruence.
  - (* the last slot moves into the freed one *)
    destruct (zget_in_range data (zlen dense - 1)) as [moved Hmoved]; [lia|].
    destruct (zget_in_range dense (zlen dense - 1)) as [m Hm]; [lia|].
    destruct (HD _ _ Hm) as [HLm Hspm].
    pose proof (zget_Some_range _ _ _ Hspm) as Hmr.
    assert (m ≠ e) as Hme.
    { intros ->. rewrite Hsp in Hspm. by injection Hspm. }
    assert (EntityToIndex m ≠ EntityToIndex e) as Hmi.
    { intros Heq. apply Hme. by apply Hinj. }
    rewrite Hmoved, Hm. cbn [mbind option_bind]. unfold Vec.set.
    rewrite (bool_decide_true (0 ≤ slot < zlen data)) by lia.
    cbn [mbind option_bind].
    rewrite (bool_decide_true (0 ≤ slot < zlen dense)) by lia.
    cbn [mbind option_bind].
    rewrite (bool_decide_true (0 ≤ EntityToIndex m < zlen sparse)) by lia.
    cbn [mbind option_bind Reg.data Reg.slotToEntity Reg.indexToSlot].
    rewrite wrap32_small by lia.
    unfold Vec.pop_back.
    rewrite (bool_decide_false (zset data slot moved = []))
      by (apply zlen_pos_not_nil; rewrite zlen_zset; lia).
    cbn [mbind option_bind].
    rewrite (bool_decide_false (zset dense slot m = []))
      by (apply zlen_pos_not_nil; rewrite zlen_zset; lia).
    cbn [mbind option_bind]. eexists. split; [done|].
    unfold Contig.storage_ok. cbn [Reg.data Reg.slotToEntity Reg.indexToSlot].
    split; [split; [|split]|split].
    + rewrite !zlen_removelast by (rewrite zlen_zset; lia).
      rewrite !zlen_zset. lia.
    + intros slot' h Hslot'.
      pose proof (zget_Some_range _ _ _ Hslot') as Hr.
      rewrite zlen_removelast, zlen_zset in Hr by (rewrite zlen_zset; lia).
      rewrite zget_removelast in Hslot' by (rewrite zlen_zset; lia).
      destruct (decide (slot' = slot)) as [->|Hns].
      * rewrite zget_zset_eq in Hslot' by lia. injection Hslot' as <-.
        split; [done|]. apply zget_zset_eq. lia.
      * rewrite zget_zset_ne in Hslot' by done.
        destruct (HD _ _ Hslot') as [Hh Hsp'].
        assert (h ≠ e) as Hhe.
        { intros ->. rewrite Hsp in Hsp'. by injection Hsp'. }
        assert (h ≠ m) as Hhm.
        { intros ->. rewrite Hspm in Hsp'. injection Hsp' as <-. lia. }
        split; [done|]. rewrite zget_zset_ne; [done|].
        intros Heq. apply Hhm. symmetry. by apply Hinj.
    + intros h [Hh Hne]. destruct (HS h Hh) as (slot' & Hsp' & Hde').
      destruct (decide (h = m)) as [->|Hhm].
      * exists slot. split; [apply zget_zset_eq; lia|].
        rewrite zget_removelast by (rewrite zlen_zset; lia).
        apply zget_zset_eq. lia.
      * exists slot'.
        assert (slot' ≠ slot) by (intros ->; congruence).
        assert (slot' ≠ zlen dense - 1) by (intros ->; congruence).
        pose proof (zget_Some_range _ _ _ Hde') as Hr.
        split.
        { rewrite zget_zset_ne; [done|]. intros Heq. apply Hhm. symmetry.
          by apply Hinj. }
        rewrite zget_removelast by (rewrite zlen_zset; lia).
        by rewrite zget_zset_ne by done.
    + rewrite zlen_removelast by (rewrite zlen_zset; lia). by rewrite zlen_zset.
    + intros h Hh Hne. rewrite !Get_vec. cbn [Reg.data Reg.indexToSlot].
      destruct (HS h Hh) as (slot' & Hsp' & Hde').
      destruct (decide (h = m)) as [->|Hhm].
      * rewrite zget_zset_eq by lia. rewrite Hspm. cbn [mbind option_bind].
        rewrite zget_removelast by (rewrite zlen_zset; lia).
        rewrite zget_zset_eq by lia. by rewrite Hmoved.
      * assert (slot' ≠ slot) by (intros ->; congruence).
        assert (slot' ≠ zlen dense - 1) by (intros ->; congruence).
        pose proof (zget_Some_range _ _ _ Hde') as Hr.
        rewrite zget_zset_ne
          by (intros Heq; apply Hhm; symmetry; by apply Hinj).
        rewrite Hsp'. cbn [mbind option_bind].
        rewrite zget_removelast by (rewrite zlen_zset; lia).
        by rewrite zget_zset_ne by done.
Qed.
End ContigStorage.

(** ** What the registry operations do to the storages *)

Section RegistryStorages.
Context {V CE CS CV : Type}.
Context {SE : Storage Entity CE} {SS : Storage Z CS} {SV : Storage V CV}.
Hypothesis LE : StorageLaws Entity CE.
Hypothesis LS : StorageLaws Z CS.
Hypothesis LV : StorageLaws V CV.
Variable dc : V.
Implicit Types (r : Reg.Registry (CE:=CE) (CS:=CS) (CV:=CV)).
Implicit Types (es : list Entity) (fl : list Z) (dense : CE) (sparse : CS).
Implicit Types (e h : Entity).

(** The handle a [CreateEntity] returns and the table it leaves. *)
Lemma CreateEntity_table es fl dense sparse r e r' :
  Reg.describes es fl dense sparse r →
  Reg.CreateEntity dc r = Ok e r' →
  e ≠ NullEntity
  ∧ (∀ h, h ≠ NullEntity → zget es (EntityToIndex h) = Some h →
          EntityToIndex h ≠ EntityToIndex e)
  ∧ ∃ es' fl' dense' sparse',
      Reg.describes es' fl' dense' sparse' r'
      ∧ zget es' (EntityToIndex e) = Some e
      ∧ ∀ j, j ≠ EntityToIndex e → zget es' j = zget es j.
Proof.
  intros Hd Hc. pose proof Hd as (_ & Hlen & _).
  rewrite INVALID_INDEX_val in Hlen. pose proof (zlen_nonneg es) as Hnn.
  destruct fl as [|i fl].
  - destruct (decide (zlen es < EntityTraits.INVALID_INDEX)) as [Hroom|Hfull].
    2:{ rewrite (CreateEntity_full LE dc _ _ _ _ Hd) in Hc by lia. done. }
    destruct (CreateEntity_fresh LE LS LV dc _ _ _ _ Hd Hroom)
      as (r1 & d' & sp' & Hc1 & Hd').
    rewrite Hc1 in Hc. injection Hc as <- <-.
    rewrite INVALID_INDEX_val in Hroom.
    assert (EntityToIndex (ComposeEntity (zlen es) 0) = zlen es) as Hidx
      by (rewrite EntityToIndex_Compose; apply Z.mod_small; lia).
    split; [apply ComposeEntity_not_null; rewrite INVALID_INDEX_val; lia|].
    split.
    { intros h _ Hh. apply zget_Some_range in Hh. lia. }
    eexists _, _, d', sp'. split; [done|]. rewrite Hidx. split.
    + by rewrite zget_app_r, Z.sub_diag by lia.
    + intros j Hj. destruct (decide (j < zlen es)).
      * by rewrite zget_app_l by lia.
      * rewrite !zget_out_of_range; [done|lia|].
        rewrite zlen_app. change (zlen [_]) with 1. lia.
  - destruct (CreateEntity_reuse LE LS LV dc _ _ _ _ _ _ Hd)
      as (head & r1 & d' & sp' & Hhead & Hnext & Hc1 & Hd').
    rewrite Hc1 in Hc. injection Hc as <- <-.
    pose proof (zget_Some_range _ _ _ Hhead) as Hir.
    assert (EntityToIndex (ComposeEntity i (EntityToVersion head)) = i) as Hidx
      by (rewrite EntityToIndex_Compose; apply Z.mod_small; lia).
    split; [apply ComposeEntity_not_null; rewrite INVALID_INDEX_val; lia|].
    split.
    { intros h _ Hh Heq.
      apply (describes_live_not_free _ _ _ _ _ h Hd Hh).
      rewrite Heq, Hidx. left. }
    eexists _, _, d', sp'. split; [done|]. rewrite Hidx. split.
    + by apply zget_zset_eq.
    + intros j Hj. by apply zget_zset_ne.
Qed.

Lemma CreateEntity_storages es fl dense sparse r e r' :
  Reg.describes es fl dense sparse r →
  Reg.CreateEntity dc r = Ok e r' →
  Reg.for_each_tuple (Reg.Init dc (EntityToIndex e) e) (Reg.storages r)
  = Some (Reg.storages r').
Proof.
  intros Hd Hc. pose proof Hd as (Hm & Hlen & Hchain & _ & Hfs & _).
  rewrite INVALID_INDEX_val in Hlen.
  destruct fl as [|i fl].
  - unfold Reg.CreateEntity in Hc. rewrite Hfs in Hc.
    rewrite (bool_decide_false (0 < zlen [])) in Hc by (unfold zlen; cbn; lia).
    case_bool_decide; [done|].
    destruct (st_emplace_back _ _) as [ents|]; [|done].
    destruct (Reg.for_each_tuple _ _) as [ss|] eqn:Hss; [|done].
    by injection Hc as <- <-.
  - destruct (CreateEntity_reuse LE LS LV dc _ _ _ _ _ _ Hd)
      as (head & r1 & d' & sp' & Hhead & Hnext & Hc1 & _).
    pose proof (zget_Some_range _ _ _ Hhead) as Hir.
    assert (EntityToIndex e = Reg.fNext r) as Hidx.
    { rewrite Hc1 in Hc. injection Hc as <- _.
      rewrite EntityToIndex_Compose, Hnext. apply Z.mod_small. lia. }
    unfold Reg.CreateEntity in Hc. rewrite Hfs in Hc.
    rewrite bool_decide_true in Hc by (unfold zlen; cbn [length]; lia).
    destruct (st_get _ _) as [hd|]; [|done].
    destruct (st_set _ _ _) as [ents|]; [|done].
    destruct (st_get ents _) as [entity|]; [|done].
    destruct (Reg.for_each_tuple _ _) as [ss|] eqn:Hss; [|done].
    injection Hc as <- <-. by rewrite Hidx.
Qed.

Lemma DestroyEntity_storages e r r' :
  Reg.DestroyEntity e r = Ok tt r' →
  Reg.for_each_tuple (Reg.Kill (EntityToIndex e)) (Reg.storages r)
  = Some (Reg.storages r').
Proof.
  unfold Reg.DestroyEntity. destruct (Reg.CheckEntity r e); try done.
  destruct (Reg.for_each_tuple _ _) as [ss|]; [|done].
  destruct (st_get _ _) as [cur|]; [|done].
  destruct (st_set _ _ _) as [ents|]; [|done].
  by intros [= <-].
Qed.

Lemma Set_storages k e v r r' :
  Reg.Set_ k e v r = Ok tt r' →
  ∃ s s',
    Reg.storages r !! k = Some s
    ∧ Reg.StorageSet (EntityToIndex e) v s = Some s'
    ∧ Reg.storages r' = <[k := s']> (Reg.storages r)
    ∧ Reg.entities r' = Reg.entities r.
Proof.
  unfold Reg.Set_. destruct (Reg.storages r !! k) as [s|]; [|done].
  destruct (Reg.StorageSet _ v s) as [s'|] eqn:Hs'; [|done].
  intros [= <-]. by exists s, s'.
Qed.

Lemma SetSafe_live es fl dense sparse r k e v :
  Reg.describes es fl dense sparse r →
  e ≠ NullEntity → zget es (EntityToIndex e) = Some e →
  Reg.SetSafe k e v r = Reg.Set_ k e v r.
Proof.
  intros Hd Hn He. unfold Reg.SetSafe.
  by rewrite (CheckEntity_live LE _ _ _ _ _ e Hd Hn He).
Qed.

Lemma reachable_storages_length n r :
  Reg.reachable dc n r → length (Reg.storages r) = n.
Proof.
  induction 1 as [|r op r' Hr IH Hstep].
  - cbn [Reg.storages Reg.new_registry]. apply length_replicate.
  - destruct (reachable_inv LE LS LV dc n r Hr) as (es & fl & dense & sparse & Hd).
    destruct op as [|e|k e v|k e v|]; cbn [Reg.step] in Hstep.
    + destruct (Reg.CreateEntity dc r) as [e s|err s|] eqn:Hc; try done.
      * injection Hstep as ->.
        pose proof (CreateEntity_storages _ _ _ _ _ _ _ Hd Hc) as Hss.
        apply length_mapM in Hss. lia.
      * injection Hstep as ->. unfold Reg.CreateEntity in Hc.
        repeat case_match; by simplify_eq.
    + destruct (Reg.DestroyEntity e r) as [[] s|err s|] eqn:Hc; try done.
      * injection Hstep as ->.
        pose proof (DestroyEntity_storages _ _ _ Hc) as Hss.
        apply length_mapM in Hss. lia.
      * injection Hstep as ->. unfold Reg.DestroyEntity, Reg.CheckEntity in Hc.
        repeat case_match; by simplify_eq.
    + destruct (Reg.Set_ k e v r) as [[] s|err s|] eqn:Hc; try done.
      * injection Hstep as ->.
        destruct (Set_storages _ _ _ _ _ Hc) as (s0 & s' & _ & _ & -> & _).
        by rewrite length_insert.
      * unfold Reg.Set_ in Hc. by repeat case_match.
    + destruct (Reg.SetSafe k e v r) as [[] s|err s|] eqn:Hc; try done.
      * injection Hstep as ->. unfold Reg.SetSafe in Hc.
        destruct (Reg.CheckEntity r e); try done.
        destruct (Set_storages _ _ _ _ _ Hc) as (s0 & s' & _ & _ & -> & _).
        by rewrite length_insert.
      * injection Hstep as ->. unfold Reg.SetSafe, Reg.CheckEntity, Reg.Set_ in Hc.
        repeat case_match; by simplify_eq.
    + destruct (Reg.Clear r) as [[] s|err s|] eqn:Hc; try done.
      * injection Hstep as ->. unfold Reg.Clear in Hc.
        destruct (Reg.for_each_tuple _ _) as [ss|] eqn:Hss; [|done].
        destruct (st_clear _) as [ents|]; [|done]. injection Hc as <-.
        apply length_mapM in Hss. cbn [Reg.storages]. lia.
      * unfold Reg.Clear in Hc. by repeat case_match.
Qed.
End RegistryStorages.

(** * The registry in contiguous mode *)

Lemma Forall_Forall2_step {A} (P Q : A → Prop) (R R' : A → A → Prop) l k :
  (∀ x y, P x → R x y → Q y ∧ R' x y) →
  Forall P l → Forall2 R l k → Forall Q k ∧ Forall2 R' l k.
Proof.
  intros Hstep HP HR. induction HR as [|x y l k Hxy _ IH]; [by split|].
  apply Forall_cons in HP as [Hx Hl]. destruct (IH Hl) as [? ?].
  destruct (Hstep _ _ Hx Hxy). split; by constructor.
Qed.

Section StepCases.
Context {V CE CS CV : Type}.
Context {SE : Storage Entity CE} {SS : Storage Z CS} {SV : Storage V CV}.
Variable dc : V.
Implicit Types (r : Reg.Registry (CE:=CE) (CS:=CS) (CV:=CV)).

(** A step that does not go wrong either leaves the registry as it was
  (the operation threw) or is an operation that returned. *)
Lemma step_cases op r r' :
  Reg.step dc op r = Some r' →
  r' = r
  ∨ (∃ e, op = Reg.OpCreateEntity ∧ Reg.CreateEntity dc r = Ok e r')
  ∨ (∃ e, op = Reg.OpDestroyEntity e ∧ Reg.DestroyEntity e r = Ok tt r')
  ∨ (∃ k e v, Reg.Set_ k e v r = Ok tt r')
  ∨ Reg.Clear r = Ok tt r'.
Proof.
  destruct op as [|e|k e v|k e v|]; cbn [Reg.step]; intros Hstep.
  - destruct (Reg.CreateEntity dc r) as [e s|err s|] eqn:Hc; try done.
    + injection Hstep as ->. right. left. by exists e.
    + injection Hstep as ->. left. unfold Reg.CreateEntity in Hc.
      repeat case_match; by simplify_eq.
  - destruct (Reg.DestroyEntity e r) as [[] s|err s|] eqn:Hc; try done.
    + injection Hstep as ->. right. right. left. by exists e.
    + injection Hstep as ->. left. unfold Reg.DestroyEntity, Reg.CheckEntity in Hc.
      repeat case_match; by simplify_eq.
  - destruct (Reg.Set_ k e v r) as [[] s|err s|] eqn:Hc; try done.
    + injection Hstep as ->. right. right. right. left. by exists k, e, v.
    + unfold Reg.Set_ in Hc. by repeat case_match.
  - destruct (Reg.SetSafe k e v r) as [[] s|err s|] eqn:Hc; try done.
    + injection Hstep as ->. unfold Reg.SetSafe in Hc.
      destruct (Reg.CheckEntity r e); try done.
      right. right. right. left. by exists k, e, v.
    + injection Hstep as ->. left.
      unfold Reg.SetSafe, Reg.CheckEntity, Reg.Set_ in Hc.
      repeat case_match; by simplify_eq.
  - destruct (Reg.Clear r) as [[] s|err s|] eqn:Hc; try done.
    + injection Hstep as ->. by do 4 right.
    + unfold Reg.Clear in Hc. by repeat case_match.
Qed.
End StepCases.

Section ContigRegistry.
Context {V : Type}.
Variable dc : V.
Implicit Types (r : Contig.RegistryOf V) (s : Contig.ComponentStorage V).
Implicit Types (e h : Entity) (k : nat) (fl : list Z).

Local Abbreviation LE := (vector_laws NullEntity : @StorageLaws _ _ Contig.SE).
Local Abbreviation LS := (vector_laws 0 : @StorageLaws _ _ Contig.SS).
Local Abbreviation LV := (vector_laws dc : @StorageLaws _ _ (Contig.SV dc)).
Local Abbreviation describes :=
  (Reg.describes (SE:=Contig.SE) (SS:=Contig.SS) (SV:=Contig.SV dc)).
Local Abbreviation Get := (Reg.Get (SS:=Contig.SS) (SV:=Contig.SV dc)).

Lemma contig_describes n r :
  Contig.reachable dc n r →
  ∃ fl dense sparse, describes (Reg.entities r) fl dense sparse r.
Proof.
  intros Hr.
  destruct (reachable_inv LE LS LV dc n r Hr) as (es & fl & dense & sparse & Hd).
  pose proof Hd as (Hm & _). change (Reg.entities r = es) in Hm. subst es.
  by exists fl, dense, sparse.
Qed.

Lemma live_index_injective (es : list Entity) :
  Contig.index_injective (Contig.live es).
Proof. intros e1 e2 [_ H1] [_ H2] Heq. rewrite Heq in H1. congruence. Qed.

Lemma storage_ok_ext (L L' : Entity → Prop) s :
  (∀ h, L h ↔ L' h) → Contig.storage_ok L s → Contig.storage_ok L' s.
Proof.
  intros HL (Hlen & Hdense & Hlive). split; [done|]. split.
  - intros slot e He. destruct (Hdense _ _ He) as [? ?]. split; [by apply HL|done].
  - intros e He. apply Hlive. by apply HL.
Qed.

Lemma dense_small es fl dense sparse r :
  describes es fl dense sparse r →
  Forall (λ s, zlen (Reg.slotToEntity s) < 2 ^ 32) (Reg.storages r).
Proof.
  intros Hd. pose proof (describes_free_fits _ _ _ _ _ Hd) as Hfit.
  destruct Hd as (_ & Hlen & _ & _ & _ & Hst).
  eapply Forall_impl; [exact Hst|]. intros s (-> & _ & _ & _ & _ & Hsz & _).
  rewrite INVALID_INDEX_val in Hlen. change (zlen dense = zlen es - zlen fl) in Hsz.
  lia.
Qed.

Lemma sets_with_bound es fl dense sparse r :
  describes es fl dense sparse r → Contig.sparse_sets_ok r →
  Forall (λ s, Contig.storage_ok (Contig.live (Reg.entities r)) s
               ∧ zlen (Reg.slotToEntity s) < 2 ^ 32) (Reg.storages r).
Proof.
  intros Hd Hok. apply Forall_and. split; [done|]. by eapply dense_small.
Qed.

Lemma create_step fl dense sparse r e r' :
  describes (Reg.entities r) fl dense sparse r →
  Contig.sparse_sets_ok r →
  Contig.CreateEntity dc r = Ok e r' →
  (∀ h, Contig.live (Reg.entities r') h ↔ Contig.live (Reg.entities r) h ∨ h = e)
  ∧ ¬ Contig.live (Reg.entities r) e
  ∧ Contig.sparse_sets_ok r'
  ∧ Forall2 (λ s s',
       Reg.slotToEntity s' = Reg.slotToEntity s ++ [e]
       ∧ Get (EntityToIndex e) s' = Some dc
       ∧ ∀ h, Contig.live (Reg.entities r) h →
              Get (EntityToIndex h) s' = Get (EntityToIndex h) s)
     (Reg.storages r) (Reg.storages r').
Proof.
  intros Hd Hok Hc. unfold Contig.CreateEntity in Hc.
  destruct (CreateEntity_table LE LS LV dc _ _ _ _ _ _ _ Hd Hc)
    as (Hnn & Hfresh & es' & fl' & d' & sp' & Hd' & Hee & Hother).
  pose proof Hd' as (Hm' & _). change (Reg.entities r' = es') in Hm'. subst es'.
  assert (∀ h, Contig.live (Reg.entities r') h
               ↔ Contig.live (Reg.entities r) h ∨ h = e) as Hlive.
  { intros h. unfold Contig.live. split.
    - intros [Hn Hh]. destruct (decide (EntityToIndex h = EntityToIndex e)) as [Heq|Hne].
      + right. rewrite Heq, Hee in Hh. congruence.
      + left. split; [done|]. by rewrite <- Hother.
    - intros [[Hn Hh]| ->]; [|done].
      split; [done|]. rewrite Hother; [done|]. by apply Hfresh. }
  split; [done|]. split.
  { intros [Hn Hh]. by apply (Hfresh e). }
  pose proof (CreateEntity_storages LE LS LV dc _ _ _ _ _ _ _ Hd Hc) as Hss.
  unfold Reg.for_each_tuple in Hss. apply mapM_Some_1 in Hss.
  refine (Forall_Forall2_step _ _ _ _ _ _ _ (sets_with_bound _ _ _ _ _ Hd Hok) Hss).
  intros s s' [Hs Hsmall] HI.
  destruct (Init_ok dc _ s e Hs) as (s'' & HI' & Hok' & _ & Hdense' & Hget & Hframe);
    [by intros h [Hn Hh]; apply Hfresh|done|].
  rewrite HI in HI'. injection HI' as <-.
  split; [|done]. eapply storage_ok_ext; [|exact Hok'].
  intros h. symmetry. apply Hlive.
Qed.

Lemma destroy_step fl dense sparse r e :
  describes (Reg.entities r) fl dense sparse r →
  Contig.sparse_sets_ok r →
  Contig.live (Reg.entities r) e →
  ∃ r',
    Contig.DestroyEntity dc e r = Ok tt r'
    ∧ (∀ h, Contig.live (Reg.entities r') h
            ↔ Contig.live (Reg.entities r) h ∧ h ≠ e)
    ∧ Contig.sparse_sets_ok r'
    ∧ Forall2 (λ s s',
         ∀ h, Contig.live (Reg.entities r) h → h ≠ e →
              Get (EntityToIndex h) s' = Get (EntityToIndex h) s)
       (Reg.storages r) (Reg.storages r').
Proof.
  intros Hd Hok [Hn He].
  pose proof (sets_with_bound _ _ _ _ _ Hd Hok) as Hall.
  assert (is_Some (mapM (Reg.Kill (SE:=Contig.SE) (SS:=Contig.SS) (SV:=Contig.SV dc)
                           (EntityToIndex e)) (Reg.storages r))) as [ss Hss].
  { apply mapM_is_Some. eapply Forall_impl; [exact Hall|].
    intros s [Hs Hsmall]. unfold compose.
    destruct (Kill_ok dc _ s e Hs (live_index_injective _)) as (s' & -> & _);
      [done|done|by eexists]. }
  pose proof (zget_Some_range _ _ _ He) as Hir.
  assert (Contig.DestroyEntity dc e r
          = Ok tt (Reg.mkRegistry
                     (zset (Reg.entities r) (EntityToIndex e)
                        (ComposeEntity (Reg.fNext r) (NextEntityVersion e)))
                     (EntityToIndex e) (wrap32 (Reg.fSize r + 1)) ss)) as Hdes.
  { unfold Contig.DestroyEntity, Reg.DestroyEntity.
    rewrite (CheckEntity_live LE _ _ _ _ _ e Hd Hn He).
    unfold Reg.for_each_tuple. rewrite Hss.
    change (st_get (Reg.entities r) (EntityToIndex e))
      with (zget (Reg.entities r) (EntityToIndex e)).
    rewrite He. cbn [st_set Contig.SE Vec.storage]. unfold Vec.set.
    by rewrite bool_decide_true by lia. }
  eexists. split; [exact Hdes|].
  destruct (DestroyEntity_returns LE LS LV _ _ _ _ _ _ _ Hd Hdes)
    as (_ & _ & d' & sp' & Hd').
  cbn [Reg.entities Reg.storages].
  assert (∀ h,
    Contig.live (zset (Reg.entities r) (EntityToIndex e)
                   (ComposeEntity (Reg.fNext r) (NextEntityVersion e))) h
    ↔ Contig.live (Reg.entities r) h ∧ h ≠ e) as Hlive.
  { intros h. unfold Contig.live. split.
    - intros [Hhn Hh].
      pose proof (describes_live_not_free _ _ _ _ _ h Hd' Hh) as Hnf.
      assert (EntityToIndex e ≠ EntityToIndex h) as Hne
        by (intros Heq; apply Hnf; rewrite Heq; left).
      rewrite zget_zset_ne in Hh by done. split; [done|]. by intros ->.
    - intros [[Hhn Hh] Hne]. split; [done|]. rewrite zget_zset_ne; [done|].
      intros Heq. apply Hne.
      by apply (live_index_injective (Reg.entities r)). }
  split; [done|].
  apply mapM_Some_1 in Hss.
  refine (Forall_Forall2_step _ _ _ _ _ _ _ Hall Hss).
  intros s s' [Hs Hsmall] HK.
  destruct (Kill_ok dc _ s e Hs (live_index_injective _)) as (s'' & HK' & Hok' & _ & Hframe);
    [done|done|].
  rewrite HK in HK'. injection HK' as <-.
  split; [|done]. eapply storage_ok_ext; [|exact Hok'].
  intros h. symmetry. apply Hlive.
Qed.

(** Unchecked [Set] writes one value of the dense array, whatever the
  handle: the sparse set keeps its shape. *)
Lemma StorageSet_keeps (L : Entity → Prop) s idx v s' :
  Reg.StorageSet (SS:=Contig.SS) (SV:=Contig.SV dc) idx v s = Some s' →
  Contig.storage_ok L s → Contig.storage_ok L s'.
Proof.
  unfold Reg.StorageSet.
  destruct (st_get (Reg.indexToSlot s) idx) as [slot|]; [|done].
  cbn [mbind option_bind st_set Contig.SV Vec.storage]. unfold Vec.set.
  case_bool_decide; [|done]. cbn [mbind option_bind]. intros [= <-].
  intros (Hlen & Hdense & Hlive). split; [|done].
  cbn [Reg.data Reg.slotToEntity]. by rewrite zlen_zset.
Qed.

Lemma set_step r k e v s :
  Contig.sparse_sets_ok r →
  Contig.live (Reg.entities r) e →
  Reg.storages r !! k = Some s →
  ∃ r',
    Contig.Set_ dc k e v r = Ok tt r'
    ∧ Reg.entities r' = Reg.entities r
    ∧ Contig.GetByIndex dc k e r' = Some v
    ∧ ∀ k' h, Contig.live (Reg.entities r) h → k' ≠ k ∨ h ≠ e →
        Contig.GetByIndex dc k' h r' = Contig.GetByIndex dc k' h r.
Proof.
  intros Hok He Hk.
  assert (Contig.storage_ok (Contig.live (Reg.entities r)) s) as Hs.
  { unfold Contig.sparse_sets_ok in Hok. rewrite Forall_lookup in Hok. by eapply Hok. }
  destruct (StorageSet_ok dc _ s e v Hs He) as (s' & Hset & _ & _ & Hget & Hframe).
  unfold Contig.Set_, Reg.Set_. rewrite Hk, Hset.
  eexists. split; [done|]. cbn [Reg.entities]. split; [done|].
  unfold Contig.GetByIndex, Reg.GetByIndex. cbn [Reg.storages].
  pose proof (lookup_lt_Some _ _ _ Hk) as Hlt. split.
  - by rewrite list_lookup_insert_eq by done.
  - intros k' h Hh Hne. destruct (decide (k' = k)) as [->|Hk'].
    + rewrite list_lookup_insert_eq by done. rewrite Hk.
      cbn [mbind option_bind]. apply Hframe; [done|]. by destruct Hne.
    + by rewrite list_lookup_insert_ne by done.
Qed.

Lemma storage_ok_empty :
  Contig.storage_ok (Contig.live [])
    (Reg.mkComponentStorage (@nil V) (@nil Entity) (@nil Z)).
Proof.
  split; [done|]. split.
  - intros slot e He%zget_Some_range. cbn in He. unfold zlen in He. cbn in He. lia.
  - intros e [_ He%zget_Some_range]. cbn in He. unfold zlen in He. cbn in He. lia.
Qed.

Lemma clear_step r r' :
  Contig.Clear dc r = Ok tt r' → Contig.sparse_sets_ok r'.
Proof.
  unfold Contig.Clear, Reg.Clear.
  destruct (Reg.for_each_tuple _ _) as [ss|] eqn:Hss; [|done].
  cbn [st_clear Contig.SE Vec.storage]. unfold Vec.clear. intros [= <-].
  unfold Contig.sparse_sets_ok. cbn [Reg.entities Reg.storages].
  unfold Reg.for_each_tuple in Hss. apply mapM_Some_1 in Hss.
  apply Forall_lookup. intros i s' Hi.
  destruct (Forall2_lookup_r _ _ _ _ _ Hss Hi) as (s & _ & Hclr).
  unfold Reg.StorageClear in Hclr. cbn in Hclr. injection Hclr as <-.
  apply storage_ok_empty.
Qed.

Lemma contig_sparse_sets n r :
  Contig.reachable dc n r → Contig.sparse_sets_ok r.
Proof.
  induction 1 as [|r op r' Hr IH Hstep].
  - unfold Contig.sparse_sets_ok. cbn [Reg.new_registry Reg.entities Reg.storages].
    apply Forall_replicate. apply storage_ok_empty.
  - destruct (contig_describes n r Hr) as (fl & dense & sparse & Hd).
    destruct (step_cases dc _ _ _ Hstep)
      as [->|[(e & _ & Hc)|[(e & _ & Hc)|[(k & e & v & Hc)|Hc]]]]; [done|..].
    + by destruct (create_step _ _ _ _ _ _ Hd IH Hc) as (_ & _ & ? & _).
    + destruct (DestroyEntity_returns LE LS LV _ _ _ _ _ _ _ Hd Hc) as (Hn & He & _).
      destruct (destroy_step _ _ _ _ e Hd IH (conj Hn He)) as (r'' & Hc' & _ & ? & _).
      unfold Contig.DestroyEntity in Hc'. rewrite Hc in Hc'. by injection Hc' as <-.
    + destruct (Set_storages _ _ _ _ _ Hc) as (s & s' & Hk & Hset & Hss & Hes).
      unfold Contig.sparse_sets_ok. rewrite Hss, Hes.
      apply Forall_insert; [done|]. eapply StorageSet_keeps; [done|].
      unfold Contig.sparse_sets_ok in IH. rewrite Forall_lookup in IH. by eapply IH.
    + by eapply clear_step.
Qed.
End ContigRegistry.

(** * Components in contiguous mode *)

Section ContigComponents.
Context {V : Type}.
Variable dc : V.
Implicit Types (r : Contig.RegistryOf V) (s : Contig.ComponentStorage V).
Implicit Types (e h : Entity) (k : nat) (fl : list Z).

Local Abbreviation LE := (vector_laws NullEntity : @StorageLaws _ _ Contig.SE).
Local Abbreviation LS := (vector_laws 0 : @StorageLaws _ _ Contig.SS).
Local Abbreviation LV := (vector_laws dc : @StorageLaws _ _ (Contig.SV dc)).
Local Abbreviation describes :=
  (Reg.describes (SE:=Contig.SE) (SS:=Contig.SS) (SV:=Contig.SV dc)).

Lemma contig_valid_live fl dense sparse r e :
  describes (Reg.entities r) fl dense sparse r →
  Contig.IsValidEntity r e = Some true ↔ Contig.live (Reg.entities r) e.
Proof.
  intros Hd. unfold Contig.IsValidEntity.
  rewrite (IsValidEntity_describes LE _ _ _ _ _ e Hd). unfold Contig.live. split.
  - intros [= H]. by apply bool_decide_eq_true in H.
  - intros H. f_equal. by apply bool_decide_eq_true.
Qed.

Lemma contig_storages_length n r :
  Contig.reachable dc n r → length (Reg.storages r) = n.
Proof. apply (reachable_storages_length LE LS LV). Qed.

Lemma contig_get_live n r k e :
  Contig.reachable dc n r → (k < n)%nat → Contig.live (Reg.entities r) e →
  ∃ s slot x,
    Reg.storages r !! k = Some s
    ∧ zget (Reg.indexToSlot s) (EntityToIndex e) = Some slot
    ∧ zget (Reg.slotToEntity s) slot = Some e
    ∧ zget (Reg.data s) slot = Some x
    ∧ Contig.GetByIndex dc k e r = Some x.
Proof.
  intros Hr Hk He.
  pose proof (contig_sparse_sets dc n r Hr) as Hok.
  pose proof (contig_storages_length n r Hr) as Hlen.
  destruct (lookup_lt_is_Some_2 (Reg.storages r) k) as [s Hs]; [lia|].
  unfold Contig.sparse_sets_ok in Hok. rewrite Forall_lookup in Hok.
  destruct (Hok _ _ Hs) as (Hdl & _ & Hlive).
  destruct (Hlive e He) as (slot & Hsp & Hde).
  destruct (zget_in_range (Reg.data s) slot) as [x Hx].
  { apply zget_Some_range in Hde. lia. }
  exists s, slot, x. repeat (split; [done|]).
  unfold Contig.GetByIndex, Reg.GetByIndex. rewrite Hs. cbn [mbind option_bind].
  rewrite (Get_vec dc). rewrite Hsp. done.
Qed.

(** X17: in contiguous mode [Set] on a valid handle returns, a [Get] of
  the same component then reads the value written, every other component
  of every valid entity reads as before, and the valid handles are the
  same. *)
Theorem contiguous_set_then_get (n : nat) r k e (v : V) :
  Contig.reachable dc n r → (k < n)%nat →
  Contig.IsValidEntity r e = Some true →
  ∃ r',
    Contig.Set_ dc k e v r = Ok tt r'
    ∧ Contig.GetByIndex dc k e r' = Some v
    ∧ (∀ h, Contig.IsValidEntity r' h = Contig.IsValidEntity r h)
    ∧ ∀ k' h, Contig.IsValidEntity r h = Some true → k' ≠ k ∨ h ≠ e →
        Contig.GetByIndex dc k' h r' = Contig.GetByIndex dc k' h r.
Proof.
  intros Hr Hk He.
  destruct (contig_describes dc n r Hr) as (fl & dense & sparse & Hd).
  pose proof (contig_sparse_sets dc n r Hr) as Hok.
  apply (contig_valid_live _ _ _ _ _ Hd) in He.
  destruct (lookup_lt_is_Some_2 (Reg.storages r) k) as [s Hs].
  { rewrite (contig_storages_length n r Hr). lia. }
  destruct (set_step dc r k e v s Hok He Hs) as (r' & Hset & Hes & Hget & Hframe).
  exists r'. split; [done|]. split; [done|]. split.
  - intros h. unfold Contig.IsValidEntity, Reg.IsValidEntity. by rewrite Hes.
  - intros k' h Hh Hne. apply Hframe; [|done].
    by apply (contig_valid_live _ _ _ _ _ Hd).
Qed.

(** X18: in contiguous mode the handle [CreateEntity] returns was not
  valid before and is valid afterwards, each of its components reads as
  the default value, and the components of the entities that were valid
  read as before. *)
Theorem contiguous_create_gives_defaults (n : nat) r r' e :
  Contig.reachable dc n r →
  Contig.CreateEntity dc r = Ok e r' →
  Contig.IsValidEntity r e = Some false
  ∧ Contig.IsValidEntity r' e = Some true
  ∧ ∀ k, (k < n)%nat →
      Contig.GetByIndex dc k e r' = Some dc
      ∧ ∀ h, Contig.IsValidEntity r h = Some true →
          Contig.GetByIndex dc k h r' = Contig.GetByIndex dc k h r.
Proof.
  intros Hr Hc.
  destruct (contig_describes dc n r Hr) as (fl & dense & sparse & Hd).
  pose proof (contig_sparse_sets dc n r Hr) as Hok.
  destruct (create_step dc _ _ _ _ _ _ Hd Hok Hc) as (Hlive & Hnew & _ & Hss).
  assert (Contig.reachable dc n r') as Hr'.
  { eapply Reg.reachable_step; [exact Hr|].
    instantiate (1 := Reg.OpCreateEntity). cbn [Reg.step].
    unfold Contig.CreateEntity in Hc. by rewrite Hc. }
  destruct (contig_describes dc n r' Hr') as (fl' & dense' & sparse' & Hd').
  split.
  { unfold Contig.IsValidEntity.
    rewrite (IsValidEntity_describes LE _ _ _ _ _ e Hd).
    f_equal. by apply bool_decide_eq_false. }
  split.
  { apply (contig_valid_live _ _ _ _ _ Hd'). apply Hlive. by right. }
  intros k Hk.
  destruct (lookup_lt_is_Some_2 (Reg.storages r) k) as [s Hs].
  { rewrite (contig_storages_length n r Hr). lia. }
  destruct (Forall2_lookup_l _ _ _ _ _ Hss Hs) as (s' & Hs' & _ & Hget & Hframe).
  unfold Contig.GetByIndex, Reg.GetByIndex. rewrite Hs, Hs'.
  cbn [mbind option_bind]. split; [done|].
  intros h Hh. apply Hframe. by apply (contig_valid_live _ _ _ _ _ Hd).
Qed.

(** X19: in contiguous mode [DestroyEntity] on a valid handle returns,
  and every component of every other valid entity reads as before, also
  the components of the entity that was moved into the freed dense
  slot. *)
Theorem contiguous_destroy_keeps_components (n : nat) r e :
  Contig.reachable dc n r →
  Contig.IsValidEntity r e = Some true →
  ∃ r',
    Contig.DestroyEntity dc e r = Ok tt r'
    ∧ Contig.IsValidEntity r' e = Some false
    ∧ ∀ k h, h ≠ e → Contig.IsValidEntity r h = Some true →
        Contig.IsValidEntity r' h = Some true
        ∧ Contig.GetByIndex dc k h r' = Contig.GetByIndex dc k h r.
Proof.
  intros Hr He.
  destruct (contig_describes dc n r Hr) as (fl & dense & sparse & Hd).
  pose proof (contig_sparse_sets dc n r Hr) as Hok.
  apply (contig_valid_live _ _ _ _ _ Hd) in He.
  destruct (destroy_step dc _ _ _ _ e Hd Hok He) as (r' & Hdes & Hlive & _ & Hss).
  exists r'. split; [done|].
  assert (Contig.reachable dc n r') as Hr'.
  { eapply Reg.reachable_step; [exact Hr|].
    instantiate (1 := Reg.OpDestroyEntity e). cbn [Reg.step].
    unfold Contig.DestroyEntity in Hdes. by rewrite Hdes. }
  destruct (contig_describes dc n r' Hr') as (fl' & dense' & sparse' & Hd').
  split.
  { unfold Contig.IsValidEntity.
    rewrite (IsValidEntity_describes LE _ _ _ _ _ e Hd').
    f_equal. apply bool_decide_eq_false. intros Hl.
    assert (Contig.live (Reg.entities r') e) as Hl' by exact Hl.
    apply Hlive in Hl'. by destruct Hl'. }
  intros k h Hne Hh. apply (contig_valid_live _ _ _ _ _ Hd) in Hh.
  split.
  { apply (contig_valid_live _ _ _ _ _ Hd'). by apply Hlive. }
  unfold Contig.GetByIndex, Reg.GetByIndex.
  destruct (Reg.storages r !! k) as [s|] eqn:Hs.
  - destruct (Forall2_lookup_l _ _ _ _ _ Hss Hs) as (s' & -> & Hframe).
    cbn [mbind option_bind]. by apply Hframe.
  - apply lookup_ge_None in Hs. rewrite (Forall2_length _ _ _ Hss) in Hs.
    apply lookup_ge_None in Hs. by rewrite Hs.
Qed.

(** X20: in contiguous mode no checked operation is undefined in a state
  the registry can reach: [CreateEntity], [DestroyEntity], [SetSafe],
  [Clear] and [IsValidEntity] return or throw for every argument, and
  [Get] of a valid handle reads a stored value. *)
Theorem contiguous_operations_defined (n : nat) r :
  Contig.reachable dc n r →
  Contig.CreateEntity dc r ≠ Undefined
  ∧ (∀ e, Contig.DestroyEntity dc e r ≠ Undefined)
  ∧ (∀ k e v, (k < n)%nat → Contig.SetSafe dc k e v r ≠ Undefined)
  ∧ Contig.Clear dc r ≠ Undefined
  ∧ (∀ e, is_Some (Contig.IsValidEntity r e))
  ∧ (∀ k e, (k < n)%nat → Contig.IsValidEntity r e = Some true →
            is_Some (Contig.GetByIndex dc k e r)).
Proof.
  intros Hr.
  destruct (contig_describes dc n r Hr) as (fl & dense & sparse & Hd).
  pose proof (contig_sparse_sets dc n r Hr) as Hok.
  split.
  { unfold Contig.CreateEntity.
    destruct (CreateEntity_describes LE LS LV dc _ _ _ _ _ Hd)
      as [[_ ->]|(_ & e & r' & ? & ? & ? & ? & -> & _)]; done. }
  split.
  { intros e.
    destruct (decide (e ≠ NullEntity
                      ∧ zget (Reg.entities r) (EntityToIndex e) = Some e))
      as [Hl|Hnl].
    - destruct (destroy_step dc _ _ _ _ e Hd Hok Hl) as (r' & -> & _). done.
    - destruct (CheckEntity_not_live LE _ _ _ _ _ e Hd Hnl)
        as (err & Hc & _).
      unfold Contig.DestroyEntity, Reg.DestroyEntity. by rewrite Hc. }
  split.
  { intros k e v Hk. unfold Contig.SetSafe, Reg.SetSafe.
    destruct (decide (e ≠ NullEntity
                      ∧ zget (Reg.entities r) (EntityToIndex e) = Some e))
      as [Hl|Hnl].
    - destruct Hl as [Hn He].
      rewrite (CheckEntity_live LE _ _ _ _ _ e Hd Hn He).
      destruct (lookup_lt_is_Some_2 (Reg.storages r) k) as [s Hs].
      { rewrite (contig_storages_length n r Hr). lia. }
      destruct (set_step dc r k e v s Hok (conj Hn He) Hs) as (r' & Hset & _).
      unfold Contig.Set_ in Hset. by rewrite Hset.
    - destruct (CheckEntity_not_live LE _ _ _ _ _ e Hd Hnl)
        as (err & -> & _). done. }
  split.
  { unfold Contig.Clear.
    destruct (Clear_returns LE LS LV _ _ _ _ _ Hd) as (r' & ? & ? & -> & _). done. }
  split.
  { intros e. unfold Contig.IsValidEntity.
    rewrite (IsValidEntity_describes LE _ _ _ _ _ e Hd).
    by eexists. }
  intros k e Hk He. apply (contig_valid_live _ _ _ _ _ Hd) in He.
  destruct (contig_get_live n r k e Hr Hk He) as (s & slot & x & _ & _ & _ & _ & ->).
  by eexists.
Qed.

Lemma zget_nat {A} (l : list A) (i : nat) : zget l (Z.of_nat i) = l !! i.
Proof. unfold zget. rewrite decide_True by lia. by rewrite Nat2Z.id. Qed.

(** What a dense slot of a storage holds: the component of the entity
  the shared dense entity array names there. *)
Lemma contig_dense_slot n r k (i : nat) h fl dense sparse :
  Contig.reachable dc n r → describes (Reg.entities r) fl dense sparse r →
  (k < n)%nat → dense !! i = Some h →
  ∃ s x,
    Reg.storages r !! k = Some s
    ∧ Reg.GetByDenseSlotUnchecked (SV:=Contig.SV dc) (Z.of_nat i) s = Some x
    ∧ Contig.GetByIndex dc k h r = Some x.
Proof.
  intros Hr Hd Hk Hi.
  pose proof (contig_sparse_sets dc n r Hr) as Hok.
  destruct (lookup_lt_is_Some_2 (Reg.storages r) k) as [s Hs].
  { rewrite (contig_storages_length n r Hr). lia. }
  destruct Hd as (_ & _ & _ & _ & _ & Hst).
  rewrite Forall_lookup in Hst. destruct (Hst _ _ Hs) as (Hde & _).
  unfold Contig.sparse_sets_ok in Hok. rewrite Forall_lookup in Hok.
  destruct (Hok _ _ Hs) as (Hdl & Hdense & _).
  rewrite <- Hde, <- zget_nat in Hi.
  destruct (Hdense _ _ Hi) as (_ & Hsp).
  destruct (zget_in_range (Reg.data s) (Z.of_nat i)) as [x Hx].
  { apply zget_Some_range in Hi. lia. }
  exists s, x. split; [done|]. split; [done|].
  unfold Contig.GetByIndex, Reg.GetByIndex. rewrite Hs. cbn [mbind option_bind].
  rewrite (Get_vec dc), Hsp. done.
Qed.

(** X21: in contiguous mode [EachByIndex] (and [Each]) calls back once
  for every valid entity and for nothing else: the rows it passes are the
  components, as [GetByIndices] reads them, of the handles of a
  duplicate-free list that holds exactly the valid handles. *)
Theorem contiguous_each_visits_valid_entities (n : nat) r k0 (ks : list nat) :
  Contig.reachable dc n r → (k0 < n)%nat → Forall (λ k, (k < n)%nat) ks →
  ∃ (hs : list Entity) (rows : list (list V)),
    Contig.EachByIndex dc k0 ks r = Some rows
    ∧ NoDup hs
    ∧ (∀ h, h ∈ hs ↔ Contig.IsValidEntity r h = Some true)
    ∧ Forall2 (λ h row, Contig.GetByIndices dc (k0 :: ks) h r = Some row) hs rows.
Proof.
  intros Hr Hk0 Hks.
  destruct (contig_describes dc n r Hr) as (fl & dense & sparse & Hd).
  pose proof (contig_sparse_sets dc n r Hr) as Hok.
  destruct (lookup_lt_is_Some_2 (Reg.storages r) k0) as [s0 Hs0].
  { rewrite (contig_storages_length n r Hr). lia. }
  pose proof Hd as (_ & _ & _ & _ & _ & Hst).
  rewrite Forall_lookup in Hst.
  destruct (Hst _ _ Hs0) as (Hde0 & _ & _ & Hsz0 & _ & Hszd & _).
  unfold Contig.sparse_sets_ok in Hok. rewrite Forall_lookup in Hok.
  destruct (Hok _ _ Hs0) as (Hdl0 & Hdense0 & Hlive0).
  rewrite Hde0 in Hdense0, Hlive0, Hdl0.
  assert (Forall (λ k, (k < n)%nat) (k0 :: ks)) as Hall by (by constructor).
  set (f := λ i : Z,
         mapM (λ k, s ← Reg.storages r !! k;
                    Reg.GetByDenseSlotUnchecked (SV:=Contig.SV dc) i s) (k0 :: ks)).
  assert (∀ (i : nat) h, dense !! i = Some h →
            f (Z.of_nat i) = Contig.GetByIndices dc (k0 :: ks) h r
            ∧ is_Some (f (Z.of_nat i))) as Hrow.
  { intros i h Hi.
    assert (f (Z.of_nat i) = Contig.GetByIndices dc (k0 :: ks) h r) as Heq.
    { unfold f, Contig.GetByIndices, Reg.GetByIndices.
      apply Forall2_mapM_ext, Forall_Forall2_diag.
      eapply Forall_impl; [exact Hall|]. intros k Hk. cbn beta.
      destruct (contig_dense_slot n r k i h _ _ _ Hr Hd Hk Hi) as (s & x & Hs & Hx & Hg).
      rewrite Hs. cbn [mbind option_bind]. rewrite Hx.
      unfold Contig.GetByIndex in Hg. by rewrite Hg. }
    split; [done|]. rewrite Heq. unfold Contig.GetByIndices, Reg.GetByIndices.
    apply mapM_is_Some. eapply Forall_impl; [exact Hall|]. intros k Hk.
    unfold compose.
    destruct (contig_dense_slot n r k i h _ _ _ Hr Hd Hk Hi) as (s & x & _ & _ & Hg).
    unfold Contig.GetByIndex in Hg. rewrite Hg. by eexists. }
  destruct (mapM_seqZ_spec f f (zlen dense)) as (rows & Hrows & Hlen & Hget).
  { apply zlen_nonneg. }
  { intros i Hi. split; [done|].
    destruct (lookup_lt_is_Some_2 dense (Z.to_nat i)) as [h Hh].
    { unfold zlen in Hi. lia. }
    destruct (Hrow _ _ Hh) as [_ Hsome]. by rewrite Z2Nat.id in Hsome by lia. }
  exists dense, rows. split.
  { unfold Contig.EachByIndex, Reg.EachByIndex. rewrite Hs0.
    cbn [mbind option_bind]. unfold Reg.DenseSize.
    change (st_size (Reg.data s0)) with (zlen (Reg.data s0)).
    rewrite Hdl0. exact Hrows. }
  split.
  { apply NoDup_alt. intros i j h Hi Hj.
    rewrite <- zget_nat in Hi, Hj.
    destruct (Hdense0 _ _ Hi) as [_ Hsi]. destruct (Hdense0 _ _ Hj) as [_ Hsj].
    rewrite Hsi in Hsj. injection Hsj. lia. }
  split.
  { intros h. rewrite (contig_valid_live _ _ _ _ _ Hd).
    rewrite list_elem_of_lookup. split.
    - intros [i Hi]. rewrite <- zget_nat in Hi. by destruct (Hdense0 _ _ Hi).
    - intros Hl. destruct (Hlive0 _ Hl) as (slot & _ & Hslot).
      exists (Z.to_nat slot). pose proof (zget_Some_range _ _ _ Hslot).
      rewrite <- zget_nat. by rewrite Z2Nat.id by lia. }
  apply Forall2_same_length_lookup. split; [unfold zlen in Hlen; lia|].
  intros i h row Hi Hri.
  destruct (Hrow _ _ Hi) as [Heq _]. rewrite <- Heq.
  rewrite <- Hget by (apply lookup_lt_Some in Hi; unfold zlen; lia).
  by rewrite zget_nat.
Qed.
End ContigComponents.

(** ** The contiguous-mode properties at concrete inputs *)

Lemma contiguous_set_then_get_witness :
  Contig.reachable 0 2 (Demo.contiguous_after Demo.one_destroyed)
  ∧ (1 < 2)%nat
  ∧ Contig.IsValidEntity (Demo.contiguous_after Demo.one_destroyed) Demo.e2
    = Some true
  ∧ ∃ r',
      Contig.Set_ 0 1 Demo.e2 7 (Demo.contiguous_after Demo.one_destroyed)
      = Ok tt r'
      ∧ Contig.GetByIndex 0 1 Demo.e2 r' = Some 7
      ∧ (∀ h, Contig.IsValidEntity r' h
              = Contig.IsValidEntity (Demo.contiguous_after Demo.one_destroyed) h)
      ∧ ∀ k' h,
          Contig.IsValidEntity (Demo.contiguous_after Demo.one_destroyed) h
          = Some true →
          k' ≠ 1%nat ∨ h ≠ Demo.e2 →
          Contig.GetByIndex 0 k' h r'
          = Contig.GetByIndex 0 k' h (Demo.contiguous_after Demo.one_destroyed).
Proof.
  assert (Contig.reachable 0 2 (Demo.contiguous_after Demo.one_destroyed))
    as Hreach.
  { apply (contiguous_reachable Demo.one_destroyed). vm_compute. reflexivity. }
  assert (1 < 2)%nat as Hk by lia.
  assert (Contig.IsValidEntity (Demo.contiguous_after Demo.one_destroyed) Demo.e2
          = Some true) as Hvalid by (vm_compute; reflexivity).
  do 3 (split; [assumption|]).
  exact (contiguous_set_then_get 0 2 _ 1%nat Demo.e2 7 Hreach Hk Hvalid).
Defined.

Lemma contiguous_create_gives_defaults_witness :
  Contig.reachable 0 2 (Demo.contiguous_after Demo.one_destroyed)
  ∧ Contig.CreateEntity 0 (Demo.contiguous_after Demo.one_destroyed)
    = Ok Demo.e1'
        (Demo.contiguous_after (Demo.one_destroyed ++ [Reg.OpCreateEntity]))
  ∧ Contig.IsValidEntity (Demo.contiguous_after Demo.one_destroyed) Demo.e1'
    = Some false
  ∧ Contig.IsValidEntity
      (Demo.contiguous_after (Demo.one_destroyed ++ [Reg.OpCreateEntity]))
      Demo.e1'
    = Some true
  ∧ ∀ k, (k < 2)%nat →
      Contig.GetByIndex 0 k Demo.e1'
        (Demo.contiguous_after (Demo.one_destroyed ++ [Reg.OpCreateEntity]))
      = Some 0
      ∧ ∀ h,
          Contig.IsValidEntity (Demo.contiguous_after Demo.one_destroyed) h
          = Some true →
          Contig.GetByIndex 0 k h
            (Demo.contiguous_after (Demo.one_destroyed ++ [Reg.OpCreateEntity]))
          = Contig.GetByIndex 0 k h (Demo.contiguous_after Demo.one_destroyed).
Proof.
  assert (Contig.reachable 0 2 (Demo.contiguous_after Demo.one_destroyed))
    as Hreach.
  { apply (contiguous_reachable Demo.one_destroyed). vm_compute. reflexivity. }
  assert (Contig.CreateEntity 0 (Demo.contiguous_after Demo.one_destroyed)
          = Ok Demo.e1'
              (Demo.contiguous_after (Demo.one_destroyed ++ [Reg.OpCreateEntity])))
    as Hcreate by (vm_compute; reflexivity).
  do 2 (split; [assumption|]).
  exact (contiguous_create_gives_defaults 0 2 _ _ _ Hreach Hcreate).
Defined.

Lemma contiguous_destroy_keeps_components_witness :
  Contig.reachable 0 2 (Demo.contiguous_after Demo.one_destroyed)
  ∧ Contig.IsValidEntity (Demo.contiguous_after Demo.one_destroyed) Demo.e0
    = Some true
  ∧ ∃ r',
      Contig.DestroyEntity 0 Demo.e0 (Demo.contiguous_after Demo.one_destroyed)
      = Ok tt r'
      ∧ Contig.IsValidEntity r' Demo.e0 = Some false
      ∧ ∀ k h, h ≠ Demo.e0 →
          Contig.IsValidEntity (Demo.contiguous_after Demo.one_destroyed) h
          = Some true →
          Contig.IsValidEntity r' h = Some true
          ∧ Contig.GetByIndex 0 k h r'
            = Contig.GetByIndex 0 k h (Demo.contiguous_after Demo.one_destroyed).
Proof.
  assert (Contig.reachable 0 2 (Demo.contiguous_after Demo.one_destroyed))
    as Hreach.
  { apply (contiguous_reachable Demo.one_destroyed). vm_compute. reflexivity. }
  assert (Contig.IsValidEntity (Demo.contiguous_after Demo.one_destroyed) Demo.e0
          = Some true) as Hvalid by (vm_compute; reflexivity).
  do 2 (split; [assumption|]).
  exact (contiguous_destroy_keeps_components 0 2 _ Demo.e0 Hreach Hvalid).
Defined.

Lemma contiguous_operations_defined_witness :
  Contig.reachable 0 2 (Demo.contiguous_after Demo.refilled)
  ∧ Contig.CreateEntity 0 (Demo.contiguous_after Demo.refilled) ≠ Undefined
  ∧ (∀ e, Contig.DestroyEntity 0 e (Demo.contiguous_after Demo.refilled)
          ≠ Undefined)
  ∧ (∀ k e v, (k < 2)%nat →
       Contig.SetSafe 0 k e v (Demo.contiguous_after Demo.refilled) ≠ Undefined)
  ∧ Contig.Clear 0 (Demo.contiguous_after Demo.refilled) ≠ Undefined
  ∧ (∀ e, is_Some (Contig.IsValidEntity (Demo.contiguous_after Demo.refilled) e))
  ∧ (∀ k e, (k < 2)%nat →
       Contig.IsValidEntity (Demo.contiguous_after Demo.refilled) e = Some true →
       is_Some (Contig.GetByIndex 0 k e (Demo.contiguous_after Demo.refilled))).
Proof.
  assert (Contig.reachable 0 2 (Demo.contiguous_after Demo.refilled)) as Hreach.
  { apply (contiguous_reachable Demo.refilled). vm_compute. reflexivity. }
  split; [assumption|].
  exact (contiguous_operations_defined 0 2 _ Hreach).
Defined.

Lemma contiguous_each_visits_valid_entities_witness :
  Contig.reachable 0 2 (Demo.contiguous_after Demo.one_destroyed)
  ∧ (1 < 2)%nat
  ∧ Forall (λ k, (k < 2)%nat) [0%nat]
  ∧ ∃ (hs : list Entity) (rows : list (list Z)),
      Contig.EachByIndex 0 1 [0%nat] (Demo.contiguous_after Demo.one_destroyed)
      = Some rows
      ∧ NoDup hs
      ∧ (∀ h, h ∈ hs
              ↔ Contig.IsValidEntity (Demo.contiguous_after Demo.one_destroyed) h
                = Some true)
      ∧ Forall2
          (λ h row,
             Contig.GetByIndices 0 [1%nat; 0%nat] h
               (Demo.contiguous_after Demo.one_destroyed) = Some row)
          hs rows.
Proof.
  assert (Contig.reachable 0 2 (Demo.contiguous_after Demo.one_destroyed))
    as Hreach.
  { apply (contiguous_reachable Demo.one_destroyed). vm_compute. reflexivity. }
  assert (1 < 2)%nat as Hk by lia.
  assert (Forall (λ k, (k < 2)%nat) [0%nat]) as Hks
    by (constructor; [lia|constructor]).
  do 3 (split; [assumption|]).
  exact (contiguous_each_visits_valid_entities 0 2 _ 1%nat [0%nat] Hreach Hk Hks).
Defined.

(** * Entity handles and component spans *)

(** X22: [ComposeEntity] packs an index below [2^INDEX_BITS] and a
  version below [2^VERSION_BITS] so that [EntityToIndex],
  [EntityToVersion] and [EntityToIndexAndVersion] give them back; the
  result is the null handle only for the index [INVALID_INDEX] with the
  version [VERSION_MASK]. *)
Theorem entity_handle_roundtrip (i v : Z) :
  0 ≤ i < 2 ^ EntityTraits.INDEX_BITS →
  0 ≤ v < 2 ^ EntityTraits.VERSION_BITS →
  EntityToIndex (ComposeEntity i v) = i
  ∧ EntityToVersion (ComposeEntity i v) = v
  ∧ EntityToIndexAndVersion (ComposeEntity i v) = (i, v)
  ∧ (IsNullEntity (ComposeEntity i v) = true
     ↔ i = EntityTraits.INVALID_INDEX ∧ v = EntityTraits.VERSION_MASK).
Proof.
  change (2 ^ EntityTraits.INDEX_BITS) with 1048576.
  change (2 ^ EntityTraits.VERSION_BITS) with 4096.
  intros Hi Hv.
  assert (EntityToIndex (ComposeEntity i v) = i) as Hidx
    by (rewrite EntityToIndex_Compose; by apply Z.mod_small).
  assert (EntityToVersion (ComposeEntity i v) = v) as Hver
    by (rewrite EntityToVersion_Compose; by apply Z.mod_small).
  split; [done|]. split; [done|]. split.
  { change (EntityToIndexAndVersion (ComposeEntity i v))
      with (EntityToIndex (ComposeEntity i v), EntityToVersion (ComposeEntity i v)).
    by rewrite Hidx, Hver. }
  rewrite IsNullEntity_true.
  change EntityTraits.INVALID_INDEX with 1048575.
  change EntityTraits.VERSION_MASK with 4095.
  pose proof (ComposeEntity_id i v) as Hid.
  rewrite !Z.mod_small in Hid by done. split.
  - intros Hnull. rewrite Hnull in Hid.
    change (id NullEntity) with 4294967295 in Hid. lia.
  - intros [-> ->]. destruct (ComposeEntity 1048575 4095) as [u] eqn:Hu.
    cbn [id] in Hid. subst u. reflexivity.
Qed.

Lemma entity_handle_roundtrip_witness :
  0 ≤ 5 < 2 ^ EntityTraits.INDEX_BITS
  ∧ 0 ≤ 3 < 2 ^ EntityTraits.VERSION_BITS
  ∧ EntityToIndex (ComposeEntity 5 3) = 5
  ∧ EntityToVersion (ComposeEntity 5 3) = 3
  ∧ EntityToIndexAndVersion (ComposeEntity 5 3) = (5, 3)
  ∧ (IsNullEntity (ComposeEntity 5 3) = true
     ↔ 5 = EntityTraits.INVALID_INDEX ∧ 3 = EntityTraits.VERSION_MASK).
Proof.
  assert (0 ≤ 5 < 2 ^ EntityTraits.INDEX_BITS) as Hi by (split; [lia|vm_compute; reflexivity]).
  assert (0 ≤ 3 < 2 ^ EntityTraits.VERSION_BITS) as Hv
    by (split; [vm_compute; discriminate|vm_compute; reflexivity]).
  split; [exact Hi|]. split; [exact Hv|].
  exact (entity_handle_roundtrip 5 3 Hi Hv).
Defined.

(** X23: a handle whose id is a 32-bit value is [ComposeEntity] of its
  own index and version, so two such handles with the same index and
  version are the same handle. *)
Theorem entity_handle_determined (e e' : Entity) :
  0 ≤ id e < 2 ^ 32 → 0 ≤ id e' < 2 ^ 32 →
  ComposeEntity (EntityToIndex e) (EntityToVersion e) = e
  ∧ (EntityToIndexAndVersion e = EntityToIndexAndVersion e' → e = e').
Proof.
  assert (∀ h, 0 ≤ id h < 2 ^ 32 →
               ComposeEntity (EntityToIndex h) (EntityToVersion h) = h) as Hdec.
  { intros [u] Hu. cbn [id] in Hu.
    rewrite EntityToIndex_mod, EntityToVersion_mod. cbn [id].
    assert (u / 1048576 < 4096) by (apply Z.div_lt_upper_bound; lia).
    assert (0 ≤ u / 1048576) by (apply Z.div_pos; lia).
    pose proof (ComposeEntity_id (u mod 1048576) ((u / 1048576) mod 4096)) as Hid.
    rewrite !Z.mod_mod in Hid by lia.
    destruct (ComposeEntity _ _) as [w]. cbn [id] in Hid. f_equal.
    rewrite (Z.mod_small (u / 1048576)) in Hid by lia.
    pose proof (Z.div_mod u 1048576). lia. }
  intros He He'. split; [by apply Hdec|].
  intros Heq. rewrite <- (Hdec e He), <- (Hdec e' He').
  change (EntityToIndexAndVersion e) with (EntityToIndex e, EntityToVersion e) in Heq.
  change (EntityToIndexAndVersion e') with (EntityToIndex e', EntityToVersion e') in Heq.
  by injection Heq as -> ->.
Qed.

Lemma entity_handle_determined_witness :
  0 ≤ id Demo.e1' < 2 ^ 32
  ∧ 0 ≤ id NullEntity < 2 ^ 32
  ∧ ComposeEntity (EntityToIndex Demo.e1') (EntityToVersion Demo.e1') = Demo.e1'
  ∧ (EntityToIndexAndVersion Demo.e1' = EntityToIndexAndVersion NullEntity →
     Demo.e1' = NullEntity).
Proof.
  assert (0 ≤ id Demo.e1' < 2 ^ 32) as H1
    by (split; [vm_compute; discriminate|vm_compute; reflexivity]).
  assert (0 ≤ id NullEntity < 2 ^ 32) as H2
    by (split; [vm_compute; discriminate|vm_compute; reflexivity]).
  split; [exact H1|]. split; [exact H2|].
  exact (entity_handle_determined Demo.e1' NullEntity H1 H2).
Defined.

(** ** Spans over a vector *)

Lemma concat_blocks {A} (l : list A) (b n : nat) :
  concat ((λ c : nat, take b (drop (c * b) l)) <$> seq 0 n) = take (n * b) l.
Proof.
  induction n as [|n IH]; [done|].
  rewrite seq_S, fmap_app, concat_app, IH. cbn [fmap list_fmap concat].
  rewrite app_nil_r, Nat.add_0_l, take_take_drop. f_equal. lia.
Qed.

Lemma take_min_length {A} (l : list A) (n : nat) :
  take (n `min` length l) l = take n l.
Proof.
  destruct (decide (n ≤ length l)%nat).
  - by rewrite Nat.min_l by done.
  - rewrite Nat.min_r by lia. by rewrite !take_ge by lia.
Qed.

(** X24: over a [std::vector] of less than [2^63] components,
  [GetDataSpan] cuts the dense array into consecutive spans of
  [DEFAULT_DENSE_CHUNK_SIZE] elements, the last one shorter when the size
  is no multiple of it: span [k] starts at element [1024 * k], no span is
  empty, and the spans in order hold exactly the components. *)
Theorem contiguous_spans_partition {V : Type} (data : list V) :
  zlen data < 2 ^ 63 →
  zlen (DataSpan.contiguous data)
  = (zlen data + DataSpan.DEFAULT_DENSE_CHUNK_SIZE - 1)
    / DataSpan.DEFAULT_DENSE_CHUNK_SIZE
  ∧ (∀ k span, zget (DataSpan.contiguous data) k = Some span →
       span.1 = DataSpan.DEFAULT_DENSE_CHUNK_SIZE * k
       ∧ span.2 = Z.min DataSpan.DEFAULT_DENSE_CHUNK_SIZE (zlen data - span.1)
       ∧ 0 < span.2)
  ∧ concat (DataSpan.elements data <$> DataSpan.contiguous data) = data.
Proof.
  intros Hsmall. pose proof (zlen_nonneg data) as Hnn.
  change DataSpan.DEFAULT_DENSE_CHUNK_SIZE with 1024.
  set (n := (zlen data + 1024 - 1) / 1024).
  assert (0 ≤ n) as Hn0 by (apply Z.div_pos; lia).
  assert (1024 * n ≤ zlen data + 1023 < 1024 * n + 1024) as Hn.
  { pose proof (Z.div_mod (zlen data + 1024 - 1) 1024).
    pose proof (Z.mod_pos_bound (zlen data + 1024 - 1) 1024). unfold n. lia. }
  assert (DataSpan.contiguous data
          = (λ c : nat, (1024 * Z.of_nat c,
                         Z.min 1024 (zlen data - 1024 * Z.of_nat c)))
            <$> seq 0 (Z.to_nat n)) as Hspans.
  { unfold DataSpan.contiguous.
    change DataSpan.DEFAULT_DENSE_CHUNK_SIZE with 1024.
    rewrite (wrap64_small (zlen data + 1024 - 1)) by lia. fold n.
    unfold seqZ. rewrite <- list_fmap_compose.
    apply list_fmap_ext. intros i c Hc. unfold compose.
    apply lookup_seq in Hc as [-> Hi]. cbn [Nat.add].
    rewrite (wrap64_small ((Z.of_nat i + 0) * 1024)) by lia.
    rewrite (wrap64_small ((Z.of_nat i + 0) * 1024 + 1024)) by lia.
    rewrite wrap64_small by lia. f_equal; lia. }
  split.
  { rewrite Hspans. unfold zlen. rewrite length_fmap, length_seq. lia. }
  split.
  { intros k span Hk. pose proof (zget_Some_range _ _ _ Hk) as Hr.
    rewrite Hspans in Hk, Hr. unfold zlen in Hr.
    rewrite length_fmap, length_seq in Hr.
    unfold zget in Hk. rewrite decide_True in Hk by lia.
    rewrite list_lookup_fmap, lookup_seq_lt in Hk by lia.
    cbn [fmap option_fmap option_map Nat.add] in Hk. injection Hk as <-.
    cbn [fst snd]. rewrite Z2Nat.id by lia. lia. }
  rewrite Hspans, <- list_fmap_compose.
  rewrite (list_fmap_ext _ (λ c : nat, take 1024 (drop (c * 1024) data))).
  2:{ intros i c Hc. unfold compose, DataSpan.elements. cbn [fst snd].
      apply lookup_seq in Hc as [-> Hi]. cbn [Nat.add].
      replace (Z.to_nat (1024 * Z.of_nat i)) with (i * 1024)%nat by lia.
      rewrite <- (take_min_length _ 1024). f_equal.
      rewrite length_drop. unfold zlen. lia. }
  rewrite concat_blocks. apply take_ge. unfold zlen in Hn. lia.
Qed.

Lemma contiguous_spans_partition_witness :
  zlen [10; 20; 30] < 2 ^ 63
  ∧ zlen (DataSpan.contiguous [10; 20; 30])
    = (zlen [10; 20; 30] + DataSpan.DEFAULT_DENSE_CHUNK_SIZE - 1)
      / DataSpan.DEFAULT_DENSE_CHUNK_SIZE
  ∧ (∀ k span, zget (DataSpan.contiguous [10; 20; 30]) k = Some span →
       span.1 = DataSpan.DEFAULT_DENSE_CHUNK_SIZE * k
       ∧ span.2 = Z.min DataSpan.DEFAULT_DENSE_CHUNK_SIZE
                    (zlen [10; 20; 30] - span.1)
       ∧ 0 < span.2)
  ∧ concat (DataSpan.elements [10; 20; 30] <$> DataSpan.contiguous [10; 20; 30])
    = [10; 20; 30].
Proof.
  assert (zlen [10; 20; 30] < 2 ^ 63) as Hsmall by (vm_compute; reflexivity).
  split; [exact Hsmall|].
  exact (contiguous_spans_partition [10; 20; 30] Hsmall).
Defined.

(** ** Spans over a chunked array *)

Section ChunkedDataSpans.
Context {T : Type}.
Variable LOG2 : nat.
Implicit Types (a : ChunkedArray T) (l : list T).

Lemma read_span_block a l (c : nat) :
  CA.models LOG2 a l → Z.of_nat c < CA.chunk_count a →
  CA.read_span a (CA.get_chunk_ptr (Z.of_nat c),
                  Z.min (csize LOG2) (zlen l - Z.of_nat c * csize LOG2))
  = Some (take (Z.to_nat (csize LOG2)) (drop (c * Z.to_nat (csize LOG2)) l)).
Proof.
  intros Hm Hc. pose proof (tight_shape LOG2 a l Hm) as (He & Hfit & Htight).
  pose proof (CHUNK_SIZE_pos LOG2) as Hpos. pose proof (zlen_nonneg l) as Hnn.
  unfold CA.chunk_count in Hc.
  set (len := Z.min (csize LOG2) (zlen l - Z.of_nat c * csize LOG2)).
  assert (0 < len) as Hlen by (unfold len; nia).
  unfold CA.read_span. cbn [fst snd].
  destruct (mapM_seqZ_spec
              (λ k, CA.read_ptr a (ptr_offset (CA.get_chunk_ptr (Z.of_nat c)) k))
              (λ k, zget l (Z.of_nat c * csize LOG2 + k)) len)
    as (vs & Hvs & Hvlen & Hget); [lia| |].
  { intros k Hk. assert (0 ≤ k < csize LOG2) as Hk' by (unfold len in Hk; lia).
    rewrite (read_ptr_index LOG2) by done.
    destruct Hm as (_ & _ & Hl).
    assert (0 ≤ Z.of_nat c * csize LOG2 + k < zlen l) as Hr by (unfold len in Hk; nia).
    split; [by apply Hl|by apply zget_in_range]. }
  rewrite Hvs. f_equal. apply list_eq. intros i.
  rewrite lookup_take, lookup_drop.
  destruct (decide (Z.of_nat i < len)) as [Hi|Hi].
  - specialize (Hget (Z.of_nat i) ltac:(lia)). rewrite zget_nat in Hget.
    rewrite Hget. unfold zget. rewrite decide_True by nia.
    rewrite decide_True by (unfold len in Hi; lia). f_equal. nia.
  - rewrite (lookup_ge_None_2 vs) by (unfold zlen in Hvlen; lia).
    case_decide; [|done]. symmetry. apply lookup_ge_None_2.
    unfold len in Hi. unfold zlen in *. nia.
Qed.

Lemma chunked_spans_models a l :
  CA.models LOG2 a l → zlen l < 2 ^ 64 →
  DataSpan.chunked LOG2 a
  = (λ c : nat, (CA.get_chunk_ptr (Z.of_nat c),
                 Z.min (csize LOG2) (zlen l - Z.of_nat c * csize LOG2)))
    <$> seq 0 (Z.to_nat (CA.chunk_count a)).
Proof.
  intros Hm Hsmall. pose proof (tight_shape LOG2 a l Hm) as (He & Hfit & Htight).
  pose proof (CHUNK_SIZE_pos LOG2) as Hpos. pose proof (zlen_nonneg l) as Hnn.
  unfold DataSpan.chunked, seqZ. rewrite <- list_fmap_compose.
  apply list_fmap_ext. intros i c Hc. unfold compose.
  apply lookup_seq in Hc as [-> Hi]. cbn [Nat.add].
  unfold CA.chunk_count, CA.size in *. rewrite Z.add_0_r.
  rewrite (wrap64_small (zlen (chunks a) - 1)) by nia.
  f_equal. case_bool_decide as Hlast.
  - rewrite He, (wrap64_small (_ * _)) by nia. rewrite wrap64_small by nia. nia.
  - nia.
Qed.
End ChunkedDataSpans.

(** X25: over a [ChunkedArray] without spare chunks, [GetDataSpan]
  returns one span per chunk; reading the spans in order gives exactly
  the stored components, every span holding at least one and at most
  [CHUNK_SIZE] of them. *)
Theorem chunked_spans_cover {T : Type} (LOG2 : nat)
    (a : ChunkedArray T) (l : list T) :
  CA.models LOG2 a l → zlen l < 2 ^ 64 →
  ∃ parts,
    mapM (CA.read_span a) (DataSpan.chunked LOG2 a) = Some parts
    ∧ zlen parts = CA.chunk_count a
    ∧ Forall (λ p, 0 < zlen p ≤ csize LOG2) parts
    ∧ concat parts = l.
Proof.
  intros Hm Hsmall. pose proof (tight_shape LOG2 a l Hm) as (He & Hfit & Htight).
  pose proof (CHUNK_SIZE_pos LOG2) as Hpos. pose proof (zlen_nonneg l) as Hnn.
  set (b := Z.to_nat (csize LOG2)). set (n := Z.to_nat (CA.chunk_count a)).
  exists ((λ c : nat, take b (drop (c * b) l)) <$> seq 0 n).
  assert (0 ≤ CA.chunk_count a) as Hcnt by (unfold CA.chunk_count; apply zlen_nonneg).
  split.
  { rewrite (chunked_spans_models LOG2 a l Hm Hsmall). apply mapM_Some_2.
    apply Forall2_fmap, Forall_Forall2_diag, Forall_forall.
    intros c [_ Hc]%elem_of_seq. apply read_span_block; [done|]. unfold n in Hc. lia. }
  split.
  { unfold zlen. rewrite length_fmap, length_seq. unfold n. lia. }
  split.
  { apply Forall_fmap, Forall_forall. intros c [_ Hc]%elem_of_seq. unfold compose.
    unfold zlen in *. rewrite length_take, length_drop.
    unfold n, b, CA.chunk_count, zlen in *. nia. }
  rewrite concat_blocks. apply take_ge.
  unfold n, b, CA.chunk_count, zlen in *. nia.
Qed.

Lemma chunked_spans_cover_witness :
  CA.models 1 (Scenario.three false) [1; 2; 3]
  ∧ zlen [1; 2; 3] < 2 ^ 64
  ∧ ∃ parts,
      mapM (CA.read_span (Scenario.three false))
        (DataSpan.chunked 1 (Scenario.three false)) = Some parts
      ∧ zlen parts = CA.chunk_count (Scenario.three false)
      ∧ Forall (λ p, 0 < zlen p ≤ csize 1) parts
      ∧ concat parts = [1; 2; 3].
Proof.
  assert (zlen [1; 2; 3] < 2 ^ 64) as Hsmall by (vm_compute; reflexivity).
  split; [exact (three_models false)|]. split; [exact Hsmall|].
  exact (chunked_spans_cover 1 (Scenario.three false) [1; 2; 3]
           (three_models false) Hsmall).
Defined.

(** ** Shrinking an array whose elements are alive *)

Section ShrinkHolds.
Context {T : Type}.
Variable LOG2 : nat.
Variable tr : bool.
Implicit Types (a : ChunkedArray T) (l : list T).

Lemma holds_slot_is_live a l i :
  CA.holds LOG2 a l → 0 ≤ i < zlen l → CA.slot_is_live LOG2 a i = true.
Proof.
  intros (_ & _ & Hl) Hi. specialize (Hl i Hi).
  destruct (zget_in_range l i Hi) as [x Hx]. rewrite Hx, index_slot_of in Hl.
  unfold CA.slot_is_live. by destruct (CA.slot_of LOG2 a i) as [[|v]|].
Qed.
End ShrinkHolds.

(** X26: on an array whose first [size()] slots hold live elements (any
  number of spare chunks behind them), [resize(n)] and [resize(n, value)]
  with [n] below the size run the destructor exactly once on each of the
  live elements at the indices [n .. size() - 1] and on nothing else (no
  call at all for a trivially destructible type), keep the first [n]
  elements, and release no chunk. *)
Theorem resize_shrink_destroys_live_tail {T : Type} (LOG2 : nat)
    (trivially_destructible : bool) (dflt value : T)
    (a : ChunkedArray T) (l : list T) (n : Z) :
  CA.holds LOG2 a l →
  0 ≤ n < zlen l →
  ∃ a',
    CA.resize LOG2 trivially_destructible dflt n a = Some a'
    ∧ CA.resize_value LOG2 trivially_destructible n value a = Some a'
    ∧ CA.holds LOG2 a' (take (Z.to_nat n) l)
    ∧ CA.chunk_count a' = CA.chunk_count a
    ∧ events a'
      = events a
        ++ (if trivially_destructible then []
            else (λ i, EvDestroy (cidx LOG2 i) (coff LOG2 i) true)
                   <$> seqZ n (zlen l - n)).
Proof.
  intros Hh Hn. pose proof Hh as (Hwf & He & Hl).
  destruct (resize_shrink_frame LOG2 trivially_destructible dflt value a n Hwf)
    as (a' & Hr & Hrv & Hsz & Hcc & Hidx & _ & Hev); [unfold CA.size; lia|].
  exists a'. split; [done|]. split; [done|]. split; [|split; [done|]].
  - split; [by eapply (well_formed_resize LOG2 trivially_destructible dflt n a); [|lia|]|].
    assert (zlen (take (Z.to_nat n) l) = n) as Hlen
      by (unfold zlen in *; rewrite length_take; lia).
    split; [by rewrite Hlen|]. rewrite Hlen. intros i Hi.
    rewrite Hidx by done. rewrite Hl by lia. symmetry. apply zget_take. lia.
  - rewrite Hev. f_equal. destruct trivially_destructible; [done|].
    unfold CA.size. rewrite He. apply list_fmap_ext.
    intros k i Hi. apply list_elem_of_lookup_2, elem_of_seqZ in Hi.
    by rewrite (holds_slot_is_live LOG2 a l i Hh) by lia.
Qed.

Lemma resize_shrink_destroys_live_tail_witness :
  CA.holds 1 (Scenario.three false) [1; 2; 3]
  ∧ 0 ≤ 1 < zlen [1; 2; 3]
  ∧ ∃ a',
      CA.resize 1 false 0 1 (Scenario.three false) = Some a'
      ∧ CA.resize_value 1 false 1 9 (Scenario.three false) = Some a'
      ∧ CA.holds 1 a' (take (Z.to_nat 1) [1; 2; 3])
      ∧ CA.chunk_count a' = CA.chunk_count (Scenario.three false)
      ∧ events a'
        = events (Scenario.three false)
          ++ (if false then []
              else (λ i, EvDestroy (cidx 1 i) (coff 1 i) true)
                     <$> seqZ 1 (zlen [1; 2; 3] - 1)).
Proof.
  assert (CA.holds 1 (Scenario.three false) [1; 2; 3]) as Hh
    by exact (models_holds 1 _ _ (three_models false)).
  assert (0 ≤ 1 < zlen [1; 2; 3]) as Hn
    by (split; [vm_compute; discriminate|vm_compute; reflexivity]).
  split; [exact Hh|]. split; [exact Hn|].
  exact (resize_shrink_destroys_live_tail 1 false 0 9 (Scenario.three false)
           [1; 2; 3] 1 Hh Hn).
Defined.

(** * Alignment of the storages in contiguous mode *)

Section ContigAligned.
Context {V : Type}.
Variable dc : V.
Implicit Types (r : Contig.RegistryOf V) (s : Contig.ComponentStorage V).
Implicit Types (e h : Entity) (k : nat) (fl : list Z).

Local Abbreviation LE := (vector_laws NullEntity : @StorageLaws _ _ Contig.SE).
Local Abbreviation LS := (vector_laws 0 : @StorageLaws _ _ Contig.SS).
Local Abbreviation LV := (vector_laws dc : @StorageLaws _ _ (Contig.SV dc)).

(** A checked call in a reachable state returns or throws. *)
Lemma contig_checked_step n r op :
  Contig.reachable dc n r → Contig.checked_op n op →
  is_Some (Reg.step (SE:=Contig.SE) (SS:=Contig.SS) (SV:=Contig.SV dc) dc op r).
Proof.
  intros Hr Hop.
  destruct (contig_describes dc n r Hr) as (fl & dense & sparse & Hd).
  pose proof (contig_sparse_sets dc n r Hr) as Hok.
  destruct op as [|e|k e v|k e v|]; cbn [Reg.step]; [| | done | |].
  - destruct (CreateEntity_describes LE LS LV dc _ _ _ _ _ Hd)
      as [[_ ->]|(_ & e & r' & ? & ? & ? & ? & -> & _)]; by eexists.
  - destruct (decide (e ≠ NullEntity
                      ∧ zget (Reg.entities r) (EntityToIndex e) = Some e))
      as [Hl|Hnl].
    + destruct (destroy_step dc _ _ _ _ e Hd Hok Hl) as (r' & Hdes & _).
      unfold Contig.DestroyEntity in Hdes. rewrite Hdes. by eexists.
    + destruct (CheckEntity_not_live LE _ _ _ _ _ e Hd Hnl) as (err & Hc & _).
      unfold Reg.DestroyEntity. rewrite Hc. by eexists.
  - cbn [Contig.checked_op] in Hop. unfold Reg.SetSafe.
    destruct (decide (e ≠ NullEntity
                      ∧ zget (Reg.entities r) (EntityToIndex e) = Some e))
      as [[Hn He]|Hnl].
    + rewrite (CheckEntity_live LE _ _ _ _ _ e Hd Hn He).
      destruct (lookup_lt_is_Some_2 (Reg.storages r) k) as [s Hs].
      { rewrite (contig_storages_length dc n r Hr). lia. }
      destruct (set_step dc r k e v s Hok (conj Hn He) Hs) as (r' & Hset & _).
      unfold Contig.Set_ in Hset. rewrite Hset. by eexists.
    + destruct (CheckEntity_not_live LE _ _ _ _ _ e Hd Hnl) as (err & -> & _).
      by eexists.
  - destruct (Clear_returns LE LS LV _ _ _ _ _ Hd) as (r' & ? & ? & -> & _).
    by eexists.
Qed.

Lemma contig_checked_run n ops r :
  Contig.reachable dc n r → Forall (Contig.checked_op n) ops →
  ∃ r', Reg.run (SE:=Contig.SE) (SS:=Contig.SS) (SV:=Contig.SV dc) dc ops r = Some r'
        ∧ Contig.reachable dc n r'.
Proof.
  revert r. induction ops as [|op ops IH]; intros r Hr Hops; cbn [Reg.run].
  - by exists r.
  - apply Forall_cons in Hops as [Hop Hops].
    destruct (contig_checked_step n r op Hr Hop) as [r1 Hstep]. rewrite Hstep.
    apply IH; [|done]. by eapply Reg.reachable_step.
Qed.

(** Every storage keeps a valid entity at the same dense slot, where its
  dense entity array names the entity and its component array holds a
  value. *)
Lemma contig_aligned n r e s :
  Contig.reachable dc n r → Contig.IsValidEntity r e = Some true →
  s ∈ Reg.storages r →
  zlen (Reg.data s) = Contig.Size r
  ∧ zlen (Reg.slotToEntity s) = Contig.Size r
  ∧ ∃ slot,
      0 ≤ slot < Contig.Size r
      ∧ zget (Reg.indexToSlot s) (EntityToIndex e) = Some slot
      ∧ zget (Reg.slotToEntity s) slot = Some e
      ∧ is_Some (zget (Reg.data s) slot).
Proof.
  intros Hr He Hs.
  destruct (contig_describes dc n r Hr) as (fl & dense & sparse & Hd).
  pose proof (contig_sparse_sets dc n r Hr) as Hok.
  apply (contig_valid_live dc _ _ _ _ _ Hd) in He.
  unfold Contig.Size. rewrite (describes_Size LE _ _ _ _ _ Hd).
  pose proof Hd as (_ & _ & _ & _ & _ & Hst).
  rewrite Forall_forall in Hst.
  destruct (Hst _ Hs) as (Hde & _ & _ & Hsz & _ & Hszd & _).
  change (zlen (Reg.data s) = zlen (Reg.entities r) - zlen fl) in Hsz.
  change (zlen dense = zlen (Reg.entities r) - zlen fl) in Hszd.
  rewrite <- Hde in Hszd.
  unfold Contig.sparse_sets_ok in Hok. rewrite Forall_forall in Hok.
  destruct (Hok _ Hs) as (_ & _ & Hlive).
  destruct (Hlive e He) as (slot & Hsp & Hslot).
  pose proof (zget_Some_range _ _ _ Hslot) as Hrange.
  split; [done|]. split; [done|]. exists slot.
  split; [lia|]. split; [done|]. split; [done|]. apply zget_in_range. lia.
Qed.
End ContigAligned.

(** X27: in contiguous mode every sequence of [CreateEntity],
  [DestroyEntity], [SetSafe] and [Clear] calls, with any handles and
  values, runs from the new registry without undefined behaviour, and in
  the registry it leaves every valid entity has one dense slot, the same
  in any two storages, below [Size()]; each storage's dense entity array
  names the entity there, each component array holds a value there, and
  both arrays have [Size()] elements. *)
Theorem contiguous_storages_stay_aligned {V : Type} (dc : V) (n : nat)
    (ops : list (Reg.Op (V:=V))) :
  Forall (Contig.checked_op n) ops →
  ∃ r,
    Reg.run (SE:=Contig.SE) (SS:=Contig.SS) (SV:=Contig.SV dc) dc ops
      (Contig.new_registry dc n) = Some r
    ∧ ∀ e A B,
        Contig.IsValidEntity r e = Some true →
        A ∈ Reg.storages r → B ∈ Reg.storages r →
        zlen (Reg.data A) = Contig.Size r
        ∧ zlen (Reg.slotToEntity A) = Contig.Size r
        ∧ zlen (Reg.data B) = Contig.Size r
        ∧ zlen (Reg.slotToEntity B) = Contig.Size r
        ∧ ∃ slot,
            0 ≤ slot < Contig.Size r
            ∧ zget (Reg.indexToSlot A) (EntityToIndex e) = Some slot
            ∧ zget (Reg.indexToSlot B) (EntityToIndex e) = Some slot
            ∧ zget (Reg.slotToEntity A) slot = Some e
            ∧ zget (Reg.slotToEntity B) slot = Some e
            ∧ is_Some (zget (Reg.data A) slot)
            ∧ is_Some (zget (Reg.data B) slot).
Proof.
  intros Hops.
  destruct (contig_checked_run dc n ops (Contig.new_registry dc n)) as (r & Hrun & Hr);
    [apply Reg.reachable_new|done|].
  exists r. split; [done|]. intros e A B He HA HB.
  destruct (contig_aligned dc n r e A Hr He HA)
    as (HdA & HeA & slot & Hslot & HspA & HseA & HvA).
  destruct (contig_aligned dc n r e B Hr He HB)
    as (HdB & HeB & slot' & _ & HspB & HseB & HvB).
  assert (slot' = slot) as ->.
  { destruct (contig_describes dc n r Hr) as (fl & dense & sparse & Hd).
    destruct Hd as (_ & _ & _ & _ & _ & Hst). rewrite Forall_forall in Hst.
    destruct (Hst _ HA) as (_ & HsA & _). destruct (Hst _ HB) as (_ & HsB & _).
    rewrite HsA in HspA. rewrite HsB in HspB. congruence. }
  do 4 (split; [done|]). exists slot.
  do 6 (split; [assumption|]). assumption.
Qed.

Lemma contiguous_storages_stay_aligned_witness :
  Forall (Contig.checked_op 2) Demo.refilled
  ∧ ∃ r,
      Reg.run (SE:=Contig.SE) (SS:=Contig.SS) (SV:=Contig.SV 0) 0 Demo.refilled
        (Contig.new_registry 0 2) = Some r
      ∧ ∀ e A B,
          Contig.IsValidEntity r e = Some true →
          A ∈ Reg.storages r → B ∈ Reg.storages r →
          zlen (Reg.data A) = Contig.Size r
          ∧ zlen (Reg.slotToEntity A) = Contig.Size r
          ∧ zlen (Reg.data B) = Contig.Size r
          ∧ zlen (Reg.slotToEntity B) = Contig.Size r
          ∧ ∃ slot,
              0 ≤ slot < Contig.Size r
              ∧ zget (Reg.indexToSlot A) (EntityToIndex e) = Some slot
              ∧ zget (Reg.indexToSlot B) (EntityToIndex e) = Some slot
              ∧ zget (Reg.slotToEntity A) slot = Some e
              ∧ zget (Reg.slotToEntity B) slot = Some e
              ∧ is_Some (zget (Reg.data A) slot)
              ∧ is_Some (zget (Reg.data B) slot).
Proof.
  assert (Forall (Contig.checked_op (V:=Z) 2) Demo.refilled) as Hops.
  { vm_compute. repeat (constructor; [exact I|]). constructor. }
  split; [exact Hops|].
  exact (contiguous_storages_stay_aligned 0 2 Demo.refilled Hops).
Defined.
